(** * Echo-server: categories, items and admin authentication

    A shallow embedding of the Express/Mongoose handlers of the
    repository, together with the properties its specification states
    about them.

    Layout:
    - [Text]      JavaScript string operations used by the handlers and
                  the slug normalisation chain;
    - [Store]     documents, the world a handler runs in and the monad
                  of awaited store calls;
    - [Http]      responses;
    - [Models]    the Mongoose models: queries, schema validation, hooks;
    - [CategoryController], [ItemController], [Auth], [App]
                  the handlers, the auth middleware and the global error
                  handler;
    - [Spec]      the vocabulary of the properties and a few concrete
                  stores and requests;
    - [TextFacts] ... [Runs]  the properties. *)

From Stdlib Require Import String Ascii List ZArith NArith Lia Bool Arith
  DecimalString DecimalNat Permutation Finite Eqdep_dec.
Import ListNotations.

Local Open Scope string_scope.
Local Open Scope list_scope.

(** ** JavaScript strings

    Strings are sequences of 8-bit code units (Latin-1).  The character
    classes below are the restrictions of the ECMAScript ones to that
    range. *)

Module Text.

Definition code (c : ascii) : N := N_of_ascii c.

Definition in_range (lo hi : N) (c : ascii) : bool :=
  (lo <=? code c)%N && (code c <=? hi)%N.

Definition is_lower (c : ascii) : bool := in_range 97 122 c.
Definition is_digit (c : ascii) : bool := in_range 48 57 c.
Definition is_hyphen (c : ascii) : bool := (code c =? 45)%N.

(** [\s] of a regular expression and the characters [trim] removes:
    TAB, LF, VT, FF, CR, SPACE and NBSP. *)
Definition is_space (c : ascii) : bool :=
  in_range 9 13 c || (code c =? 32)%N || (code c =? 160)%N.

(** One character of [String.prototype.toLowerCase]: A-Z and the
    Latin-1 capitals (except the multiplication sign) move down by 32. *)
Definition lower_char (c : ascii) : ascii :=
  if in_range 65 90 c
     || (in_range 192 222 c && negb (code c =? 215)%N)
  then ascii_of_N (code c + 32)
  else c.

Fixpoint map_chars (f : ascii -> ascii) (s : string) : string :=
  match s with
  | EmptyString => EmptyString
  | String c r => String (f c) (map_chars f r)
  end.

Fixpoint filter_chars (p : ascii -> bool) (s : string) : string :=
  match s with
  | EmptyString => EmptyString
  | String c r => if p c then String c (filter_chars p r)
                  else filter_chars p r
  end.

Fixpoint all_chars (p : ascii -> bool) (s : string) : bool :=
  match s with
  | EmptyString => true
  | String c r => p c && all_chars p r
  end.

Definition is_empty (s : string) : bool :=
  match s with EmptyString => true | _ => false end.

Definition toLowerCase (s : string) : string := map_chars lower_char s.

Fixpoint trimStart (s : string) : string :=
  match s with
  | EmptyString => EmptyString
  | String c r => if is_space c then trimStart r else s
  end.

Fixpoint trimEnd (s : string) : string :=
  match s with
  | EmptyString => EmptyString
  | String c r =>
      let r' := trimEnd r in
      if is_space c && is_empty r' then EmptyString else String c r'
  end.

Definition trim (s : string) : string := trimEnd (trimStart s).

(** [.replace(/[^a-z0-9\s-]/g, "")] *)
Definition slug_keep (c : ascii) : bool :=
  is_lower c || is_digit c || is_space c || is_hyphen c.

Definition strip_special (s : string) : string := filter_chars slug_keep s.

(** [.replace(/\s+/g, "-")]: every maximal run of white space becomes
    one hyphen.  [prev] tells that the previous character belonged to
    the run being replaced. *)
Fixpoint spaces_to_hyphen_from (prev : bool) (s : string) : string :=
  match s with
  | EmptyString => EmptyString
  | String c r =>
      if is_space c then
        if prev then spaces_to_hyphen_from true r
        else String "-" (spaces_to_hyphen_from true r)
      else String c (spaces_to_hyphen_from false r)
  end.

Definition spaces_to_hyphen : string -> string :=
  spaces_to_hyphen_from false.

(** [.replace(/-+/g, "-")]: every maximal run of hyphens becomes one. *)
Fixpoint squeeze_hyphens_from (prev : bool) (s : string) : string :=
  match s with
  | EmptyString => EmptyString
  | String c r =>
      if is_hyphen c then
        if prev then squeeze_hyphens_from true r
        else String c (squeeze_hyphens_from true r)
      else String c (squeeze_hyphens_from false r)
  end.

Definition squeeze_hyphens : string -> string :=
  squeeze_hyphens_from false.

(** [.replace(/^-|-$/g, "")]: one hyphen at the very start and one at
    the very end are removed; the scan is left to right, so a lone
    hyphen is consumed by the first alternative. *)
Definition strip_leading_hyphen (s : string) : string :=
  match s with
  | String c r => if is_hyphen c then r else s
  | EmptyString => EmptyString
  end.

Fixpoint strip_trailing_hyphen (s : string) : string :=
  match s with
  | EmptyString => EmptyString
  | String c r =>
      match r with
      | EmptyString => if is_hyphen c then EmptyString else s
      | String _ _ => String c (strip_trailing_hyphen r)
      end
  end.

Definition strip_edge_hyphens (s : string) : string :=
  strip_trailing_hyphen (strip_leading_hyphen s).

(** The chain the controllers apply to a name or a title:
    [x.toLowerCase().trim()] followed by the four [replace] calls. *)
Definition slugify (s : string) : string :=
  strip_edge_hyphens
    (squeeze_hyphens
       (spaces_to_hyphen
          (strip_special
             (trim (toLowerCase s))))).

(** The schema's [match: /^[a-z0-9-]+$/]. *)
Definition is_slug_char (c : ascii) : bool :=
  is_lower c || is_digit c || is_hyphen c.

Definition matches_slug_pattern (s : string) : bool :=
  negb (is_empty s) && all_chars is_slug_char s.

Definition starts_with_hyphen (s : string) : bool :=
  match s with String c _ => is_hyphen c | EmptyString => false end.

Fixpoint ends_with_hyphen (s : string) : bool :=
  match s with
  | EmptyString => false
  | String c r =>
      match r with
      | EmptyString => is_hyphen c
      | String _ _ => ends_with_hyphen r
      end
  end.

Fixpoint has_hyphen_run (s : string) : bool :=
  match s with
  | EmptyString => false
  | String c r => (is_hyphen c && starts_with_hyphen r) || has_hyphen_run r
  end.

(** Already-clean input: [[a-z0-9-]+] with no leading, trailing or
    repeated hyphen. *)
Definition is_clean_slug (s : string) : bool :=
  matches_slug_pattern s
  && negb (starts_with_hyphen s)
  && negb (ends_with_hyphen s)
  && negb (has_hyphen_run s).

(** Template-literal rendering of a number, [`${n}`]. *)
Definition show_nat (n : nat) : string :=
  NilZero.string_of_uint (Nat.to_uint n).

(** The hexadecimal digits that [ObjectId.prototype.toString] writes,
    [[0-9a-f]], and those that [new ObjectId(s)] reads, [[0-9a-fA-F]]. *)
Definition is_lower_hex (c : ascii) : bool := is_digit c || in_range 97 102 c.

Definition is_hex_digit (c : ascii) : bool :=
  is_lower_hex c || in_range 65 70 c.

Definition hex_char (d : N) : ascii :=
  if (d <? 10)%N then ascii_of_N (48 + d) else ascii_of_N (87 + d).

(** The last [k] hexadecimal digits of [n], the most significant first. *)
Fixpoint hex_digits (k : nat) (n : N) : string :=
  match k with
  | O => EmptyString
  | S k' =>
      (hex_digits k' (n / 16) ++ String (hex_char (n mod 16)) EmptyString)%string
  end.

(** JavaScript truthiness of an optional string field: [undefined] and
    the empty string are falsy. *)
Definition truthy (o : option string) : bool :=
  match o with
  | Some s => negb (is_empty s)
  | None => false
  end.

End Text.

(** ** Documents, the world and the monad of awaited calls *)

Module Store.

(** An ObjectId is twelve bytes.  The handlers meet it as its
    [toString()], 24 hexadecimal digits in lower case, and that is how
    it is kept: a string together with the fact that it has this form. *)
Definition is_ObjectId_hex (s : string) : bool :=
  (String.length s =? 24)%nat && Text.all_chars Text.is_lower_hex s.

Record ObjectId := mkObjectId {
  toString : string;
  toString_hex : is_ObjectId_hex toString = true
}.

Coercion toString : ObjectId >-> string.

(** [a.equals(b)] *)
Definition oid_eqb (a b : ObjectId) : bool :=
  String.eqb (toString a) (toString b).

(** [new ObjectId(s)], the cast that Mongoose applies to a string given
    for an ObjectId path (in a filter, an update or a new document): 24
    hexadecimal digits, capitals or not, are the ObjectId with these
    digits; every other string is refused.  (Before version 5 of the
    [bson] package a string of twelve characters was read as twelve
    bytes; the current one refuses it, and so does this cast.) *)
Definition castObjectId (s : string) : option ObjectId :=
  match bool_dec (is_ObjectId_hex (Text.toLowerCase s)) true with
  | left H => Some (mkObjectId (Text.toLowerCase s) H)
  | right _ => None
  end.

(** The ObjectId with the digits [s]; the zero ObjectId when [s] does not
    have the form. *)
Definition oid (s : string) : ObjectId :=
  match castObjectId s with
  | Some id => id
  | None => mkObjectId "000000000000000000000000" eq_refl
  end.

(** [ICategory] (models/Category).  The time stamps are only consulted
    by the query engine's [sort] and are left to it. *)
Module ICategory.
Record t := mk {
  _id : ObjectId;
  name : string;
  slug : string;
  description : string;
  icon : option string;
  gradient : option string;
  status : string;
  sortOrder : Z;
  itemCount : nat
}.

Definition set_itemCount (n : nat) (c : t) : t :=
  mk (_id c) (name c) (slug c) (description c) (icon c) (gradient c)
     (status c) (sortOrder c) n.
End ICategory.

(** One entry of [characters]. *)
Module Character.
Record t := mk {
  name : option string;
  image : option string;
  description : option string
}.
End Character.

(** [IItem] (models/Item).  The record holds the fields that the
    handlers inspect; the remaining descriptive fields (release date,
    developer, platforms, genres, screenshots, ratings, ...) are copied
    from the request to the document and back to the response and are
    not represented.  Both schema variants share the record: the typed
    schema requires [title], [slug], [description] and [createdBy], the
    relaxed one only [category]. *)
Module IItem.
Record t := mk {
  _id : ObjectId;
  title : option string;
  slug : option string;
  description : option string;
  category : ObjectId;
  status : string;
  characters : list Character.t;
  createdBy : option ObjectId
}.

Definition set_status (s : string) (i : t) : t :=
  mk (_id i) (title i) (slug i) (description i) (category i) s
     (characters i) (createdBy i).
End IItem.

(** [IAdmin] (models/Item.ts, second part). *)
Module IAdmin.
Record t := mk {
  _id : ObjectId;
  username : string;
  email : string;
  password : string;          (* the stored hash *)
  role : string;
  isActive : bool;
  lastLogin : option N
}.

Definition set_lastLogin (d : N) (a : t) : t :=
  mk (_id a) (username a) (email a) (password a) (role a) (isActive a)
     (Some d).
End IAdmin.

(** What a rejected promise or a [throw] carries: the [name] (or
    [code]) by which the handlers and the global error handler tell
    errors apart. *)
Inductive Err : Type :=
| MongoError                              (* the driver rejected the call *)
| ValidationError (errors : list string)  (* name = "ValidationError" *)
| DuplicateKey (field : string)           (* code = 11000 *)
| JsonWebTokenError
| TokenExpiredError
| NotBeforeError
| TypeError
| CastError                               (* name = "CastError" *)
| IllegalArguments.                       (* bcrypt: "Illegal arguments: ..." *)

(** The world of a request: the three collections, what [logger.error]
    wrote, the clock, the counter behind freshly generated ObjectIds,
    and [faults], the fate of the store calls still to be awaited
    ([true]: the call rejects; an exhausted list: every further call is
    answered). *)
Record World := mkWorld {
  categories : list ICategory.t;
  items : list IItem.t;
  admins : list IAdmin.t;
  log : list string;
  now : N;
  next_oid : nat;
  faults : list bool
}.

Definition set_categories (cs : list ICategory.t) (w : World) : World :=
  mkWorld cs (items w) (admins w) (log w) (now w) (next_oid w) (faults w).
Definition set_items (l : list IItem.t) (w : World) : World :=
  mkWorld (categories w) l (admins w) (log w) (now w) (next_oid w) (faults w).
Definition set_admins (l : list IAdmin.t) (w : World) : World :=
  mkWorld (categories w) (items w) l (log w) (now w) (next_oid w) (faults w).
Definition set_log (l : list string) (w : World) : World :=
  mkWorld (categories w) (items w) (admins w) l (now w) (next_oid w) (faults w).
Definition set_next_oid (n : nat) (w : World) : World :=
  mkWorld (categories w) (items w) (admins w) (log w) (now w) n (faults w).
Definition set_faults (f : list bool) (w : World) : World :=
  mkWorld (categories w) (items w) (admins w) (log w) (now w) (next_oid w) f.

(** How an awaited computation ends. [OutOfFuel] only arises from the
    bounded unrolling of a [while] loop. *)
Inductive Outcome (A : Type) : Type :=
| Done (a : A)
| Thrown (e : Err)
| OutOfFuel.
Arguments Done {A} a.
Arguments Thrown {A} e.
Arguments OutOfFuel {A}.

(** Writes made before a [throw] stay in the store: the state is
    threaded through failures as well. *)
Definition M (A : Type) : Type := World -> Outcome A * World.

Definition ret {A} (a : A) : M A := fun w => (Done a, w).

Definition bind {A B} (m : M A) (k : A -> M B) : M B :=
  fun w =>
    match m w with
    | (Done a, w') => k a w'
    | (Thrown e, w') => (Thrown e, w')
    | (OutOfFuel, w') => (OutOfFuel, w')
    end.

Definition throw {A} (e : Err) : M A := fun w => (Thrown e, w).

(** [try { m } catch (error) { h error }] *)
Definition try_catch {A} (m : M A) (h : Err -> M A) : M A :=
  fun w =>
    match m w with
    | (Thrown e, w') => h e w'
    | r => r
    end.

(** [logger.error(msg, error)] *)
Definition logger_error (msg : string) : M unit :=
  fun w => (Done tt, set_log (log w ++ [msg]) w).

(** One awaited call to the store: it consumes the next entry of
    [faults] and rejects, without effect, when that entry is [true]. *)
Definition await {A} (call : M A) : M A :=
  fun w =>
    match faults w with
    | true :: fs => (Thrown MongoError, set_faults fs w)
    | false :: fs => call (set_faults fs w)
    | [] => call w
    end.

(** Run [m] with its own fault schedule [fs], then put the caller's
    schedule back. *)
Definition with_faults {A} (fs : list bool) (m : M A) : M A :=
  fun w =>
    let (r, w') := m (set_faults fs w) in
    (r, set_faults (faults w) w').

(** [new ObjectId()]: the driver's generator is a counter here, and the
    ObjectId it hands out has the digits of the count. *)
Definition numbered_ObjectId (n : nat) : ObjectId :=
  oid (Text.hex_digits 24 (N.of_nat n)).

Definition new_ObjectId : M ObjectId :=
  fun w =>
    (Done (numbered_ObjectId (next_oid w)), set_next_oid (S (next_oid w)) w).

Definition Date_now : M N := fun w => (Done (now w), w).

Definition outcome {A} (r : Outcome A * World) : Outcome A := fst r.
Definition world {A} (r : Outcome A * World) : World := snd r.

End Store.

Declare Scope monad_scope.
Notation "x <- m ;; k" := (Store.bind m (fun x => k))
  (at level 61, m at next level, right associativity) : monad_scope.
Notation "m ;;; k" := (Store.bind m (fun _ => k))
  (at level 61, right associativity) : monad_scope.

Local Open Scope monad_scope.

(** ** HTTP requests and responses *)

Module Http.
Import Store.

(** A value of a request body where the handler expects a string: the
    body is parsed JSON, and the validator in front of the handler may
    let a value of another type through.  Of an array or an object only
    the fact that it is one is kept. *)
Inductive Json : Type :=
| JString (s : string)
| JNumber (n : Z)
| JBool (b : bool)
| JCompound.

Coercion JString : string >-> Json.

(** [populate("category", "name slug")] keeps these three fields. *)
Record CategoryRef := mkCategoryRef {
  ref_id : ObjectId;
  ref_name : string;
  ref_slug : string
}.

(** An item as the handlers send it: the document, its populated
    category ([None] when the referenced category does not exist) and,
    in the typed variant, the populated author. *)
Record Populated := mkPopulated {
  doc : IItem.t;
  category_ref : option CategoryRef;
  createdBy_ref : option (ObjectId * string)
}.

Record Pagination := mkPagination {
  current : nat;
  pages : nat;
  total : nat;
  limit : nat;
  hasNext : bool;
  hasPrev : bool
}.

Record AdminSummary := mkAdminSummary {
  sum_id : ObjectId;
  sum_username : string;
  sum_email : string;
  sum_role : string;
  sum_lastLogin : option N
}.

Inductive Payload : Type :=
| NoData
| CategoryData (category : ICategory.t)
| CategoriesData (categories : list ICategory.t) (pagination : Pagination)
| ItemData (item : Populated)
| ItemsData (items : list Populated) (pagination : Pagination)
| LoginData (admin : AdminSummary) (token : string).

Record Cookie := mkCookie {
  cookie_name : string;
  cookie_value : string;
  cookie_expires : N;
  cookie_httpOnly : bool;
  cookie_sameSite : string
}.

(** [res.status(s).json({ success, message, data })], with the cookies
    set before it. *)
Record Response := mkResponse {
  status : nat;
  success : bool;
  message : option string;
  data : Payload;
  cookies : list Cookie
}.

Definition failure (code : nat) (msg : string) : Response :=
  mkResponse code false (Some msg) NoData [].

Definition ok (code : nat) (msg : option string) (d : Payload) : Response :=
  mkResponse code true msg d [].

End Http.

(** ** The Mongoose models *)

Module Models.
Import Store Http.

(** The parts of the document database that the handlers only call: the
    [$text] search and the ordering behind [sort].  Sorting rearranges
    the documents it is given and does nothing else. *)
Class QueryEngine := {
  text_match_category : string -> ICategory.t -> bool;
  text_match_item : string -> IItem.t -> bool;
  sort_categories : string -> bool -> list ICategory.t -> list ICategory.t;
  sort_items : string -> bool -> list IItem.t -> list IItem.t;
  featured_match : bool -> IItem.t -> bool;
  sort_categories_perm :
    forall field asc l, Permutation (sort_categories field asc l) l;
  sort_items_perm :
    forall field asc l, Permutation (sort_items field asc l) l
}.

(** Mongoose casts the string that a query gives for an ObjectId path
    before it calls the store: when the string is no ObjectId, the query
    is rejected with a CastError and the store is not called. *)
Definition casting {A} (value : string) (query : ObjectId -> M A) : M A :=
  match castObjectId value with
  | Some id => query id
  | None => throw CastError
  end.

(** The same for the strings of [{ $in: values }]. *)
Fixpoint castObjectIds (values : list string) : option (list ObjectId) :=
  match values with
  | [] => Some []
  | v :: r =>
      match castObjectId v, castObjectIds r with
      | Some id, Some ids => Some (id :: ids)
      | _, _ => None
      end
  end.

Definition casting_all {A} (values : list string)
  (query : list ObjectId -> M A) : M A :=
  match castObjectIds values with
  | Some ids => query ids
  | None => throw CastError
  end.

(** Replace, or remove, the first document that satisfies [p]. *)
Fixpoint update_first {D} (p : D -> bool) (f : D -> D) (l : list D) : list D :=
  match l with
  | [] => []
  | d :: r => if p d then f d :: r else d :: update_first p f r
  end.

Fixpoint remove_first {D} (p : D -> bool) (l : list D) : list D :=
  match l with
  | [] => []
  | d :: r => if p d then r else d :: remove_first p r
  end.

Definition option_eqb (a b : option string) : bool :=
  match a, b with
  | Some x, Some y => String.eqb x y
  | None, None => true
  | _, _ => false
  end.

Definition option_map_string (f : string -> string) (o : option string) :=
  match o with Some s => Some (f s) | None => None end.

(** [maxlength: n] passes on an absent value. *)
Definition maxlength (n : nat) (o : option string) : bool :=
  match o with Some s => (String.length s <=? n)%nat | None => true end.

(** [required: true] on a string path: absent and empty values fail. *)
Definition required (o : option string) : bool := Text.truthy o.

(** [match: /^[a-z0-9-]+$/] passes on an absent or empty value. *)
Definition match_slug (o : option string) : bool :=
  match o with
  | Some s => Text.is_empty s || Text.matches_slug_pattern s
  | None => true
  end.

Definition one_of (values : list string) (s : string) : bool :=
  existsb (String.eqb s) values.

(** The message of the [enum] validator of the [status] path. *)
Definition invalid_enum (s : string) : string :=
  ("`" ++ s ++ "` is not a valid enum value for path `status`.")%string.

(** [.skip(n).limit(m)]; a limit of zero means no limit. *)
Definition skip_limit {D} (skip limit : nat) (l : list D) : list D :=
  let rest := skipn skip l in
  if (limit =? 0)%nat then rest else firstn limit rest.

(** *** Category (models/Category, relaxed variant with its defaults) *)

Module Category.

(** [{ _id: id }], the id being cast. *)
Definition by_id (id : ObjectId) (c : ICategory.t) : bool :=
  oid_eqb (ICategory._id c) id.

(** The document has the slug [s]: what the unique index on [slug]
    compares. *)
Definition has_slug (s : string) (c : ICategory.t) : bool :=
  String.eqb (ICategory.slug c) s.

(** [{ slug }] in the filter of a query: Mongoose casts the filter, which
    applies the setters of the path, [trim] and [lowercase], to the slug
    that the handler gives. *)
Definition by_slug (s : string) (c : ICategory.t) : bool :=
  has_slug (Text.toLowerCase (Text.trim s)) c.

Definition findById (id : ObjectId) : M (option ICategory.t) :=
  await (fun w => (Done (find (by_id id) (categories w)), w)).

Definition findOne (q : ICategory.t -> bool) : M (option ICategory.t) :=
  await (fun w => (Done (find q (categories w)), w)).

Definition countDocuments (q : ICategory.t -> bool) : M nat :=
  await (fun w => (Done (length (filter q (categories w))), w)).

(** [findByIdAndUpdate(id, { itemCount })]: no document is created when
    none has this id. *)
Definition findByIdAndUpdate_itemCount (id : ObjectId) (itemCount : nat)
  : M (option ICategory.t) :=
  await (fun w =>
    (Done (find (by_id id) (categories w)),
     set_categories
       (update_first (by_id id) (ICategory.set_itemCount itemCount)
          (categories w)) w)).

Definition findByIdAndDelete (id : ObjectId) : M (option ICategory.t) :=
  await (fun w =>
    (Done (find (by_id id) (categories w)),
     set_categories (remove_first (by_id id) (categories w)) w)).

(** [find(query).sort(sortObj).skip(skip).limit(limitNum).lean()] *)
Definition find_page `{QueryEngine} (q : ICategory.t -> bool)
  (field : string) (asc : bool) (skip limit : nat) : M (list ICategory.t) :=
  await (fun w =>
    (Done (skip_limit skip limit
             (sort_categories field asc (filter q (categories w)))), w)).

(** The argument of [new Category({...})]. *)
Record Fields := mkFields {
  name : option string;
  slug : option string;
  description : option string;
  icon : option string;
  gradient : option string;
  status : option string;
  sortOrder : option Z
}.

(** Schema setters: [trim] on the string paths, [lowercase] on the slug. *)
Definition cast (f : Fields) : Fields :=
  mkFields
    (option_map_string Text.trim (name f))
    (option_map_string (fun s => Text.toLowerCase (Text.trim s)) (slug f))
    (option_map_string Text.trim (description f))
    (option_map_string Text.trim (icon f))
    (option_map_string Text.trim (gradient f))
    (status f)
    (sortOrder f).

(** Schema validators, on the cast fields. A failed validator
    contributes its message. *)
Definition validate (f : Fields) : list string :=
  (if required (name f) then [] else ["Category name is required"])
  ++ (if maxlength 50 (name f) then []
      else ["Category name cannot exceed 50 characters"])
  ++ (if required (slug f) then [] else ["Category slug is required"])
  ++ (if match_slug (slug f) then []
      else ["Slug can only contain lowercase letters, numbers, and hyphens"])
  ++ (if required (description f) then []
      else ["Category description is required"])
  ++ (if maxlength 500 (description f) then []
      else ["Description cannot exceed 500 characters"])
  ++ (match status f with
      | Some s => if one_of ["active"; "inactive"] s then []
                  else [invalid_enum s]
      | None => []
      end).

Definition or_default (d : string) (o : option string) : string :=
  match o with Some s => s | None => d end.

(** The document of validated fields, with the schema defaults. *)
Definition document (id : ObjectId) (f : Fields) : ICategory.t :=
  ICategory.mk id
    (or_default "" (name f))
    (or_default "" (slug f))
    (or_default "" (description f))
    (icon f)
    (match gradient f with
     | Some g => Some g
     | None => Some "from-blue-500 to-purple-600"
     end)
    (or_default "active" (status f))
    (match sortOrder f with Some z => z | None => 0%Z end)
    0.

(** [const category = new Category(fields); await category.save()]:
    validation, then the insert, which the unique index on [slug] can
    refuse.  The pre-save hook only acts on a document without slug,
    which validation has already rejected. *)
Definition create (fields : Fields) : M ICategory.t :=
  id <- new_ObjectId ;;
  await (fun w =>
    let f := cast fields in
    match validate f with
    | (_ :: _) as errors => (Thrown (ValidationError errors), w)
    | [] =>
        let c := document id f in
        if existsb (has_slug (ICategory.slug c)) (categories w)
        then (Thrown (DuplicateKey "slug"), w)
        else (Done c, set_categories (categories w ++ [c]) w)
    end).

(** What the relaxed schema makes of a stored document that a query
    loads without [lean()]: a path that the document lacks takes the
    default of the schema.  Of the paths kept here only [gradient] can
    be lacking. *)
Definition loaded (c : ICategory.t) : ICategory.t :=
  ICategory.mk (ICategory._id c) (ICategory.name c) (ICategory.slug c)
    (ICategory.description c) (ICategory.icon c)
    (match ICategory.gradient c with
     | Some g => Some g
     | None => Some "from-blue-500 to-purple-600"
     end)
    (ICategory.status c) (ICategory.sortOrder c) (ICategory.itemCount c).

End Category.

(** *** Item (models/Item) *)

Module Item.

(** [{ _id: id }], the id being cast. *)
Definition by_id (id : ObjectId) (i : IItem.t) : bool :=
  oid_eqb (IItem._id i) id.

(** The document has the slug [s]: what the unique index on [slug]
    compares. *)
Definition has_slug (s : option string) (i : IItem.t) : bool :=
  option_eqb (IItem.slug i) s.

(** Another document has the slug. *)
Definition slug_of_another (s : option string) (id : ObjectId) (i : IItem.t)
  : bool :=
  has_slug s i && negb (by_id id i).

(** [{ slug }] in the filter of a query, which Mongoose casts: the
    setters of the path, [trim] and [lowercase], are applied to the slug
    that the handler gives; an absent slug matches an absent slug. *)
Definition by_slug (s : option string) (i : IItem.t) : bool :=
  has_slug (option_map (fun s => Text.toLowerCase (Text.trim s)) s) i.

(** [{ slug, _id: { $ne: id } }] *)
Definition by_slug_not_id (s : option string) (id : ObjectId) (i : IItem.t)
  : bool :=
  by_slug s i && negb (by_id id i).

(** [{ category: id }] *)
Definition in_category (id : ObjectId) (i : IItem.t) : bool :=
  oid_eqb (IItem.category i) id.

(** [{ category: id, status: "active" }] *)
Definition active_in_category (id : ObjectId) (i : IItem.t) : bool :=
  in_category id i && String.eqb (IItem.status i) "active".

(** [{ _id: { $in: ids } }] *)
Definition id_in (ids : list ObjectId) (i : IItem.t) : bool :=
  existsb (oid_eqb (IItem._id i)) ids.

Definition findById (id : ObjectId) : M (option IItem.t) :=
  await (fun w => (Done (find (by_id id) (items w)), w)).

Definition findOne (q : IItem.t -> bool) : M (option IItem.t) :=
  await (fun w => (Done (find q (items w)), w)).

Definition countDocuments (q : IItem.t -> bool) : M nat :=
  await (fun w => (Done (length (filter q (items w))), w)).

Definition find_all (q : IItem.t -> bool) : M (list IItem.t) :=
  await (fun w => (Done (filter q (items w)), w)).

(** [deleteMany(query)], answering [deletedCount]. *)
Definition deleteMany (q : IItem.t -> bool) : M nat :=
  await (fun w =>
    (Done (length (filter q (items w))),
     set_items (filter (fun i => negb (q i)) (items w)) w)).

Definition lookup_category (cs : list ICategory.t) (id : ObjectId)
  : option CategoryRef :=
  match find (Category.by_id id) cs with
  | Some c => Some (mkCategoryRef (ICategory._id c) (ICategory.name c)
                      (ICategory.slug c))
  | None => None
  end.

Definition lookup_author (l : list IAdmin.t) (o : option ObjectId)
  : option (ObjectId * string) :=
  match o with
  | Some id =>
      match find (fun a => oid_eqb (IAdmin._id a) id) l with
      | Some a => Some (IAdmin._id a, IAdmin.username a)
      | None => None
      end
  | None => None
  end.

Definition with_category (w : World) (i : IItem.t) : Populated :=
  mkPopulated i (lookup_category (categories w) (IItem.category i)) None.

(** [await item.populate("category", "name slug")] *)
Definition populate_category (i : IItem.t) : M Populated :=
  await (fun w => (Done (with_category w i), w)).

(** [await item.populate("createdBy", "username")] *)
Definition populate_createdBy (p : Populated) : M Populated :=
  await (fun w =>
    (Done (mkPopulated (doc p) (category_ref p)
             (lookup_author (admins w) (IItem.createdBy (doc p)))), w)).

(** [find(query).populate("category", "name slug").sort(sortObj)
     .skip(skip).limit(limitNum).lean()] *)
Definition find_page `{QueryEngine} (q : IItem.t -> bool)
  (field : string) (asc : bool) (skip limit : nat) : M (list Populated) :=
  await (fun w =>
    (Done (map (with_category w)
             (skip_limit skip limit
                (sort_items field asc (filter q (items w))))), w)).

(** The argument of [new Item({...})]; [category] is the string of the
    request. *)
Record Fields := mkFields {
  title : option string;
  slug : option string;
  description : option string;
  category : string;
  status : option string;
  characters : list Character.t;
  createdBy : option ObjectId
}.

Definition cast_character (c : Character.t) : Character.t :=
  Character.mk (option_map_string Text.trim (Character.name c))
    (Character.image c)
    (option_map_string Text.trim (Character.description c)).

Definition cast (f : Fields) : Fields :=
  mkFields
    (option_map_string Text.trim (title f))
    (option_map_string (fun s => Text.toLowerCase (Text.trim s)) (slug f))
    (option_map_string Text.trim (description f))
    (category f)
    (status f)
    (map cast_character (characters f))
    (createdBy f).

Definition validate_status (o : option string) : list string :=
  match o with
  | Some s => if one_of ["active"; "inactive"; "draft"] s then []
              else [invalid_enum s]
  | None => []
  end.

Definition document (id category : ObjectId) (f : Fields) : IItem.t :=
  IItem.mk id (title f) (slug f) (description f) category
    (Category.or_default "draft" (status f)) (characters f) (createdBy f).

Definition cast_failed (path : string) : string :=
  ("Cast to ObjectId failed for path `" ++ path ++ "`")%string.

(** The insert behind [save()]: a [category] that could not be cast
    counts among the validation errors; the unique index on [slug] can
    refuse the insert. *)
Definition insert (validate : Fields -> list string) (id : ObjectId)
  (fields : Fields) : M IItem.t :=
  await (fun w =>
    let f := cast fields in
    match castObjectId (category f), validate f with
    | None, errors =>
        (Thrown (ValidationError (cast_failed "category" :: errors)), w)
    | Some _, (_ :: _) as errors => (Thrown (ValidationError errors), w)
    | Some category, [] =>
        let i := document id category f in
        if existsb (has_slug (IItem.slug i)) (items w)
        then (Thrown (DuplicateKey "slug"), w)
        else (Done i, set_items (items w ++ [i]) w)
    end).

(** **** The typed schema (models/Item.ts): no hooks. *)
Module Typed.

Definition validate (f : Fields) : list string :=
  (if required (title f) then [] else ["Item title is required"])
  ++ (if maxlength 200 (title f) then []
      else ["Title cannot exceed 200 characters"])
  ++ (if required (slug f) then [] else ["Item slug is required"])
  ++ (if match_slug (slug f) then []
      else ["Slug can only contain lowercase letters, numbers, and hyphens"])
  ++ (if required (description f) then []
      else ["Item description is required"])
  ++ (if maxlength 2000 (description f) then []
      else ["Description cannot exceed 2000 characters"])
  ++ validate_status (status f)
  ++ (match createdBy f with
      | Some _ => []
      | None => ["Path `createdBy` is required."]
      end).

(** [const item = new Item(fields); await item.save()] *)
Definition create (fields : Fields) : M IItem.t :=
  id <- new_ObjectId ;;
  insert validate id fields.

End Typed.

(** **** The relaxed schema (models/Item.js), with its hooks. *)
Module Relaxed.

Definition validate_character (c : Character.t) : list string :=
  (if maxlength 100 (Character.name c) then []
   else ["Character name cannot exceed 100 characters"])
  ++ (if maxlength 300 (Character.description c) then []
      else ["Character description cannot exceed 300 characters"]).

Definition validate (f : Fields) : list string :=
  (if maxlength 200 (title f) then []
   else ["Title cannot exceed 200 characters"])
  ++ (if maxlength 2000 (description f) then []
      else ["Description cannot exceed 2000 characters"])
  ++ (if match_slug (slug f) then []
      else ["Slug can only contain lowercase letters, numbers, and hyphens"])
  ++ validate_status (status f)
  ++ flat_map validate_character (characters f).

(** The body shared by [ItemSchema.post("save")] and
    [ItemSchema.post("findOneAndDelete")]: count the active items of the
    category and store the number.  Nothing is caught here: a rejection
    rejects the model call that ran the hook. *)
Definition count_hook (category : ObjectId) : M unit :=
  count <- countDocuments (active_in_category category) ;;
  _ <- Category.findByIdAndUpdate_itemCount category count ;;
  ret tt.

(** [const item = new Item(fields); await item.save()] *)
Definition create (fields : Fields) : M IItem.t :=
  id <- new_ObjectId ;;
  i <- insert validate id fields ;;
  count_hook (IItem.category i) ;;;
  ret i.

Definition findByIdAndDelete (id : ObjectId) : M (option IItem.t) :=
  found <- await (fun w =>
             (Done (find (by_id id) (items w)),
              set_items (remove_first (by_id id) (items w)) w)) ;;
  match found with
  | Some i => count_hook (IItem.category i) ;;; ret (Some i)
  | None => ret None
  end.

(** The update document of [findByIdAndUpdate]; an [undefined] entry
    leaves its path as it is.  [u_category] is the string of the
    request. *)
Record Update := mkUpdate {
  u_title : option string;
  u_description : option string;
  u_slug : option string;
  u_category : option string;
  u_status : option string;
  u_characters : option (list Character.t)
}.

(** The cast of the [category] of an update: [None] when the string is
    no ObjectId. *)
Definition cast_category (c : option string) : option (option ObjectId) :=
  match c with
  | Some s =>
      match castObjectId s with
      | Some id => Some (Some id)
      | None => None
      end
  | None => Some None
  end.

Definition cast_update (u : Update) : Update :=
  mkUpdate
    (option_map_string Text.trim (u_title u))
    (option_map_string Text.trim (u_description u))
    (option_map_string (fun s => Text.toLowerCase (Text.trim s)) (u_slug u))
    (u_category u)
    (u_status u)
    (match u_characters u with
     | Some l => Some (map cast_character l)
     | None => None
     end).

(** [runValidators: true]: the validators of the paths being set. *)
Definition validate_update (u : Update) : list string :=
  (if maxlength 200 (u_title u) then []
   else ["Title cannot exceed 200 characters"])
  ++ (if maxlength 2000 (u_description u) then []
      else ["Description cannot exceed 2000 characters"])
  ++ (if match_slug (u_slug u) then []
      else ["Slug can only contain lowercase letters, numbers, and hyphens"])
  ++ validate_status (u_status u)
  ++ (match u_characters u with
      | Some l => flat_map validate_character l
      | None => []
      end).

Definition or_keep {A} (new : option A) (old : A) : A :=
  match new with Some a => a | None => old end.

Definition apply_update (u : Update) (category : option ObjectId)
  (i : IItem.t) : IItem.t :=
  IItem.mk (IItem._id i)
    (match u_title u with Some t => Some t | None => IItem.title i end)
    (match u_slug u with Some s => Some s | None => IItem.slug i end)
    (match u_description u with
     | Some d => Some d
     | None => IItem.description i
     end)
    (or_keep category (IItem.category i))
    (or_keep (u_status u) (IItem.status i))
    (or_keep (u_characters u) (IItem.characters i))
    (IItem.createdBy i).

(** [findByIdAndUpdate(id, update, { new: true, runValidators: true })
     .populate("category", "name slug")]: the update is cast, and a
    [category] that is no ObjectId rejects the call before the store is
    called. *)
Definition findByIdAndUpdate (id : ObjectId) (update : Update)
  : M (option Populated) :=
  match cast_category (u_category update) with
  | None => throw CastError
  | Some category =>
      await (fun w =>
        let u := cast_update update in
        match validate_update u with
        | (_ :: _) as errors => (Thrown (ValidationError errors), w)
        | [] =>
            match find (by_id id) (items w) with
            | None => (Done None, w)
            | Some i =>
                if match u_slug u with
                   | Some s => existsb (slug_of_another (Some s) id) (items w)
                   | None => false
                   end
                then (Thrown (DuplicateKey "slug"), w)
                else
                  let w' := set_items
                              (update_first (by_id id) (apply_update u category)
                                 (items w)) w in
                  (Done (Some (with_category w' (apply_update u category i))),
                   w')
            end
        end)
  end.

End Relaxed.

End Item.

(** *** Admin (the admin model) and the two libraries beside it *)

(** [bcrypt.compare(candidate, hash)] *)
Class Bcrypt := {
  bcrypt_compare : string -> string -> bool
}.

(** What [jwt.verify(token, secret)] does with a token: it returns the
    payload, or throws one of the library's three errors. *)
Inductive Verified : Type :=
| Payload_id (id : ObjectId)
| Malformed            (* JsonWebTokenError: bad signature, malformed *)
| Expired              (* TokenExpiredError *)
| NotYetValid.         (* NotBeforeError *)

Class Jwt := {
  jwt_sign : ObjectId -> string;
  jwt_check : string -> Verified
}.

Definition jwt_verify `{Jwt} (token : string) : M ObjectId :=
  match jwt_check token with
  | Payload_id id => ret id
  | Malformed => throw JsonWebTokenError
  | Expired => throw TokenExpiredError
  | NotYetValid => throw NotBeforeError
  end.

Module Admin.

(** [{ email, isActive: true }]: the setters of the schema, [trim] and
    [lowercase], are applied to the email of the filter. *)
Definition active_with_email (email : string) (a : IAdmin.t) : bool :=
  String.eqb (IAdmin.email a) (Text.toLowerCase (Text.trim email))
  && IAdmin.isActive a.

(** [{ email }], cast in the same way. *)
Definition by_email (email : string) (a : IAdmin.t) : bool :=
  String.eqb (IAdmin.email a) (Text.toLowerCase (Text.trim email)).

(** [{ username }]: the setter of the path is [trim]. *)
Definition by_username (username : string) (a : IAdmin.t) : bool :=
  String.eqb (IAdmin.username a) (Text.trim username).

Definition by_id (id : ObjectId) (a : IAdmin.t) : bool :=
  oid_eqb (IAdmin._id a) id.

Definition findOne (q : IAdmin.t -> bool) : M (option IAdmin.t) :=
  await (fun w => (Done (find q (admins w)), w)).

Definition without_password (a : IAdmin.t) : IAdmin.t :=
  IAdmin.mk (IAdmin._id a) (IAdmin.username a) (IAdmin.email a) ""
    (IAdmin.role a) (IAdmin.isActive a) (IAdmin.lastLogin a).

(** [findById(id).select("-password")] *)
Definition findById_select (id : ObjectId) : M (option IAdmin.t) :=
  await (fun w =>
    (Done (option_map without_password (find (by_id id) (admins w))), w)).

(** [admin.comparePassword(password)], that is
    [bcrypt.compare(password, this.password)]: the promise is rejected
    when the candidate is not a string. *)
Definition comparePassword `{Bcrypt} (a : IAdmin.t) (password : Json)
  : M bool :=
  match password with
  | JString s => ret (bcrypt_compare s (IAdmin.password a))
  | _ => throw IllegalArguments
  end.

(** [await admin.save()] of a loaded document whose [lastLogin] was set. *)
Definition save (a : IAdmin.t) : M unit :=
  await (fun w =>
    (Done tt,
     set_admins (update_first (by_id (IAdmin._id a)) (fun _ => a) (admins w))
       w)).

End Admin.

End Models.

(** ** controllers/categoryController *)

Module CategoryController.
Import Store Http Models.

(** What the list handlers read from [req.query].  [page] and [limit]
    are the integers that [validatePagination] admits ([isInt] with
    [min: 1]) and [parseInt] reads back; an absent field takes the
    handler's default. *)
Record ListQuery := mkListQuery {
  page : option positive;
  limit : option positive;
  search : option string;
  category : option string;
  status : option string;
  featured : option string;
  sort : option string;
  order : option string
}.

Definition pageNum (q : ListQuery) : nat :=
  match page q with Some p => Pos.to_nat p | None => 1 end.

Definition limitNum (q : ListQuery) : nat :=
  match limit q with Some p => Pos.to_nat p | None => 10 end.

(** [sortObj[sort] = order === "asc" ? 1 : -1] *)
Definition sort_field (q : ListQuery) : string :=
  match sort q with Some s => s | None => "createdAt" end.

Definition sort_asc (q : ListQuery) : bool :=
  match order q with Some o => String.eqb o "asc" | None => false end.

(** [Math.ceil(total / limitNum)] for a positive [limitNum]. *)
Definition Math_ceil_div (total limitNum : nat) : nat :=
  if (total mod limitNum =? 0)%nat then total / limitNum
  else S (total / limitNum).

Definition pagination (q : ListQuery) (total : nat) : Pagination :=
  let totalPages := Math_ceil_div total (limitNum q) in
  mkPagination (pageNum q) totalPages total (limitNum q)
    (pageNum q <? totalPages)%nat
    (1 <? pageNum q)%nat.

Definition internal_error (label : string) : Err -> M Response :=
  fun _ =>
    logger_error label ;;;
    ret (failure 500 "Internal server error").

Section WithEngine.
Context `{QueryEngine}.

Definition category_query (q : ListQuery) (c : ICategory.t) : bool :=
  (if Text.truthy (search q)
   then text_match_category (Category.or_default "" (search q)) c
   else true)
  && (if Text.truthy (status q)
      then String.eqb (ICategory.status c) (Category.or_default "" (status q))
      else true).

Definition getCategories (q : ListQuery) : M Response :=
  try_catch
    (let skip := ((pageNum q - 1) * limitNum q)%nat in
     let query := category_query q in
     categories <- Category.find_page query (sort_field q) (sort_asc q)
                     skip (limitNum q) ;;
     total <- Category.countDocuments query ;;
     ret (ok 200 None (CategoriesData categories (pagination q total))))
    (internal_error "Get categories error:").

End WithEngine.

(** The [while] loop that makes a slug unique, unrolled at most [fuel]
    times:
    [while (await Model.findOne({ slug: uniqueSlug })) {
       uniqueSlug = `${base}-${counter}`; counter++; }] *)
Fixpoint make_unique (taken : string -> M bool) (fuel : nat)
  (base uniqueSlug : string) (counter : nat) : M string :=
  match fuel with
  | O => fun w => (OutOfFuel, w)
  | S fuel' =>
      found <- taken uniqueSlug ;;
      if (found : bool)
      then make_unique taken fuel' base
             (base ++ "-" ++ Text.show_nat counter)%string (S counter)
      else ret uniqueSlug
  end.

Definition is_some {A} (o : option A) : bool :=
  match o with Some _ => true | None => false end.

Definition category_slug_taken (s : string) : M bool :=
  found <- Category.findOne (Category.by_slug s) ;;
  ret (is_some found).

(** [createCategory] of the relaxed controller (the second part of
    app.ts), which derives the slug from the name. *)
Definition createCategory (fuel : nat) (body : Category.Fields) : M Response :=
  try_catch
    (let categorySlug :=
       if negb (Text.truthy (Category.slug body))
          && Text.truthy (Category.name body)
       then option_map_string Text.slugify (Category.name body)
       else Category.slug body in
     if negb (Text.truthy categorySlug)
     then ret (failure 400 "Category name is required to generate slug")
     else
       let base := Category.or_default "" categorySlug in
       uniqueSlug <- make_unique category_slug_taken fuel base base 1 ;;
       category <- Category.create
                     (Category.mkFields (Category.name body) (Some uniqueSlug)
                        (Category.description body) (Category.icon body)
                        (Category.gradient body) (Category.status body)
                        (Category.sortOrder body)) ;;
       ret (ok 201 (Some "Category created successfully")
              (CategoryData category)))
    (internal_error "Create category error:").

Definition deleteCategory (id : string) : M Response :=
  try_catch
    (itemCount <- casting id (fun id =>
                    Item.countDocuments (Item.in_category id)) ;;
     if (0 <? itemCount)%nat
     then ret (failure 400
                 ("Cannot delete category. It has " ++ Text.show_nat itemCount
                  ++ " items. Please move or delete items first.")%string)
     else
       category <- casting id Category.findByIdAndDelete ;;
       match category with
       | None => ret (failure 404 "Category not found")
       | Some _ => ret (ok 200 (Some "Category deleted successfully") NoData)
       end)
    (internal_error "Delete category error:").

(** The counter maintainer.  [rejections] is the fate of the store calls
    awaited inside this invocation. *)
Definition updateCategoryItemCount (rejections : list bool)
  (categoryId : string) : M unit :=
  try_catch
    (with_faults rejections
       (itemCount <- casting categoryId (fun id =>
                       Item.countDocuments (Item.active_in_category id)) ;;
        _ <- casting categoryId (fun id =>
               Category.findByIdAndUpdate_itemCount id itemCount) ;;
        ret tt))
    (fun _ => logger_error "Update category item count error:").

End CategoryController.

(** ** controllers/itemController *)

Module ItemController.
Import Store Http Models CategoryController.

(** The fate of the store calls awaited inside each invocation of the
    counter maintainer, by the string it is invoked with. *)
Definition RecountFaults := string -> list bool.

Definition no_recount_faults : RecountFaults := fun _ => [].

(** What the item handlers destructure from [req.body].  [characters]
    is [None] when the body has no array there; an entry of the array
    is an object or [null]. *)
Record Body := mkBody {
  title : option string;
  slug : option string;
  description : option string;
  category : option string;
  status : option string;
  characters : option (list (option Character.t))
}.

Definition item_slug_taken (s : string) : M bool :=
  found <- Item.findOne (Item.by_slug (Some s)) ;;
  ret (is_some found).

(** [char.description && char.description.length > 300] *)
Definition description_too_long (c : Character.t) : bool :=
  match Character.description c with
  | Some d => negb (Text.is_empty d) && (300 <? String.length d)%nat
  | None => false
  end.

(** How the loop over [characters] ends: at the first entry that is
    [null], where [char.description] throws a TypeError; at the first
    entry whose description is too long; or behind the last entry. *)
Inductive CharactersCheck : Type :=
| NullEntry
| TooLong
| Passed.

Fixpoint check_entries (l : list (option Character.t)) : CharactersCheck :=
  match l with
  | [] => Passed
  | None :: _ => NullEntry
  | Some c :: r => if description_too_long c then TooLong else check_entries r
  end.

(** [if (characters && Array.isArray(characters)) { for (...) {...} }] *)
Definition check_characters (cs : option (list (option Character.t)))
  : CharactersCheck :=
  match cs with
  | Some l => check_entries l
  | None => Passed
  end.

(** [characters || []], behind the loop, which no [null] entry passes. *)
Definition characters_or_empty (cs : option (list (option Character.t)))
  : list Character.t :=
  match cs with
  | Some l => flat_map (fun c => match c with Some c => [c] | None => [] end) l
  | None => []
  end.

(** [slug], or the slug derived from the title when there is none. *)
Definition slug_or_derived (b : Body) : option string :=
  if negb (Text.truthy (slug b)) && Text.truthy (title b)
  then option_map_string Text.slugify (title b)
  else slug b.

(** [[...new Set(ids)]]: first occurrences, in order. *)
Fixpoint distinct_from (seen : list string) (l : list string)
  : list string :=
  match l with
  | [] => []
  | x :: r =>
      if existsb (String.eqb x) seen then distinct_from seen r
      else x :: distinct_from (x :: seen) r
  end.

Definition distinct : list string -> list string := distinct_from [].

(** [await Promise.all(ids.map((id) => updateCategoryItemCount(id)))] *)
Fixpoint recount_all (rf : RecountFaults) (ids : list string) : M unit :=
  match ids with
  | [] => ret tt
  | id :: r => updateCategoryItemCount (rf id) id ;;; recount_all rf r
  end.

(** *** The typed controller (the third part of app.ts) *)
Module Typed.

(** [Category.findById(category)]; [findById(undefined)] finds nothing. *)
Definition find_category (c : option string) : M (option ICategory.t) :=
  match c with
  | Some id => casting id Category.findById
  | None => await (ret None)
  end.

Definition createItem (rf : RecountFaults) (admin : option IAdmin.t)
  (body : Body) : M Response :=
  try_catch
    (categoryExists <- find_category (category body) ;;
     match categoryExists, category body with
     | Some _, Some cat =>
         existingItem <- Item.findOne (Item.by_slug (slug body)) ;;
         if is_some existingItem
         then ret (failure 400 "Item with this slug already exists")
         else
           item <- Item.Typed.create
                     (Item.mkFields (title body) (slug body)
                        (description body) cat (status body) []
                        (option_map IAdmin._id admin)) ;;
           updateCategoryItemCount (rf cat) cat ;;;
           p <- Item.populate_category item ;;
           p <- Item.populate_createdBy p ;;
           ret (ok 201 (Some "Item created successfully") (ItemData p))
     | _, _ => ret (failure 400 "Category not found")
     end)
    (internal_error "Create item error:").

End Typed.

(** *** The relaxed controller (the first unnamed part) *)
Module Relaxed.

Section WithEngine.
Context `{QueryEngine}.

(** [if (category) query.category = category], as the query casts it:
    [None] when the string is no ObjectId. *)
Definition category_filter (q : ListQuery) : option (option ObjectId) :=
  if Text.truthy (CategoryController.category q)
  then Item.Relaxed.cast_category (CategoryController.category q)
  else Some None.

Definition item_query (q : ListQuery) (category : option ObjectId)
  (i : IItem.t) : bool :=
  (if Text.truthy (search q)
   then text_match_item (Category.or_default "" (search q)) i
   else true)
  && (match category with
      | Some id => Item.in_category id i
      | None => true
      end)
  && (if Text.truthy (CategoryController.status q)
      then String.eqb (IItem.status i)
             (Category.or_default "" (CategoryController.status q))
      else true)
  && (if Text.truthy (featured q)
      then featured_match
             (String.eqb (Category.or_default "" (featured q)) "true") i
      else true).

Definition getItems (q : ListQuery) : M Response :=
  try_catch
    (let skip := ((pageNum q - 1) * limitNum q)%nat in
     match category_filter q with
     | None => throw CastError
     | Some category =>
         let query := item_query q category in
         items <- Item.find_page query (sort_field q) (sort_asc q)
                    skip (limitNum q) ;;
         total <- Item.countDocuments query ;;
         ret (ok 200 None (ItemsData items (pagination q total)))
     end)
    (internal_error "Get items error:").

End WithEngine.

Definition createItem (fuel : nat) (rf : RecountFaults) (body : Body)
  : M Response :=
  try_catch
    (match category body with
     | Some cat =>
         if Text.is_empty cat
         then ret (failure 400 "Category is required.")
         else
           match check_characters (characters body) with
           | NullEntry => throw TypeError
           | TooLong =>
               ret (failure 400
                      "Character description must be 300 characters or less.")
           | Passed =>
               let itemSlug := slug_or_derived body in
               if negb (Text.truthy itemSlug)
               then ret (failure 400 "Title is required to generate slug")
               else
                 categoryExists <- casting cat Category.findById ;;
                 if negb (is_some categoryExists)
                 then ret (failure 400 "Category not found")
                 else
                   let base := Category.or_default "" itemSlug in
                   uniqueSlug <- make_unique item_slug_taken fuel base base 1 ;;
                   item <- Item.Relaxed.create
                             (Item.mkFields (title body) (Some uniqueSlug)
                                (description body) cat
                                (if Text.truthy (status body) then status body
                                 else Some "draft")
                                (characters_or_empty (characters body)) None) ;;
                   updateCategoryItemCount (rf cat) cat ;;;
                   p <- Item.populate_category item ;;
                   ret (ok 201 (Some "Item created successfully") (ItemData p))
           end
     | None => ret (failure 400 "Category is required.")
     end)
    (internal_error "Create item error:").

(** [category && category !== current.toString()] *)
Definition category_changes (c : option string) (current : ObjectId) : bool :=
  Text.truthy c
  && negb (String.eqb (Category.or_default "" c) (toString current)).

Definition updateItem (rf : RecountFaults) (id : string) (body : Body)
  : M Response :=
  try_catch
    (match check_characters (characters body) with
     | NullEntry => throw TypeError
     | TooLong =>
         ret (failure 400
                "Character description must be 300 characters or less.")
     | Passed =>
       currentItem <- casting id Item.findById ;;
       match currentItem with
       | None => ret (failure 404 "Item not found")
       | Some currentItem =>
           let itemSlug :=
             if Text.truthy (slug_or_derived body) then slug_or_derived body
             else IItem.slug currentItem in
           categoryExists <-
             (if category_changes (category body) (IItem.category currentItem)
              then found <- casting (Category.or_default "" (category body))
                              Category.findById ;;
                   ret (is_some found)
              else ret true) ;;
           if negb categoryExists
           then ret (failure 400 "Category not found")
           else
             existingItem <-
               (if Text.truthy itemSlug
                   && negb (option_eqb itemSlug (IItem.slug currentItem))
                then found <- casting id (fun id =>
                                Item.findOne (Item.by_slug_not_id itemSlug id)) ;;
                     ret (is_some found)
                else ret false) ;;
             if (existingItem : bool)
             then ret (failure 400 "Item with this slug already exists")
             else
               let oldCategory := IItem.category currentItem in
               item <- casting id (fun id =>
                         Item.Relaxed.findByIdAndUpdate id
                           (Item.Relaxed.mkUpdate (title body)
                              (description body) itemSlug (category body)
                              (status body)
                              (Some (characters_or_empty (characters body))))) ;;
               match item with
               | None => ret (failure 404 "Item not found")
               | Some p =>
                   (if category_changes (category body) oldCategory
                    then
                      updateCategoryItemCount (rf (toString oldCategory))
                        (toString oldCategory) ;;;
                      updateCategoryItemCount
                        (rf (Category.or_default "" (category body)))
                        (Category.or_default "" (category body))
                    else
                      updateCategoryItemCount (rf (toString oldCategory))
                        (toString oldCategory)) ;;;
                   ret (ok 200 (Some "Item updated successfully") (ItemData p))
               end
       end
     end)
    (internal_error "Update item error:").

Definition deleteItem (rf : RecountFaults) (id : string) : M Response :=
  try_catch
    (item <- casting id Item.Relaxed.findByIdAndDelete ;;
     match item with
     | None => ret (failure 404 "Item not found")
     | Some item =>
         (* item.category.toString() *)
         updateCategoryItemCount (rf (toString (IItem.category item)))
           (toString (IItem.category item)) ;;;
         ret (ok 200 (Some "Item deleted successfully") NoData)
     end)
    (internal_error "Delete item error:").

(** [ids] is [None] when the body does not carry an array. *)
Definition bulkDeleteItems (rf : RecountFaults)
  (ids : option (list string)) : M Response :=
  try_catch
    (match ids with
     | Some ((_ :: _) as ids) =>
         items <- casting_all ids (fun ids => Item.find_all (Item.id_in ids)) ;;
         let categoryIds :=
           distinct (map (fun item => toString (IItem.category item)) items) in
         deletedCount <- casting_all ids (fun ids =>
                           Item.deleteMany (Item.id_in ids)) ;;
         recount_all rf categoryIds ;;;
         ret (ok 200
                (Some (Text.show_nat deletedCount
                       ++ " items deleted successfully")%string) NoData)
     | _ => ret (failure 400 "Please provide an array of item IDs")
     end)
    (internal_error "Bulk delete items error:").

Definition updateItemStatus (rf : RecountFaults) (id : string)
  (status : option string) : M Response :=
  try_catch
    (item <- casting id (fun id =>
               Item.Relaxed.findByIdAndUpdate id
                 (Item.Relaxed.mkUpdate None None None None status None)) ;;
     match item with
     | None => ret (failure 404 "Item not found")
     | Some p =>
         (* item.category._id.toString() *)
         match category_ref p with
         | None => throw TypeError
         | Some c =>
             updateCategoryItemCount (rf (toString (ref_id c)))
               (toString (ref_id c)) ;;;
             ret (ok 200 (Some "Item status updated successfully")
                    (ItemData p))
         end
     end)
    (internal_error "Update item status error:").

End Relaxed.

End ItemController.

(** ** controllers/authController and middleware/auth *)

Module Auth.
Import Store Http Models CategoryController.

Section WithLibraries.
Context `{Bcrypt} `{Jwt}.

(** [generateToken(id)] *)
Definition generateToken (id : ObjectId) : string := jwt_sign id.

Definition seven_days : N := (7 * 24 * 60 * 60 * 1000)%N.

Definition login (email : string) (password : Json) : M Response :=
  try_catch
    (admin <- Admin.findOne (Admin.active_with_email email) ;;
     match admin with
     | None => ret (failure 401 "Invalid email or password")
     | Some admin =>
         isPasswordValid <- Admin.comparePassword admin password ;;
         if negb isPasswordValid
         then ret (failure 401 "Invalid email or password")
         else
           date <- Date_now ;;
           let admin := IAdmin.set_lastLogin date admin in
           Admin.save admin ;;;
           let token := generateToken (IAdmin._id admin) in
           expires <- Date_now ;;
           ret (mkResponse 200 true (Some "Login successful")
                  (LoginData
                     (mkAdminSummary (IAdmin._id admin) (IAdmin.username admin)
                        (IAdmin.email admin) (IAdmin.role admin)
                        (IAdmin.lastLogin admin))
                     token)
                  [mkCookie "token" token (expires + seven_days)%N true
                     "strict"])
     end)
    (internal_error "Login error:").

(** The two places a request can carry its token. *)
Record AuthRequest := mkAuthRequest {
  authorization : option string;
  cookie_token : option string
}.

(** [s.replace(pattern, replacement)] with a string pattern: the first
    occurrence only. *)
Fixpoint replace_first (pattern replacement s : string) : string :=
  if String.prefix pattern s
  then (replacement
        ++ String.substring (String.length pattern)
             (String.length s - String.length pattern) s)%string
  else match s with
       | EmptyString => EmptyString
       | String c r => String c (replace_first pattern replacement r)
       end.

(** [req.header("Authorization")?.replace("Bearer ", "")
     || req.cookies?.token] *)
Definition request_token (req : AuthRequest) : option string :=
  let fromHeader :=
    option_map_string (replace_first "Bearer " "") (authorization req) in
  if Text.truthy fromHeader then fromHeader else cookie_token req.

(** [authenticate] either answers the request itself or calls [next()]
    with the admin attached to it. *)
Inductive AuthResult : Type :=
| Responded (res : Response)
| Next (admin : IAdmin.t).

Definition authenticate (req : AuthRequest) : M AuthResult :=
  try_catch
    (let token := request_token req in
     if negb (Text.truthy token)
     then ret (Responded (failure 401 "Access denied. No token provided."))
     else
       decoded_id <- jwt_verify (Category.or_default "" token) ;;
       admin <- Admin.findById_select decoded_id ;;
       match admin with
       | None =>
           ret (Responded (failure 401 "Invalid token. Admin not found."))
       | Some admin =>
           if negb (IAdmin.isActive admin)
           then ret (Responded
                       (failure 401
                          "Account is inactive. Please contact administrator."))
           else ret (Next admin)
       end)
    (fun _ =>
       logger_error "Authentication error:" ;;;
       ret (Responded (failure 401 "Invalid token."))).

End WithLibraries.

End Auth.

(** ** app.ts: the global error handler *)

Module App.
Import Store Http.

(** The fields of a thrown value that the handler reads. *)
Record ErrorObject := mkErrorObject {
  name : string;
  code : option N;
  statusCode : option nat;
  message : string;
  errors : list string;          (* the messages of [err.errors] *)
  keyValue : list string         (* the keys of [err.keyValue] *)
}.

Definition errorHandler (err : ErrorObject) : Response * list string :=
  let res :=
    if String.eqb (name err) "ValidationError"
    then failure 400 "Validation error"
    else if match code err with Some c => (c =? 11000)%N | None => false end
    then failure 400 (hd "undefined" (keyValue err) ++ " already exists")%string
    else if String.eqb (name err) "JsonWebTokenError"
    then failure 401 "Invalid token"
    else if String.eqb (name err) "TokenExpiredError"
    then failure 401 "Token expired"
    else failure
           (match statusCode err with
            | Some c => if (c =? 0)%nat then 500 else c
            | None => 500
            end)
           (if Text.is_empty (message err) then "Internal server error"
            else message err) in
  (res,
   if String.eqb (name err) "ValidationError" then errors err else []).

End App.

(** ** Vocabulary of the properties *)

Module Spec.
Import Store Http Models CategoryController ItemController.

(** The number that the counter maintainer is meant to store: the items
    whose category reference is [id] and whose status is ["active"]. *)
Definition active_items (id : ObjectId) (l : list IItem.t) : nat :=
  length
    (filter (fun i => oid_eqb (IItem.category i) id
                      && String.eqb (IItem.status i) "active") l).

(** The items that reference [id], whatever their status. *)
Definition referencing_items (id : ObjectId) (l : list IItem.t) : nat :=
  length (filter (fun i => oid_eqb (IItem.category i) id) l).

(** The answer of [deleteCategory] to a category that [n] items reference. *)
Definition conflict_message (n : nat) : string :=
  ("Cannot delete category. It has " ++ Text.show_nat n
   ++ " items. Please move or delete items first.")%string.

Definition conflict (n : nat) : Response := failure 400 (conflict_message n).

(** The run [r] ends in the world [w] with an answer that is no success
    and has the status [code] and the message [msg]. *)
Definition refused_with (code : nat) (msg : string) (w : World)
  (r : Outcome Response * World) : Prop :=
  exists res,
    r = (Done res, w)
    /\ Http.status res = code
    /\ Http.success res = false
    /\ Http.message res = Some msg.


(** The category [c'] is [c] but for its counter. *)
Definition same_but_itemCount (c' c : ICategory.t) : Prop :=
  ICategory._id c' = ICategory._id c
  /\ ICategory.name c' = ICategory.name c
  /\ ICategory.slug c' = ICategory.slug c
  /\ ICategory.description c' = ICategory.description c
  /\ ICategory.icon c' = ICategory.icon c
  /\ ICategory.gradient c' = ICategory.gradient c
  /\ ICategory.status c' = ICategory.status c
  /\ ICategory.sortOrder c' = ICategory.sortOrder c.

(** The category [d] is the stored [c] as the relaxed schema hands it
    out: the same on every path, with the default gradient where [c]
    has none. *)
Definition loaded_from (d c : ICategory.t) : Prop :=
  ICategory._id d = ICategory._id c
  /\ ICategory.name d = ICategory.name c
  /\ ICategory.slug d = ICategory.slug c
  /\ ICategory.description d = ICategory.description c
  /\ ICategory.icon d = ICategory.icon c
  /\ ICategory.gradient d
     = Some (match ICategory.gradient c with
             | Some g => g
             | None => "from-blue-500 to-purple-600"
             end)
  /\ ICategory.status d = ICategory.status c
  /\ ICategory.sortOrder d = ICategory.sortOrder c
  /\ ICategory.itemCount d = ICategory.itemCount c.

(** A small store: two categories, three items, one admin. *)
Definition movies_id : ObjectId :=
  Eval vm_compute in oid "65a1f0c2d3e4f5a6b7c8d901".
Definition games_id : ObjectId :=
  Eval vm_compute in oid "65a1f0c2d3e4f5a6b7c8d902".
Definition absent_id : ObjectId :=
  Eval vm_compute in oid "65a1f0c2d3e4f5a6b7c8d909".
Definition alien_id : ObjectId :=
  Eval vm_compute in oid "65a1f0c2d3e4f5a6b7c8da01".
Definition brazil_id : ObjectId :=
  Eval vm_compute in oid "65a1f0c2d3e4f5a6b7c8da02".
Definition doom_id : ObjectId :=
  Eval vm_compute in oid "65a1f0c2d3e4f5a6b7c8da03".
Definition root_id : ObjectId :=
  Eval vm_compute in oid "65a1f0c2d3e4f5a6b7c8db01".

(** The id of [movies] as a request may spell it, and a string that is
    no id. *)
Definition movies_id_in_capitals : string := "65A1F0C2D3E4F5A6B7C8D901".
Definition not_an_id : string := "movies".
Definition movies : ICategory.t :=
  ICategory.mk movies_id "Movies" "movies" "Discover blockbuster hits" None None
    "active" 1 0.
Definition games : ICategory.t :=
  ICategory.mk games_id "Games" "games" "Gaming content and reviews" None None
    "inactive" 4 0.
Definition alien : IItem.t :=
  IItem.mk alien_id (Some "Alien") (Some "alien") (Some "In space") movies_id
    "active" [] None.
Definition brazil : IItem.t :=
  IItem.mk brazil_id (Some "Brazil") (Some "brazil") (Some "Paperwork")
    movies_id "draft" [] None.
Definition doom : IItem.t :=
  IItem.mk doom_id (Some "Doom") (Some "doom") (Some "Hell on Mars") games_id
    "inactive" [] None.
Definition root : IAdmin.t :=
  IAdmin.mk root_id "root" "root@example.com" "hash-of-secret" "super_admin"
    true None.
Definition small_world : World :=
  mkWorld [movies; games] [alien; brazil; doom] [root] [] 1000 7 [].

(** Whether the [category] field of a request is the id of a stored
    category: whether it has the digits of one, capitals or not. *)
Definition identifies_category (c : option string) (w : World) : bool :=
  match c with
  | Some s =>
      match castObjectId s with
      | Some id => is_some (find (Category.by_id id) (categories w))
      | None => false
      end
  | None => false
  end.

(** Whether the [category] field of a request can be read as an id: it
    is absent, or has 24 hexadecimal digits. *)
Definition readable_category (c : option string) : bool :=
  match c with
  | Some s => is_some (castObjectId s)
  | None => true
  end.

(** The message of the relaxed [createItem] for a request whose category
    is not stored: that of the first guard the request does not pass. *)
Definition relaxed_rejection (body : Body) : string :=
  if negb (Text.truthy (category body)) then "Category is required."
  else match check_characters (characters body) with
       | TooLong => "Character description must be 300 characters or less."
       | _ =>
           if negb (Text.truthy (slug_or_derived body))
           then "Title is required to generate slug"
           else "Category not found"
       end.

(** A request that only names a category, which [small_world] does not
    hold. *)
Definition untitled : Body :=
  mkBody None None None (Some (toString absent_id)) None None.

(** A request with a title and an unknown category whose [characters]
    hold a [null], and one whose category is no id. *)
Definition with_null_character : Body :=
  mkBody (Some "Heat") None None (Some (toString absent_id)) None
    (Some [None]).

Definition with_unreadable_category : Body :=
  mkBody (Some "Heat") None None (Some not_an_id) None None.

(** Two worlds that differ at most in the stored counters and in the log. *)
Definition same_but_counters (w1 w2 : World) : Prop :=
  items w1 = items w2
  /\ admins w1 = admins w2
  /\ faults w1 = faults w2
  /\ now w1 = now w2
  /\ next_oid w1 = next_oid w2
  /\ map (ICategory.set_itemCount 0) (categories w1)
     = map (ICategory.set_itemCount 0) (categories w2).

(** Two computations that, from such worlds, end the same way in such
    worlds. *)
Definition related {A} (m1 m2 : M A) : Prop :=
  forall w1 w2, same_but_counters w1 w2 ->
    outcome (m1 w1) = outcome (m2 w2)
    /\ same_but_counters (world (m1 w1)) (world (m2 w2)).

(** The slugs that the uniqueness loop tries, in order: the base, then
    the base with [-1], [-2], ... *)
Definition candidate (base : string) (k : nat) : string :=
  match k with
  | O => base
  | S _ => (base ++ "-" ++ Text.show_nat k)%string
  end.

(** The schema validators of a category on the paths other than the slug. *)
Definition accepted_besides_slug (body : Category.Fields) : bool :=
  let f := Category.cast body in
  required (Category.name f)
  && maxlength 50 (Category.name f)
  && required (Category.description f)
  && maxlength 500 (Category.description f)
  && match Category.status f with
     | Some s => one_of ["active"; "inactive"] s
     | None => true
     end.

Definition with_slug (body : Category.Fields) (s : string) : Category.Fields :=
  Category.mkFields (Category.name body) (Some s) (Category.description body)
    (Category.icon body) (Category.gradient body) (Category.status body)
    (Category.sortOrder body).

Definition created (d : Payload) : Response :=
  ok 201 (Some "Category created successfully") d.

(** A request to create a category from a name alone. *)
Definition science_fiction : Category.Fields :=
  Category.mkFields (Some "Science  Fiction!") None
    (Some "Futures and other worlds") None None None None.

(** Stand-ins for the two libraries. *)
Definition toy_bcrypt : Bcrypt :=
  Build_Bcrypt (fun password hash => String.eqb ("hash-of-" ++ password) hash).

Definition toy_jwt : Jwt :=
  Build_Jwt (fun id => ("signed:" ++ toString id)%string)
    (fun token =>
       if String.eqb token "expired" then Expired
       else if String.prefix "signed:" token
       then match castObjectId
                    (String.substring 7 (String.length token - 7) token) with
            | Some id => Payload_id id
            | None => Malformed
            end
       else Malformed).

(** The answer to a list request for page 2 of 25 matches, 10 a page. *)
Definition second_page_of_three : Pagination :=
  mkPagination 2 3 25 10 true true.

(** The same, field by field. *)
Definition is_second_page_of_three (p : Pagination) : Prop :=
  Http.current p = 2
  /\ Http.pages p = 3
  /\ Http.total p = 25
  /\ Http.limit p = 10
  /\ Http.hasNext p = true
  /\ Http.hasPrev p = true.

(** The records at positions 11 to 20 of a sorted result. *)
Definition positions_11_to_20 {D} (sorted : list D) : list D :=
  firstn 10 (skipn 10 sorted).

(** A query engine that keeps the natural order and whose text search
    matches everything. *)
Definition plain_engine : QueryEngine :=
  Build_QueryEngine
    (fun _ _ => true) (fun _ _ => true)
    (fun _ _ l => l) (fun _ _ l => l)
    (fun _ _ => false)
    (fun _ _ l => Permutation_refl l)
    (fun _ _ l => Permutation_refl l).

(** A store of 25 categories and 25 items, numbered 1 to 25. *)
Definition numbered_category (n : nat) : ICategory.t :=
  ICategory.mk (numbered_ObjectId n) "Shelf" (Text.show_nat n) "A shelf" None
    None "active" 0 0.
Definition numbered_item (n : nat) : IItem.t :=
  IItem.mk (numbered_ObjectId n) (Some "Volume") (Some (Text.show_nat n)) None
    movies_id "active" [] None.
Definition library : World :=
  mkWorld (map numbered_category (seq 1 25)) (map numbered_item (seq 1 25))
    [] [] 0 0 [].

Definition page_two : ListQuery :=
  mkListQuery (Some 2%positive) (Some 10%positive) None None None None None
    None.

(** A request to create an active item in [movies] from a title. *)
Definition heat : Body :=
  mkBody (Some "Heat") None (Some "Cops and robbers")
    (Some (toString movies_id)) (Some "active") None.

Definition item_slug (r : Outcome Response * World) : option string :=
  match outcome r with
  | Done res =>
      match data res with
      | ItemData p => IItem.slug (doc p)
      | _ => None
      end
  | _ => None
  end.

Definition counters (w : World) : list nat :=
  map ICategory.itemCount (categories w).

End Spec.

(** * The rest of the code

    The handlers, middleware and helpers that stand beside the ones
    above in the same files. *)

(** ** middleware/auth: [authorize] and [optionalAuth] *)

Module Middleware.
Import Store Http Models CategoryController Auth.

(** [authorize(...roles)], applied to [req.admin]. *)
Definition authorize (roles : list string) (admin : option IAdmin.t)
  : AuthResult :=
  match admin with
  | None =>
      Responded (failure 401 "Access denied. Authentication required.")
  | Some a =>
      if negb (existsb (String.eqb (IAdmin.role a)) roles)
      then Responded (failure 403 "Access denied. Insufficient permissions.")
      else Next a
  end.

Section WithJwt.
Context `{Jwt}.

(** [optionalAuth]: the result is what it leaves in [req.admin] when it
    calls [next()]. *)
Definition optionalAuth (req : AuthRequest) : M (option IAdmin.t) :=
  try_catch
    (let token := request_token req in
     if Text.truthy token
     then
       decoded_id <- jwt_verify (Category.or_default "" token) ;;
       admin <- Admin.findById_select decoded_id ;;
       match admin with
       | Some a => if IAdmin.isActive a then ret (Some a) else ret None
       | None => ret None
       end
     else ret None)
    (fun _ => ret None).

(** A route guarded by [authenticate, authorize(...roles)], as
    [router.post("/register", authenticate, authorize("super_admin"), ...)]. *)
Definition guarded (roles : list string) (req : AuthRequest) : M AuthResult :=
  r <- authenticate req ;;
  match r with
  | Responded res => ret (Responded res)
  | Next a => ret (authorize roles (Some a))
  end.

End WithJwt.

End Middleware.

(** ** controllers/categoryController, continued *)

Module CategoryMore.
Import Store Http Models CategoryController.

(** What a schema makes of a stored category that a query loads: the
    relaxed schema fills in its default gradient ([Category.loaded]), the
    typed one has no default for a path that can be lacking. *)
Definition Loader := ICategory.t -> ICategory.t.

Definition as_stored : Loader := fun c => c.

Definition getCategory_with (load : Loader) (id : string) : M Response :=
  try_catch
    (category <- casting id Category.findById ;;
     match category with
     | None => ret (failure 404 "Category not found")
     | Some c => ret (ok 200 None (CategoryData (load c)))
     end)
    (internal_error "Get category error:").

(** [getCategory] of the relaxed controller, and of the typed one. *)
Definition getCategory : string -> M Response :=
  getCategory_with Category.loaded.

Definition getCategory_typed : string -> M Response :=
  getCategory_with as_stored.

(** [{ slug }] with the slug of a request body: an absent slug matches
    no category, as every stored category has one. *)
Definition by_body_slug (s : option string) (c : ICategory.t) : bool :=
  match s with
  | Some s => Category.by_slug s c
  | None => false
  end.

(** [{ slug, _id: { $ne: id } }] where a query gives it: the id is
    cast, and so is the slug. *)
Definition by_slug_not_id (s : string) (id : ObjectId) (c : ICategory.t)
  : bool :=
  Category.by_slug s c && negb (Category.by_id id c).

(** The typed model (the second unnamed part) has the validators of the
    relaxed one, no default gradient and no hook. *)
Definition typed_document (id : ObjectId) (f : Category.Fields)
  : ICategory.t :=
  ICategory.mk id
    (Category.or_default "" (Category.name f))
    (Category.or_default "" (Category.slug f))
    (Category.or_default "" (Category.description f))
    (Category.icon f)
    (Category.gradient f)
    (Category.or_default "active" (Category.status f))
    (match Category.sortOrder f with Some z => z | None => 0%Z end)
    0.

Definition create_typed (fields : Category.Fields) : M ICategory.t :=
  id <- new_ObjectId ;;
  await (fun w =>
    let f := Category.cast fields in
    match Category.validate f with
    | (_ :: _) as errors => (Thrown (ValidationError errors), w)
    | [] =>
        let c := typed_document id f in
        if existsb (Category.has_slug (ICategory.slug c)) (categories w)
        then (Thrown (DuplicateKey "slug"), w)
        else (Done c, set_categories (categories w ++ [c]) w)
    end).

(** [createCategory] of the typed controller (categoryController.ts):
    the slug comes from the request as it is. *)
Definition createCategory_typed (body : Category.Fields) : M Response :=
  try_catch
    (existingCategory <- Category.findOne (by_body_slug (Category.slug body)) ;;
     if is_some existingCategory
     then ret (failure 400 "Category with this slug already exists")
     else
       category <- create_typed body ;;
       ret (ok 201 (Some "Category created successfully")
              (CategoryData category)))
    (internal_error "Create category error:").

(** [runValidators: true] on an update: the validators of the paths that
    the update sets. *)
Definition provided (o : option string) : bool :=
  match o with Some s => negb (Text.is_empty s) | None => true end.

Definition validate_update (f : Category.Fields) : list string :=
  (if provided (Category.name f) then [] else ["Category name is required"])
  ++ (if maxlength 50 (Category.name f) then []
      else ["Category name cannot exceed 50 characters"])
  ++ (if provided (Category.slug f) then [] else ["Category slug is required"])
  ++ (if match_slug (Category.slug f) then []
      else ["Slug can only contain lowercase letters, numbers, and hyphens"])
  ++ (if provided (Category.description f) then []
      else ["Category description is required"])
  ++ (if maxlength 500 (Category.description f) then []
      else ["Description cannot exceed 500 characters"])
  ++ (match Category.status f with
      | Some s => if one_of ["active"; "inactive"] s then []
                  else [invalid_enum s]
      | None => []
      end).

Definition or_keep (new : option string) (old : string) : string :=
  match new with Some s => s | None => old end.

Definition or_keep_option (new old : option string) : option string :=
  match new with Some s => Some s | None => old end.

(** The document after [$set]: an [undefined] entry of the update leaves
    its path as it is; [_id] and [itemCount] are not part of it. *)
Definition apply_update (u : Category.Fields) (c : ICategory.t) : ICategory.t :=
  ICategory.mk (ICategory._id c)
    (or_keep (Category.name u) (ICategory.name c))
    (or_keep (Category.slug u) (ICategory.slug c))
    (or_keep (Category.description u) (ICategory.description c))
    (or_keep_option (Category.icon u) (ICategory.icon c))
    (or_keep_option (Category.gradient u) (ICategory.gradient c))
    (or_keep (Category.status u) (ICategory.status c))
    (match Category.sortOrder u with
     | Some z => z
     | None => ICategory.sortOrder c
     end)
    (ICategory.itemCount c).

(** Another stored category has the slug: what the unique index on
    [slug] refuses. *)
Definition slug_of_another (s : string) (id : ObjectId) (c : ICategory.t)
  : bool :=
  Category.has_slug s c && negb (Category.by_id id c).

(** [Category.findByIdAndUpdate(id, update, { new: true,
    runValidators: true })]: the answer is the document after the
    update, as the schema loads it. *)
Definition findByIdAndUpdate (load : Loader) (id : ObjectId)
  (update : Category.Fields) : M (option ICategory.t) :=
  await (fun w =>
    let u := Category.cast update in
    match validate_update u with
    | (_ :: _) as errors => (Thrown (ValidationError errors), w)
    | [] =>
        match find (Category.by_id id) (categories w) with
        | None => (Done None, w)
        | Some c =>
            if match Category.slug u with
               | Some s => existsb (slug_of_another s id) (categories w)
               | None => false
               end
            then (Thrown (DuplicateKey "slug"), w)
            else
              (Done (Some (load (apply_update u c))),
               set_categories
                 (update_first (Category.by_id id) (apply_update u)
                    (categories w)) w)
        end
    end).

(** The part that the two [updateCategory] handlers share, from the slug
    they settle on. *)
Definition update_with_slug (load : Loader) (id : string)
  (body : Category.Fields) (categorySlug : option string) : M Response :=
  taken <-
    (if Text.truthy categorySlug
     then
       existingCategory <-
         casting id (fun id =>
           Category.findOne
             (by_slug_not_id (Category.or_default "" categorySlug) id)) ;;
       ret (is_some existingCategory)
     else ret false) ;;
  if (taken : bool)
  then ret (failure 400 "Category with this slug already exists")
  else
    category <- casting id (fun id =>
                  findByIdAndUpdate load id
                    (Category.mkFields (Category.name body) categorySlug
                       (Category.description body) (Category.icon body)
                       (Category.gradient body) (Category.status body)
                       (Category.sortOrder body))) ;;
    match category with
    | None => ret (failure 404 "Category not found")
    | Some c =>
        ret (ok 200 (Some "Category updated successfully") (CategoryData c))
    end.

(** [updateCategory] of the relaxed controller: the slug is derived from
    the name when the request has none. *)
Definition updateCategory (id : string) (body : Category.Fields)
  : M Response :=
  try_catch
    (let categorySlug :=
       if negb (Text.truthy (Category.slug body))
          && Text.truthy (Category.name body)
       then option_map_string Text.slugify (Category.name body)
       else Category.slug body in
     update_with_slug Category.loaded id body categorySlug)
    (internal_error "Update category error:").

(** [updateCategory] of the typed controller. *)
Definition updateCategory_typed (id : string) (body : Category.Fields)
  : M Response :=
  try_catch
    (update_with_slug as_stored id body (Category.slug body))
    (internal_error "Update category error:").

(** One document of [getCategoryStats]. *)
Record CategoryStat := mkCategoryStat {
  stat_id : ObjectId;
  stat_name : string;
  stat_slug : string;
  stat_status : string;
  totalItems : nat;
  activeItems : nat;
  draftItems : nat
}.

(** [$lookup] of the items whose [category] is the [_id], then
    [$project] with the three [$size]s. *)
Definition stat_of (its : list IItem.t) (c : ICategory.t) : CategoryStat :=
  let joined := filter (Item.in_category (ICategory._id c)) its in
  mkCategoryStat (ICategory._id c) (ICategory.name c) (ICategory.slug c)
    (ICategory.status c)
    (length joined)
    (length (filter (fun i => String.eqb (IItem.status i) "active") joined))
    (length (filter (fun i => String.eqb (IItem.status i) "draft") joined)).

Section WithEngine.
Context `{QueryEngine}.

(** [Category.aggregate([$lookup, $project, { $sort: { name: 1 } }])] *)
Definition aggregate_stats : M (list CategoryStat) :=
  await (fun w =>
    (Done (map (stat_of (items w))
             (sort_categories "name" true (categories w))), w)).

(** The response carries the statistics under [data.stats]; they are
    returned beside it. *)
Definition getCategoryStats : M (Response * list CategoryStat) :=
  try_catch
    (stats <- aggregate_stats ;;
     ret (ok 200 None NoData, stats))
    (fun _ =>
       logger_error "Get category stats error:" ;;;
       ret (failure 500 "Internal server error", [])).

End WithEngine.

End CategoryMore.

(** ** The pre-save hooks of the relaxed models *)

Module PreSave.
Import Text.

(** [.replace(/[^a-z0-9]/g, "-")] *)
Definition hyphenate (c : ascii) : ascii :=
  if is_lower c || is_digit c then c else "-"%char.

(** The chain of [CategorySchema.pre("save")] and
    [ItemSchema.pre("save")]:
    [x.toLowerCase().replace(/[^a-z0-9]/g, "-").replace(/-+/g, "-")
      .replace(/^-|-$/g, "")]. *)
Definition hook_slug (s : string) : string :=
  strip_edge_hyphens (squeeze_hyphens (map_chars hyphenate (toLowerCase s))).

(** [if (!this.slug && this.name) { this.slug = ... }]: the slug of the
    document after the hook. *)
Definition pre_save (slug name : option string) : option string :=
  if negb (truthy slug) && truthy name
  then Models.option_map_string hook_slug name
  else slug.

End PreSave.

(** ** config/cloudinary: [extractPublicId] *)

Module Cloudinary.

(** [s.includes(needle)] *)
Fixpoint includes (needle s : string) : bool :=
  String.prefix needle s
  || match s with
     | EmptyString => false
     | String _ r => includes needle r
     end.

Fixpoint drop (n : nat) (s : string) : string :=
  match n, s with
  | O, _ => s
  | S n', String _ r => drop n' r
  | S _, EmptyString => EmptyString
  end.

(** The longest run of characters other than the dot: [[^.]+] is greedy
    and ends the pattern. *)
Fixpoint until_dot (s : string) : string :=
  match s with
  | EmptyString => EmptyString
  | String c r => if Ascii.eqb c "." then EmptyString
                  else String c (until_dot r)
  end.

Definition folder : string := "/doingSomething/items/".

(** [url.match(/\/doingSomething\/items\/([^.]+)/)]: the capture of the
    leftmost match. *)
Fixpoint match_items (s : string) : option string :=
  let here :=
    if String.prefix folder s
    then
      let captured := until_dot (drop (String.length folder) s) in
      if Text.is_empty captured then None else Some captured
    else None in
  match here with
  | Some captured => Some captured
  | None =>
      match s with
      | EmptyString => None
      | String _ r => match_items r
      end
  end.

(** [url] is [None] for a missing url. *)
Definition extractPublicId (url : option string) : option string :=
  match url with
  | None => None
  | Some u =>
      if Text.is_empty u || negb (includes "cloudinary.com" u) then None
      else
        match match_items u with
        | Some captured => Some ("doingSomething/items/" ++ captured)%string
        | None => None
        end
  end.

End Cloudinary.

(** ** Regular expressions of the schemas *)

Module Regex.

(** Regular expressions over character classes, matched by derivatives. *)
Inductive t : Type :=
| Void
| Eps
| Chars (p : ascii -> bool)
| Seq (r1 r2 : t)
| Alt (r1 r2 : t)
| Star (r : t).

Fixpoint nullable (r : t) : bool :=
  match r with
  | Void => false
  | Eps => true
  | Chars _ => false
  | Seq r1 r2 => nullable r1 && nullable r2
  | Alt r1 r2 => nullable r1 || nullable r2
  | Star _ => true
  end.

Fixpoint derive (c : ascii) (r : t) : t :=
  match r with
  | Void => Void
  | Eps => Void
  | Chars p => if p c then Eps else Void
  | Seq r1 r2 =>
      if nullable r1
      then Alt (Seq (derive c r1) r2) (derive c r2)
      else Seq (derive c r1) r2
  | Alt r1 r2 => Alt (derive c r1) (derive c r2)
  | Star r1 => Seq (derive c r1) (Star r1)
  end.

(** [/^r$/.test(s)] *)
Fixpoint test (r : t) (s : string) : bool :=
  match s with
  | EmptyString => nullable r
  | String c s' => test (derive c r) s'
  end.

Definition plus (r : t) : t := Seq r (Star r).
Definition opt (r : t) : t := Alt Eps r.

(** The strings of an expression. *)
Inductive matches : t -> string -> Prop :=
| matches_eps : matches Eps ""
| matches_chars p c : p c = true -> matches (Chars p) (String c "")
| matches_seq r1 r2 s1 s2 :
    matches r1 s1 -> matches r2 s2 -> matches (Seq r1 r2) (s1 ++ s2)
| matches_alt_l r1 r2 s : matches r1 s -> matches (Alt r1 r2) s
| matches_alt_r r1 r2 s : matches r2 s -> matches (Alt r1 r2) s
| matches_star_nil r : matches (Star r) ""
| matches_star_cons r s1 s2 :
    matches r s1 -> matches (Star r) s2 -> matches (Star r) (s1 ++ s2).

(** [\w] *)
Definition word_char (c : ascii) : bool :=
  Text.is_lower c || Text.in_range 65 90 c || Text.is_digit c
  || (Text.code c =? 95)%N.

Definition dot (c : ascii) : bool := (Text.code c =? 46)%N.
Definition at_sign (c : ascii) : bool := (Text.code c =? 64)%N.
Definition dot_or_hyphen (c : ascii) : bool := dot c || Text.is_hyphen c.

(** [/^\w+([.-]?\w+)*@\w+([.-]?\w+)*(\.\w{2,3})+$/], the [match] of the
    admin's email. *)
Definition email : t :=
  let words := plus (Chars word_char) in
  let dotted := Seq words (Star (Seq (opt (Chars dot_or_hyphen)) words)) in
  Seq dotted
    (Seq (Chars at_sign)
       (Seq dotted
          (plus (Seq (Chars dot)
                   (Seq (Chars word_char)
                      (Seq (Chars word_char) (opt (Chars word_char)))))))).

End Regex.

(** ** The admin model and controllers/authController, continued *)

Module Account.
Import Store Http Models CategoryController Auth.

(** The argument of [new Admin({...})]. *)
Record Fields := mkFields {
  username : option string;
  email : option string;
  password : option string;
  role : option string
}.

Definition cast (f : Fields) : Fields :=
  mkFields
    (option_map_string Text.trim (username f))
    (option_map_string (fun s => Text.toLowerCase (Text.trim s)) (email f))
    (password f)
    (role f).

(** [minlength: n] passes on an absent value. *)
Definition minlength (n : nat) (o : option string) : bool :=
  match o with Some s => (n <=? String.length s)%nat | None => true end.

Definition match_email (o : option string) : bool :=
  match o with
  | Some s => Text.is_empty s || Regex.test Regex.email s
  | None => true
  end.

Definition validate (f : Fields) : list string :=
  (if required (username f) then [] else ["Username is required"])
  ++ (if minlength 3 (username f) then []
      else ["Username must be at least 3 characters long"])
  ++ (if maxlength 30 (username f) then []
      else ["Username cannot exceed 30 characters"])
  ++ (if required (email f) then [] else ["Email is required"])
  ++ (if match_email (email f) then [] else ["Please enter a valid email"])
  ++ (if required (password f) then [] else ["Password is required"])
  ++ (if minlength 6 (password f) then []
      else ["Password must be at least 6 characters long"])
  ++ (match role f with
      | Some r => if one_of ["admin"; "super_admin"] r then []
                  else [("`" ++ r
                         ++ "` is not a valid enum value for path `role`.")%string]
      | None => []
      end).

(** [bcrypt.hash(password, salt)], with what makes it a password hash:
    [bcrypt.compare] accepts the password it was made from. *)
Class BcryptHash `{Bcrypt} := {
  bcrypt_hash : string -> string -> string;
  bcrypt_hash_compare :
    forall salt password,
      bcrypt_compare password (bcrypt_hash salt password) = true
}.

(** An absent field of the query matches no admin. *)
Definition field_is (o : option string) (q : string -> IAdmin.t -> bool)
  (a : IAdmin.t) : bool :=
  match o with Some s => q s a | None => false end.

(** [{ $or: [{ email }, { username }] }], each branch being cast by the
    setters of its path. *)
Definition email_or_username (e u : option string) (a : IAdmin.t) : bool :=
  field_is e Admin.by_email a || field_is u Admin.by_username a.

Definition summary (a : IAdmin.t) : AdminSummary :=
  mkAdminSummary (IAdmin._id a) (IAdmin.username a) (IAdmin.email a)
    (IAdmin.role a) None.

Section WithLibraries.
Context `{BcryptHash}.

(** [const admin = new Admin(fields); await admin.save()]: validation,
    the pre-save hook that replaces the password by its hash under the
    salt that [bcrypt.genSalt] drew, then the insert, which the unique
    indexes on [email] and [username] can refuse. *)
Definition create (salt : string) (fields : Fields) : M IAdmin.t :=
  id <- new_ObjectId ;;
  await (fun w =>
    let f := cast fields in
    match validate f with
    | (_ :: _) as errors => (Thrown (ValidationError errors), w)
    | [] =>
        let a :=
          IAdmin.mk id
            (Category.or_default "" (username f))
            (Category.or_default "" (email f))
            (bcrypt_hash salt (Category.or_default "" (password f)))
            (Category.or_default "admin" (role f))
            true None in
        if existsb (fun b => String.eqb (IAdmin.email b) (IAdmin.email a))
             (admins w)
        then (Thrown (DuplicateKey "email"), w)
        else if existsb
                  (fun b => String.eqb (IAdmin.username b) (IAdmin.username a))
                  (admins w)
        then (Thrown (DuplicateKey "username"), w)
        else (Done a, set_admins (admins w ++ [a]) w)
    end).

(** [register]; the summary of the new admin is returned beside the
    response that carries it under [data.admin]. *)
Definition register (salt : string) (body : Fields)
  : M (Response * option AdminSummary) :=
  try_catch
    (existingAdmin <- Admin.findOne
                        (email_or_username (email body) (username body)) ;;
     if is_some existingAdmin
     then ret (failure 400 "Admin with this email or username already exists",
               None)
     else
       admin <- create salt
                  (mkFields (username body) (email body) (password body)
                     (match role body with
                      | Some r => Some r
                      | None => Some "admin"
                      end)) ;;
       ret (ok 201 (Some "Admin created successfully") NoData,
            Some (summary admin)))
    (fun _ =>
       logger_error "Registration error:" ;;;
       ret (failure 500 "Internal server error", None)).

(** [admin.comparePassword(candidate)] on the document in [req.admin].
    A document loaded with [select("-password")] has no password, and
    [bcrypt.compare] rejects a hash that is not a string. *)
Definition comparePassword_loaded (a : IAdmin.t) (candidate : string)
  : M bool :=
  if Text.is_empty (IAdmin.password a) then throw TypeError
  else ret (bcrypt_compare candidate (IAdmin.password a)).

Definition set_password (h : string) (a : IAdmin.t) : IAdmin.t :=
  IAdmin.mk (IAdmin._id a) (IAdmin.username a) (IAdmin.email a) h
    (IAdmin.role a) (IAdmin.isActive a) (IAdmin.lastLogin a).

(** [admin.password = newPassword; await admin.save()]: the modified
    path is validated, hashed by the pre-save hook and written. *)
Definition save_password (salt : string) (id : ObjectId)
  (newPassword : string) : M unit :=
  await (fun w =>
    if Text.is_empty newPassword
    then (Thrown (ValidationError ["Password is required"]), w)
    else if negb (6 <=? String.length newPassword)%nat
    then (Thrown (ValidationError
                    ["Password must be at least 6 characters long"]), w)
    else
      (Done tt,
       set_admins
         (update_first (Admin.by_id id)
            (set_password (bcrypt_hash salt newPassword)) (admins w)) w)).

Definition changePassword (salt : string) (admin : option IAdmin.t)
  (currentPassword newPassword : string) : M Response :=
  try_catch
    (match admin with
     | None => ret (failure 401 "Admin not found")
     | Some admin =>
         isCurrentPasswordValid <-
           comparePassword_loaded admin currentPassword ;;
         if negb isCurrentPasswordValid
         then ret (failure 400 "Current password is incorrect")
         else
           save_password salt (IAdmin._id admin) newPassword ;;;
           ret (ok 200 (Some "Password changed successfully") NoData)
     end)
    (internal_error "Change password error:").

End WithLibraries.

End Account.

(** ** The initialization script (the first unnamed part) *)

Module Seed.
Import Store Http Models CategoryController CategoryMore Account.

(** [process.env.ADMIN_EMAIL], [ADMIN_PASSWORD] and [ADMIN_USERNAME]. *)
Record Env := mkEnv {
  ADMIN_EMAIL : option string;
  ADMIN_PASSWORD : option string;
  ADMIN_USERNAME : option string
}.

(** [process.env.X || fallback] *)
Definition env_or (v : option string) (fallback : string) : string :=
  if Text.truthy v then Category.or_default "" v else fallback.

Definition adminEmail (env : Env) : string :=
  env_or (ADMIN_EMAIL env) "admin@entertainmenthub.com".
Definition adminPassword (env : Env) : string :=
  env_or (ADMIN_PASSWORD env) "admin123".
Definition adminUsername (env : Env) : string :=
  env_or (ADMIN_USERNAME env) "admin".

Definition defaultCategories : list Category.Fields :=
  [Category.mkFields (Some "Movies") (Some "movies")
     (Some "Discover blockbuster hits and indie gems") (Some "🎬")
     (Some "from-red-500 to-pink-600") (Some "active") (Some 1%Z);
   Category.mkFields (Some "TV Series") (Some "series")
     (Some "Binge-worthy shows and limited series") (Some "📺")
     (Some "from-blue-500 to-purple-600") (Some "active") (Some 2%Z);
   Category.mkFields (Some "Anime") (Some "anime")
     (Some "Japanese animation and manga adaptations") (Some "🗾")
     (Some "from-green-500 to-teal-600") (Some "active") (Some 3%Z);
   Category.mkFields (Some "Games") (Some "games")
     (Some "Gaming content and reviews") (Some "🎮")
     (Some "from-orange-500 to-red-600") (Some "active") (Some 4%Z)].

(** One turn of [for (const categoryData of defaultCategories)]. *)
Definition seed_category (categoryData : Category.Fields) : M unit :=
  existingCategory <-
    Category.findOne (by_body_slug (Category.slug categoryData)) ;;
  if is_some existingCategory then ret tt
  else
    _ <- create_typed categoryData ;;
    ret tt.

Fixpoint seed_categories (l : list Category.Fields) : M unit :=
  match l with
  | [] => ret tt
  | categoryData :: r => seed_category categoryData ;;; seed_categories r
  end.

Section WithLibraries.
Context `{BcryptHash}.

Definition seed_admin (salt : string) (env : Env) : M unit :=
  existingAdmin <- Admin.findOne (Admin.by_email (adminEmail env)) ;;
  if is_some existingAdmin then ret tt
  else
    _ <- Account.create salt
           (Account.mkFields (Some (adminUsername env))
              (Some (adminEmail env)) (Some (adminPassword env))
              (Some "super_admin")) ;;
    ret tt.

(** [initializeDatabase], up to the exit code that it hands to
    [process.exit]; [mongoose.connect] is one awaited call, and what
    [logger.info] writes is not kept. *)
Definition initializeDatabase (salt : string) (env : Env) : M nat :=
  try_catch
    (await (ret tt) ;;;
     seed_admin salt env ;;;
     seed_categories defaultCategories ;;;
     ret 0)
    (fun _ =>
       logger_error "Database initialization failed:" ;;;
       ret 1).

End WithLibraries.

End Seed.

(** ** Vocabulary of the further properties *)

Module Invariants.
Import Store Http Models CategoryController ItemController Spec.


(** No two categories share a slug, or an identifier. *)
Definition unique_slugs (w : World) : Prop :=
  NoDup (map ICategory.slug (categories w)).

Definition unique_ids (w : World) : Prop :=
  NoDup (map ICategory._id (categories w)).

(** Every stored slug is of the form [[a-z0-9-]+]. *)
Definition slugs_match (w : World) : Prop :=
  Forall (fun c => Text.matches_slug_pattern (ICategory.slug c) = true)
    (categories w).

Definition slugs_ok (w : World) : Prop :=
  unique_slugs w /\ slugs_match w.

Definition taxonomy_ok (w : World) : Prop :=
  unique_ids w /\ unique_slugs w /\ slugs_match w.

(** The identifier and the counter of every category, in store order. *)
Definition ids_and_counters (w : World) : list (ObjectId * nat) :=
  map (fun c => (ICategory._id c, ICategory.itemCount c)) (categories w).

(** Every category carries the number of its active items. *)
Definition counters_right (w : World) : Prop :=
  forall c, In c (categories w) ->
    ICategory.itemCount c = active_items (ICategory._id c) (items w).

(** [m] keeps [I]: whatever the outcome, a world with [I] is left with
    [I]. *)
Definition keeps {A} (I : World -> Prop) (m : M A) : Prop :=
  forall w, I w -> I (world (m w)).

(** [I] speaks of the three collections only. *)
Definition about_store (I : World -> Prop) : Prop :=
  forall w w',
    categories w = categories w' -> items w = items w' ->
    admins w = admins w' -> I w -> I w'.

(** Every category whose identifier is not in [pending] carries the
    number of its active items. *)
Definition right_but (pending : list ObjectId) (w : World) : Prop :=
  forall c, In c (categories w) -> ~ In (ICategory._id c) pending ->
    ICategory.itemCount c = active_items (ICategory._id c) (items w).

(** A world whose pending store calls are all answered, with distinct
    category identifiers and right counters but for [pending]. *)
Definition settled (pending : list ObjectId) (w : World) : Prop :=
  faults w = [] /\ unique_ids w /\ right_but pending w.

(** From a world with [P], [m] returns [a] in a world with [Q a], or
    ends otherwise in a world with [E]. *)
Definition hoare {A} (P : World -> Prop) (m : M A)
  (Q : A -> World -> Prop) (E : World -> Prop) : Prop :=
  forall w, P w ->
    match m w with
    | (Done a, w') => Q a w'
    | (_, w') => E w'
    end.

(** [w'] holds the categories and admins of [w], in order, and
    possibly more behind them; or exactly those. *)
Definition extends (w' w : World) : Prop :=
  (exists cs, categories w' = categories w ++ cs)
  /\ (exists ads, admins w' = admins w ++ ads).

Definition same_store (w' w : World) : Prop :=
  categories w' = categories w /\ admins w' = admins w.

(** In a world whose store calls are answered, [m] only adds categories
    and admins, and leaves the store calls answered. *)
Definition grows {A} (m : M A) : Prop :=
  forall w, faults w = [] ->
    faults (world (m w)) = []
    /\ extends (world (m w)) w
    /\ outcome (m w) <> OutOfFuel.

(** Run where a run of [m] has been, and more may have been added, [m]
    adds nothing; and it throws again where it threw. *)
Definition repeats {A} (m : M A) : Prop :=
  forall w w', faults w = [] -> faults w' = [] ->
    extends w' (world (m w)) ->
    same_store (world (m w')) w'
    /\ (forall e, outcome (m w) = Thrown e ->
         same_store w' (world (m w)) ->
         exists e', outcome (m w') = Thrown e').

(** A second run of [m] adds nothing. *)
Definition idem {A} (m : M A) : Prop :=
  forall w w', faults w = [] -> faults w' = [] ->
    same_store w' (world (m w)) ->
    same_store (world (m w')) w'.

(** The small store with its counters set right. *)
Definition counted_world : World :=
  set_categories [ICategory.set_itemCount 1 movies; games] small_world.

(** No two admins share an email, or a user name. *)
Definition unique_admins (w : World) : Prop :=
  NoDup (map IAdmin.email (admins w))
  /\ NoDup (map IAdmin.username (admins w)).

End Invariants.

(** ** Stand-ins and requests of the examples *)

Module Examples.
Import Store Http Models Account Spec.

(** A stand-in for [bcrypt.hash] that goes with [toy_bcrypt]. *)
Definition toy_hash : @BcryptHash toy_bcrypt :=
  @Build_BcryptHash toy_bcrypt
    (fun _ password => ("hash-of-" ++ password)%string)
    (fun _ password => String.eqb_refl ("hash-of-" ++ password)%string).

Definition ann : Account.Fields :=
  Account.mkFields (Some "ann") (Some "ann@example.com") (Some "opensesame")
    None.

End Examples.

(** * Properties *)

(** ** The slug chain *)

Module TextFacts.
Import Text.

Ltac by_cases_on_char c :=
  destruct c as [[] [] [] [] [] [] [] []]; vm_compute; try discriminate;
  repeat split; try reflexivity.

Lemma slug_char_lower c : is_slug_char c = true -> lower_char c = c.
Proof. by_cases_on_char c. Qed.

Lemma slug_char_not_space c : is_slug_char c = true -> is_space c = false.
Proof. by_cases_on_char c. Qed.

Lemma slug_char_kept c : is_slug_char c = true -> slug_keep c = true.
Proof. by_cases_on_char c. Qed.

Lemma kept_char_cases c :
  slug_keep c = true -> is_space c = true \/ is_slug_char c = true.
Proof.
  destruct c as [[] [] [] [] [] [] [] []]; vm_compute; try discriminate;
    auto.
Qed.

Lemma hyphen_is_slug_char c : is_hyphen c = true -> is_slug_char c = true.
Proof. by_cases_on_char c. Qed.

Lemma all_chars_cons p c s :
  all_chars p (String c s) = true <-> p c = true /\ all_chars p s = true.
Proof. simpl. apply andb_true_iff. Qed.

Lemma toLowerCase_slug s :
  all_chars is_slug_char s = true -> toLowerCase s = s.
Proof.
  induction s as [|c s IH]; intros Hs; [reflexivity|].
  apply all_chars_cons in Hs as [Hc Hs].
  unfold toLowerCase in *. simpl.
  now rewrite (slug_char_lower c Hc), (IH Hs).
Qed.

Lemma trimStart_slug s : all_chars is_slug_char s = true -> trimStart s = s.
Proof.
  destruct s as [|c s]; intros Hs; [reflexivity|].
  apply all_chars_cons in Hs as [Hc _]. simpl.
  now rewrite (slug_char_not_space c Hc).
Qed.

Lemma trimEnd_slug s : all_chars is_slug_char s = true -> trimEnd s = s.
Proof.
  induction s as [|c s IH]; intros Hs; [reflexivity|].
  apply all_chars_cons in Hs as [Hc Hs]. simpl.
  now rewrite (slug_char_not_space c Hc), (IH Hs).
Qed.

Lemma trim_slug s : all_chars is_slug_char s = true -> trim s = s.
Proof.
  intros Hs. unfold trim. rewrite (trimStart_slug s Hs).
  now apply trimEnd_slug.
Qed.

Lemma strip_special_slug s :
  all_chars is_slug_char s = true -> strip_special s = s.
Proof.
  induction s as [|c s IH]; intros Hs; [reflexivity|].
  apply all_chars_cons in Hs as [Hc Hs].
  unfold strip_special in *. simpl.
  now rewrite (slug_char_kept c Hc), (IH Hs).
Qed.

Lemma spaces_to_hyphen_slug prev s :
  all_chars is_slug_char s = true -> spaces_to_hyphen_from prev s = s.
Proof.
  revert prev. induction s as [|c s IH]; intros prev Hs; [reflexivity|].
  apply all_chars_cons in Hs as [Hc Hs]. simpl.
  now rewrite (slug_char_not_space c Hc), (IH false Hs).
Qed.

Lemma squeeze_hyphens_no_run prev s :
  has_hyphen_run s = false ->
  (prev = true -> starts_with_hyphen s = false) ->
  squeeze_hyphens_from prev s = s.
Proof.
  revert prev. induction s as [|c s IH]; intros prev Hrun Hprev;
    [reflexivity|].
  simpl in Hrun. apply orb_false_iff in Hrun as [Hhere Hrun].
  simpl. destruct (is_hyphen c) eqn:Hc.
  - destruct prev.
    + simpl in Hprev. rewrite Hc in Hprev. now specialize (Hprev eq_refl).
    + f_equal. apply IH; [exact Hrun|]. intros _.
      simpl in Hhere. exact Hhere.
  - f_equal. apply IH; [exact Hrun|]. intros H; discriminate H.
Qed.

Lemma strip_leading_hyphen_none s :
  starts_with_hyphen s = false -> strip_leading_hyphen s = s.
Proof. destruct s as [|c s]; simpl; intros H; [reflexivity|now rewrite H]. Qed.

Lemma strip_trailing_hyphen_none s :
  ends_with_hyphen s = false -> strip_trailing_hyphen s = s.
Proof.
  induction s as [|c s IH]; intros H; [reflexivity|].
  simpl in *. destruct s as [|d s]; [now rewrite H|].
  now rewrite (IH H).
Qed.

(** What the chain produces, whatever it is given. *)

Lemma all_chars_filter p s : all_chars p (filter_chars p s) = true.
Proof.
  induction s as [|c s IH]; [reflexivity|]. simpl.
  destruct (p c) eqn:Hc; [|exact IH]. simpl. now rewrite Hc.
Qed.

Lemma spaces_to_hyphen_chars prev s :
  all_chars slug_keep s = true ->
  all_chars is_slug_char (spaces_to_hyphen_from prev s) = true.
Proof.
  revert prev. induction s as [|c s IH]; intros prev Hs; [reflexivity|].
  apply all_chars_cons in Hs as [Hc Hs]. simpl.
  destruct (is_space c) eqn:Hsp.
  - destruct prev; [now apply IH|]. simpl. now apply IH.
  - apply all_chars_cons. split; [|now apply IH].
    destruct (kept_char_cases c Hc) as [H|H]; [congruence|exact H].
Qed.

Lemma squeeze_hyphens_chars p prev s :
  all_chars p s = true -> all_chars p (squeeze_hyphens_from prev s) = true.
Proof.
  revert prev. induction s as [|c s IH]; intros prev Hs; [reflexivity|].
  apply all_chars_cons in Hs as [Hc Hs]. simpl.
  destruct (is_hyphen c); [destruct prev|];
    try (apply all_chars_cons; split); auto.
Qed.

Lemma strip_leading_hyphen_chars p s :
  all_chars p s = true -> all_chars p (strip_leading_hyphen s) = true.
Proof.
  destruct s as [|c s]; intros Hs; [reflexivity|]. simpl.
  destruct (is_hyphen c); [|exact Hs].
  now apply all_chars_cons in Hs as [_ Hs].
Qed.

Lemma strip_trailing_hyphen_chars p s :
  all_chars p s = true -> all_chars p (strip_trailing_hyphen s) = true.
Proof.
  induction s as [|c s IH]; intros Hs; [reflexivity|].
  apply all_chars_cons in Hs as [Hc Hs]. simpl.
  destruct s as [|d s].
  - destruct (is_hyphen c); [reflexivity|]. simpl. now rewrite Hc.
  - apply all_chars_cons. split; [exact Hc|now apply IH].
Qed.

Lemma slugify_chars s : all_chars is_slug_char (slugify s) = true.
Proof.
  unfold slugify, strip_edge_hyphens, squeeze_hyphens, spaces_to_hyphen,
    strip_special.
  apply strip_trailing_hyphen_chars, strip_leading_hyphen_chars,
    squeeze_hyphens_chars, spaces_to_hyphen_chars, all_chars_filter.
Qed.

Lemma slugify_matches_pattern s :
  is_empty (slugify s) = false -> matches_slug_pattern (slugify s) = true.
Proof.
  intros H. unfold matches_slug_pattern. now rewrite H, slugify_chars.
Qed.

(** The schema setters of a slug path leave a slug-shaped string alone. *)
Lemma lower_char_idem c : lower_char (lower_char c) = lower_char c.
Proof. destruct c as [[] [] [] [] [] [] [] []]; reflexivity. Qed.

Lemma is_space_lower_char c : is_space (lower_char c) = is_space c.
Proof. destruct c as [[] [] [] [] [] [] [] []]; reflexivity. Qed.

Lemma toLowerCase_idem s : toLowerCase (toLowerCase s) = toLowerCase s.
Proof.
  unfold toLowerCase. induction s as [|c s IH]; [reflexivity|]. simpl.
  now rewrite lower_char_idem, IH.
Qed.

Lemma is_empty_map_chars f s : is_empty (map_chars f s) = is_empty s.
Proof. now destruct s. Qed.

Lemma trimStart_toLowerCase s :
  trimStart (toLowerCase s) = toLowerCase (trimStart s).
Proof.
  unfold toLowerCase. induction s as [|c s IH]; [reflexivity|]. simpl.
  rewrite is_space_lower_char. now destruct (is_space c).
Qed.

Lemma trimEnd_toLowerCase s :
  trimEnd (toLowerCase s) = toLowerCase (trimEnd s).
Proof.
  unfold toLowerCase. induction s as [|c s IH]; [reflexivity|]. simpl.
  rewrite IH, is_empty_map_chars, is_space_lower_char.
  now destruct (is_space c && is_empty (trimEnd s)).
Qed.

Lemma trim_toLowerCase s : trim (toLowerCase s) = toLowerCase (trim s).
Proof. unfold trim. now rewrite trimStart_toLowerCase, trimEnd_toLowerCase. Qed.

Lemma trimEnd_idem s : trimEnd (trimEnd s) = trimEnd s.
Proof.
  induction s as [|c s IH]; [reflexivity|]. simpl.
  destruct (is_space c && is_empty (trimEnd s)) eqn:E; [reflexivity|].
  simpl. now rewrite IH, E.
Qed.

Lemma trimStart_trimEnd s :
  trimStart (trimEnd (trimStart s)) = trimEnd (trimStart s).
Proof.
  induction s as [|c s IH]; [reflexivity|]. simpl.
  destruct (is_space c) eqn:E; [exact IH|]. simpl. rewrite E. simpl.
  now rewrite E.
Qed.

Lemma trim_idem s : trim (trim s) = trim s.
Proof. unfold trim. rewrite trimStart_trimEnd. apply trimEnd_idem. Qed.

(** What the setters [trim] and [lowercase] of a schema have made, they
    leave as it is. *)
Lemma lower_trim_idem s :
  toLowerCase (trim (toLowerCase (trim s))) = toLowerCase (trim s).
Proof. now rewrite trim_toLowerCase, trim_idem, toLowerCase_idem. Qed.

Lemma cast_slug_fixed s :
  all_chars is_slug_char s = true -> toLowerCase (trim s) = s.
Proof.
  intros Hs. rewrite (trim_slug s Hs). now apply toLowerCase_slug.
Qed.

Lemma slugify_fixes_clean s : is_clean_slug s = true -> slugify s = s.
Proof.
  unfold is_clean_slug, matches_slug_pattern. intros H.
  repeat (apply andb_true_iff in H as [H ?]).
  repeat match goal with
         | E : negb _ = true |- _ => apply negb_true_iff in E
         end.
  unfold slugify, strip_edge_hyphens, squeeze_hyphens, spaces_to_hyphen.
  rewrite toLowerCase_slug, trim_slug, strip_special_slug,
    spaces_to_hyphen_slug by assumption.
  rewrite squeeze_hyphens_no_run by (try assumption; discriminate).
  rewrite strip_leading_hyphen_none by assumption.
  now apply strip_trailing_hyphen_none.
Qed.

(** C8: on a string of [[a-z0-9-]+] without leading, trailing or repeated
    hyphen, every pass of the chain is the identity, so [slugify] returns
    its input. *)
Theorem slugify_clean_input s : is_clean_slug s = true -> slugify s = s.
Proof. exact (slugify_fixes_clean s). Qed.

Lemma slugify_clean_input_movies :
  is_clean_slug "movies" = true /\ slugify "movies" = "movies".
Proof.
  split; [reflexivity|].
  apply (slugify_clean_input "movies"). reflexivity.
Defined.

(** What the chain returns is empty or clean, so the chain is idempotent
    on every input. *)

Lemma squeeze_hyphens_shape prev s :
  has_hyphen_run (squeeze_hyphens_from prev s) = false
  /\ (prev = true ->
      starts_with_hyphen (squeeze_hyphens_from prev s) = false).
Proof.
  revert prev. induction s as [|c s IH]; intros prev; [now split|].
  cbn [squeeze_hyphens_from]. destruct (is_hyphen c) eqn:Hc.
  - destruct prev.
    + destruct (IH true) as [Hrun Hstart]. split; [exact Hrun|exact Hstart].
    + destruct (IH true) as [Hrun Hstart]. split; [|discriminate].
      cbn. now rewrite Hc, (Hstart eq_refl), Hrun.
  - destruct (IH false) as [Hrun _]. split.
    + cbn. now rewrite Hc, Hrun.
    + intros _. cbn. exact Hc.
Qed.

Lemma strip_leading_hyphen_shape s :
  has_hyphen_run s = false ->
  has_hyphen_run (strip_leading_hyphen s) = false
  /\ starts_with_hyphen (strip_leading_hyphen s) = false.
Proof.
  destruct s as [|c s]; [now split|]. cbn.
  destruct (is_hyphen c) eqn:Hc; cbn.
  - intros H. apply orb_false_iff in H as [H1 H2]. now split.
  - rewrite Hc. cbn. intros H. now split.
Qed.

Lemma strip_trailing_hyphen_start s :
  starts_with_hyphen s = false ->
  starts_with_hyphen (strip_trailing_hyphen s) = false.
Proof.
  destruct s as [|c [|d s]]; cbn; intros H; try reflexivity.
  - now rewrite H.
  - exact H.
Qed.

Lemma strip_trailing_hyphen_shape s :
  has_hyphen_run s = false ->
  has_hyphen_run (strip_trailing_hyphen s) = false
  /\ ends_with_hyphen (strip_trailing_hyphen s) = false.
Proof.
  induction s as [|c s IH]; [now split|]. intros H.
  cbn in H. apply orb_false_iff in H as [Hhere Hrun].
  destruct (IH Hrun) as [IHrun IHend].
  destruct s as [|d s].
  - cbn. destruct (is_hyphen c) eqn:Hc; cbn; [now split|].
    now rewrite Hc.
  - change (strip_trailing_hyphen (String c (String d s)))
      with (String c (strip_trailing_hyphen (String d s))).
    destruct (is_hyphen c) eqn:Hc.
    + cbn [andb] in Hhere.
      pose proof (strip_trailing_hyphen_start _ Hhere) as Hs.
      split.
      * cbn [has_hyphen_run]. now rewrite Hc, Hs, IHrun.
      * destruct (strip_trailing_hyphen (String d s)) as [|e t] eqn:E.
        -- cbn in E. destruct s; [|discriminate E].
           cbn in Hhere. rewrite Hhere in E. discriminate E.
        -- exact IHend.
    + split.
      * cbn [has_hyphen_run]. now rewrite Hc, IHrun.
      * destruct (strip_trailing_hyphen (String d s)) as [|e t] eqn:E.
        -- cbn. exact Hc.
        -- exact IHend.
Qed.

Lemma slugify_shape s :
  slugify s = "" \/ is_clean_slug (slugify s) = true.
Proof.
  destruct (slugify s) as [|c t] eqn:E; [now left|right].
  rewrite <- E. unfold is_clean_slug, matches_slug_pattern.
  rewrite slugify_chars. rewrite E at 1. cbn [is_empty negb andb].
  unfold slugify, strip_edge_hyphens, squeeze_hyphens.
  destruct (squeeze_hyphens_shape false
              (spaces_to_hyphen (strip_special (trim (toLowerCase s)))))
    as [Hrun _].
  destruct (strip_leading_hyphen_shape _ Hrun) as [Hrun' Hstart].
  destruct (strip_trailing_hyphen_shape _ Hrun') as [Hrun'' Hend].
  now rewrite (strip_trailing_hyphen_start _ Hstart), Hend, Hrun''.
Qed.

Lemma slugify_idempotent s : slugify (slugify s) = slugify s.
Proof.
  destruct (slugify_shape s) as [E|H].
  - now rewrite E.
  - now apply slugify_fixes_clean.
Qed.

Example slugify_title :
  slugify "  The  Last -- of Us: Part II! " = "the-last-of-us-part-ii".
Proof. reflexivity. Qed.

Example slugify_lone_hyphen : slugify " - " = "".
Proof. reflexivity. Qed.

End TextFacts.

(** ** Collections *)

Module ListFacts.
Import Store Models.

Lemma find_update_first {D} (p : D -> bool) (f : D -> D) (l : list D) :
  (forall d, p d = true -> p (f d) = true) ->
  find p (update_first p f l) = option_map f (find p l).
Proof.
  intros Hp. induction l as [|d l IH]; [reflexivity|]. simpl.
  destruct (p d) eqn:Hd; simpl.
  - now rewrite (Hp d Hd).
  - now rewrite Hd.
Qed.

Lemma nth_error_update_first_other {D} (p : D -> bool) (f : D -> D) l k d :
  nth_error l k = Some d -> p d = false ->
  nth_error (update_first p f l) k = Some d.
Proof.
  revert k. induction l as [|x l IH]; intros [|k] Hk Hd; simpl in *;
    try discriminate.
  - injection Hk as ->. now rewrite Hd.
  - destruct (p x); simpl; [exact Hk|now apply IH].
Qed.

Lemma length_update_first {D} (p : D -> bool) (f : D -> D) l :
  length (update_first p f l) = length l.
Proof.
  induction l as [|x l IH]; [reflexivity|]. simpl.
  destruct (p x); simpl; congruence.
Qed.


Lemma find_none_existsb {D} (p : D -> bool) l :
  find p l = None <-> existsb p l = false.
Proof.
  induction l as [|x l IH]; simpl; [tauto|].
  destruct (p x); simpl; [split; discriminate|exact IH].
Qed.

Lemma filter_nil_forall {D} (p : D -> bool) l :
  (forall d, In d l -> p d = false) -> filter p l = [].
Proof.
  induction l as [|x l IH]; intros H; [reflexivity|]. simpl.
  rewrite (H x (or_introl eq_refl)). apply IH. intros d Hd.
  apply H. now right.
Qed.

Lemma by_id_set_itemCount id n c :
  Category.by_id id c = true ->
  Category.by_id id (ICategory.set_itemCount n c) = true.
Proof. intros H; exact H. Qed.

End ListFacts.

(** ** ObjectIds and their cast *)

Module ObjectIdFacts.
Import Text Store Models TextFacts.

Lemma oid_ext (a b : ObjectId) : toString a = toString b -> a = b.
Proof.
  destruct a as [s Hs], b as [t Ht]. cbn. intros E. subst t.
  f_equal. apply UIP_dec, bool_dec.
Qed.

Lemma oid_eqb_eq a b : oid_eqb a b = true <-> a = b.
Proof.
  unfold oid_eqb. rewrite String.eqb_eq.
  split; [apply oid_ext|now intros ->].
Qed.

Lemma oid_eqb_refl a : oid_eqb a a = true.
Proof. now apply oid_eqb_eq. Qed.

Lemma oid_eqb_neq a b : oid_eqb a b = false <-> a <> b.
Proof.
  split.
  - intros H E. apply oid_eqb_eq in E. congruence.
  - intros H. destruct (oid_eqb a b) eqn:E; [|reflexivity].
    apply oid_eqb_eq in E. contradiction.
Qed.

Lemma oid_eqb_spec a b : reflect (a = b) (oid_eqb a b).
Proof. apply iff_reflect. symmetry. apply oid_eqb_eq. Qed.

Lemma oid_eqb_sym a b : oid_eqb a b = oid_eqb b a.
Proof. apply String.eqb_sym. Qed.

Lemma lower_hex_lower c : is_lower_hex c = true -> lower_char c = c.
Proof. by_cases_on_char c. Qed.

Lemma lower_hex_of_hex_digit c : is_lower_hex (lower_char c) = is_hex_digit c.
Proof. destruct c as [[] [] [] [] [] [] [] []]; reflexivity. Qed.

Lemma toLowerCase_hex s : all_chars is_lower_hex s = true -> toLowerCase s = s.
Proof.
  induction s as [|c s IH]; intros Hs; [reflexivity|].
  apply all_chars_cons in Hs as [Hc Hs].
  unfold toLowerCase in *. simpl.
  now rewrite (lower_hex_lower c Hc), (IH Hs).
Qed.

Lemma toString_lower (a : ObjectId) : toLowerCase (toString a) = toString a.
Proof.
  apply toLowerCase_hex. pose proof (toString_hex a) as H.
  unfold is_ObjectId_hex in H. now apply andb_true_iff in H.
Qed.

(** The string of an ObjectId casts back to it. *)
Lemma castObjectId_toString (a : ObjectId) : castObjectId (toString a) = Some a.
Proof.
  unfold castObjectId.
  destruct (bool_dec (is_ObjectId_hex (toLowerCase (toString a))) true)
    as [H|H].
  - f_equal. apply oid_ext. cbn. apply toString_lower.
  - exfalso. apply H. rewrite toString_lower. apply toString_hex.
Qed.

Lemma castObjectId_digits s id :
  castObjectId s = Some id -> toString id = toLowerCase s.
Proof.
  unfold castObjectId.
  destruct (bool_dec (is_ObjectId_hex (toLowerCase s)) true); [|discriminate].
  now intros [= <-].
Qed.

Lemma length_toLowerCase s : String.length (toLowerCase s) = String.length s.
Proof.
  unfold toLowerCase. induction s as [|c s IH]; simpl; congruence.
Qed.

Lemma all_lower_hex_toLowerCase s :
  all_chars is_lower_hex (toLowerCase s) = all_chars is_hex_digit s.
Proof.
  unfold toLowerCase. induction s as [|c s IH]; [reflexivity|]. simpl.
  now rewrite lower_hex_of_hex_digit, IH.
Qed.

(** The cast accepts exactly [/^[0-9a-fA-F]{24}$/]. *)
Lemma castObjectId_accepts s :
  castObjectId s <> None
  <-> String.length s = 24 /\ all_chars is_hex_digit s = true.
Proof.
  assert (Hiff : is_ObjectId_hex (toLowerCase s) = true
                 <-> String.length s = 24 /\ all_chars is_hex_digit s = true).
  { unfold is_ObjectId_hex.
    rewrite length_toLowerCase, all_lower_hex_toLowerCase, andb_true_iff,
      Nat.eqb_eq. tauto. }
  unfold castObjectId.
  destruct (bool_dec (is_ObjectId_hex (toLowerCase s)) true) as [H|H].
  - split; [intros _; now apply Hiff|discriminate].
  - split; [congruence|]. intros H'. exfalso. apply H. now apply Hiff.
Qed.

Lemma casting_cast {A} s id (q : ObjectId -> M A) :
  castObjectId s = Some id -> casting s q = q id.
Proof. unfold casting. now intros ->. Qed.

Lemma casting_refused {A} s (q : ObjectId -> M A) :
  castObjectId s = None -> casting s q = throw CastError.
Proof. unfold casting. now intros ->. Qed.

Lemma casting_toString {A} (a : ObjectId) (q : ObjectId -> M A) :
  casting (toString a) q = q a.
Proof. apply casting_cast, castObjectId_toString. Qed.

Example cast_in_capitals :
  castObjectId Spec.movies_id_in_capitals = Some Spec.movies_id
  /\ castObjectId (toString Spec.movies_id) = Some Spec.movies_id
  /\ castObjectId Spec.not_an_id = None
  /\ castObjectId "" = None.
Proof. repeat split. Qed.

End ObjectIdFacts.

(** ** The counter maintainer and category deletion *)

Module CategoryFacts.
Import Store Http Models CategoryController ListFacts ObjectIdFacts Spec.

(** An invocation whose store calls are all answered, for a string that
    casts to [id]. *)
Lemma recount_answered s id w :
  castObjectId s = Some id ->
  updateCategoryItemCount [] s w
  = (Done tt,
     set_categories
       (update_first (Category.by_id id)
          (ICategory.set_itemCount (active_items id (items w)))
          (categories w)) w).
Proof.
  intros E. unfold updateCategoryItemCount, casting. rewrite E.
  destruct w; reflexivity.
Qed.

(** An invocation for a string that is no ObjectId: the query is
    rejected, which is caught and logged. *)
Lemma recount_refused rejections s w :
  castObjectId s = None ->
  updateCategoryItemCount rejections s w
  = (Done tt, set_log (log w ++ ["Update category item count error:"]) w).
Proof.
  intros E. unfold updateCategoryItemCount, casting. rewrite E.
  destruct w; reflexivity.
Qed.

Lemma updated_counter id n l c :
  find (Category.by_id id) l = Some c ->
  exists c',
    find (Category.by_id id)
      (update_first (Category.by_id id) (ICategory.set_itemCount n) l)
    = Some c'
    /\ ICategory.itemCount c' = n
    /\ same_but_itemCount c' c.
Proof.
  intros Hc. exists (ICategory.set_itemCount n c). split.
  - rewrite find_update_first by (intros d Hd; exact Hd). now rewrite Hc.
  - split; [reflexivity|]. now repeat split.
Qed.

Lemma update_first_absent {D} (p : D -> bool) (f : D -> D) l :
  find p l = None -> update_first p f l = l.
Proof.
  induction l as [|x l IH]; [reflexivity|]. simpl.
  destruct (p x); [discriminate|]. intros H. now rewrite (IH H).
Qed.

(** C1: when its store calls are answered, [updateCategoryItemCount],
    called with the id of a category (its 24 digits, capitals or not),
    leaves on that category an [itemCount] that is the number of items
    which reference the category with status ["active"], changes no
    other field of it, creates no category, and leaves every category
    with another id, and every item, as it was. *)
Theorem recount_sets_active_count categoryId id w :
  castObjectId categoryId = Some id ->
  let n := active_items id (items w) in
  let w' := world (updateCategoryItemCount [] categoryId w) in
  outcome (updateCategoryItemCount [] categoryId w) = Done tt
  /\ (forall c, find (Category.by_id id) (categories w) = Some c ->
        exists c',
          find (Category.by_id id) (categories w') = Some c'
          /\ ICategory.itemCount c' = n
          /\ same_but_itemCount c' c)
  /\ (find (Category.by_id id) (categories w) = None ->
      categories w' = categories w)
  /\ (forall k c, nth_error (categories w) k = Some c ->
                  ICategory._id c <> id ->
                  nth_error (categories w') k = Some c)
  /\ length (categories w') = length (categories w)
  /\ items w' = items w.
Proof.
  intros E. cbv zeta. rewrite (recount_answered _ _ _ E).
  unfold outcome, world. cbn [fst snd categories set_categories items].
  split; [reflexivity|]. split; [|split; [|split; [|split]]].
  - intros c Hc. now apply updated_counter.
  - intros Hnone. now apply update_first_absent.
  - intros k c Hk Hc. apply nth_error_update_first_other; [exact Hk|].
    unfold Category.by_id. now apply oid_eqb_neq.
  - apply length_update_first.
  - now destruct w.
Qed.

Lemma recount_sets_active_count_small_world :
  let w' := world (updateCategoryItemCount [] movies_id_in_capitals
                     small_world) in
  (exists c',
     find (Category.by_id movies_id) (categories w') = Some c'
     /\ ICategory.itemCount c' = 1
     /\ same_but_itemCount c' movies)
  /\ nth_error (categories w') 1 = Some games.
Proof.
  pose proof (recount_sets_active_count movies_id_in_capitals movies_id
                small_world eq_refl) as H.
  cbv zeta in H. destruct H as (_ & Hfind & _ & Hother & _).
  split; [exact (Hfind movies eq_refl)|].
  apply (Hother 1 games); [reflexivity|discriminate].
Defined.

(** [deleteCategory] when the store answers and items reference [id]. *)
Lemma deleteCategory_blocked s id w :
  castObjectId s = Some id ->
  faults w = [] ->
  0 < referencing_items id (items w) ->
  deleteCategory s w = (Done (conflict (referencing_items id (items w))), w).
Proof.
  intros E Hf Hn.
  unfold deleteCategory, casting. rewrite E.
  unfold try_catch, bind, Item.countDocuments, await.
  rewrite Hf. cbn beta iota.
  change (length (filter (Item.in_category id) (items w)))
    with (referencing_items id (items w)).
  apply Nat.ltb_lt in Hn. now rewrite Hn.
Qed.

Lemma conflict_refused n w : refused_with 400 (conflict_message n) w (Done (conflict n), w).
Proof. exists (conflict n). now repeat split. Qed.




(** C10: the deletion check counts the referencing items of every
    status, the counter only the active ones.  For a category that only
    non-active items reference, the counter maintainer leaves an
    [itemCount] of 0 on the category and the delete request is still
    refused, with status 400 and the number of referencing items. *)
Theorem zero_count_not_deletable id oid w c :
  faults w = [] ->
  castObjectId id = Some oid ->
  find (Category.by_id oid) (categories w) = Some c ->
  0 < referencing_items oid (items w) ->
  (forall i, In i (items w) -> IItem.category i = oid ->
             IItem.status i <> "active") ->
  let w1 := world (updateCategoryItemCount [] id w) in
  (exists c',
     find (Category.by_id oid) (categories w1) = Some c'
     /\ ICategory.itemCount c' = 0)
  /\ refused_with 400 (conflict_message (referencing_items oid (items w))) w1
       (deleteCategory id w1).
Proof.
  intros Hf E Hc Hn Hinactive w1. subst w1.
  rewrite (recount_answered _ _ _ E). unfold world. cbn [snd].
  assert (Hzero : active_items oid (items w) = 0).
  { unfold active_items. rewrite filter_nil_forall; [reflexivity|].
    intros i Hi. destruct (oid_eqb_spec (IItem.category i) oid) as [Ei|Ei];
      [|reflexivity].
    simpl. apply String.eqb_neq. now apply Hinactive. }
  rewrite Hzero. split.
  - cbn [categories set_categories].
    destruct (updated_counter oid 0 (categories w) c Hc) as (c' & Hc' & H0 & _).
    now exists c'.
  - match goal with
    | |- refused_with _ _ ?w1 _ =>
        rewrite (deleteCategory_blocked id oid w1 E Hf Hn)
    end.
    apply conflict_refused.
Qed.

Lemma zero_count_not_deletable_small_world :
  let w1 := world (updateCategoryItemCount [] (toString games_id)
                     small_world) in
  (exists c',
     find (Category.by_id games_id) (categories w1) = Some c'
     /\ ICategory.itemCount c' = 0)
  /\ refused_with 400 (conflict_message 1) w1
       (deleteCategory (toString games_id) w1).
Proof.
  apply (zero_count_not_deletable (toString games_id) games_id small_world
           games).
  - reflexivity.
  - reflexivity.
  - reflexivity.
  - vm_compute. lia.
  - intros i [<-|[<-|[<-|[]]]]; simpl; intros Ei; discriminate.
Defined.

End CategoryFacts.

(** ** Item handlers *)

Module ItemFacts.
Import Store Http Models CategoryController ItemController ListFacts
  ObjectIdFacts Spec.

Lemma failure_refused code msg w :
  refused_with code msg w (Done (failure code msg), w).
Proof. exists (failure code msg). now repeat split. Qed.

Lemma createItem_typed_unknown rf admin body w :
  faults w = [] ->
  readable_category (category body) = true ->
  identifies_category (category body) w = false ->
  Typed.createItem rf admin body w
  = (Done (failure 400 "Category not found"), w).
Proof.
  intros Hf Hr Hc.
  unfold Typed.createItem, Typed.find_category.
  unfold identifies_category, readable_category in *.
  destruct (category body) as [cat|].
  - unfold casting. destruct (castObjectId cat) as [id|]; [|discriminate].
    unfold try_catch, bind, Category.findById, await. rewrite Hf. cbn.
    destruct (find (Category.by_id id) (categories w)); [discriminate|].
    reflexivity.
  - unfold try_catch, bind, await. now rewrite Hf.
Qed.

Lemma createItem_relaxed_unknown fuel rf body w :
  faults w = [] ->
  readable_category (category body) = true ->
  identifies_category (category body) w = false ->
  check_characters (characters body) <> NullEntry ->
  Relaxed.createItem fuel rf body w
  = (Done (failure 400 (relaxed_rejection body)), w).
Proof.
  intros Hf Hr Hc Hnull.
  unfold Relaxed.createItem, relaxed_rejection, try_catch.
  unfold identifies_category, readable_category in *.
  destruct (category body) as [cat|]; [|reflexivity].
  cbn [Text.truthy]. destruct (Text.is_empty cat); [reflexivity|].
  cbn [negb]. destruct (check_characters (characters body));
    [contradiction|reflexivity|].
  destruct (negb (Text.truthy (slug_or_derived body))); [reflexivity|].
  unfold casting. destruct (castObjectId cat) as [id|]; [|discriminate].
  unfold bind, Category.findById, await. rewrite Hf. cbn.
  destruct (find (Category.by_id id) (categories w)); [discriminate|].
  reflexivity.
Qed.

(** C3, as the handlers have it.  A create request whose category can be
    read as an id (it is absent, or has 24 hexadecimal digits) and is
    not the id of a stored category is answered 400 and changes nothing
    in the store: by the typed handler with "Category not found"; by the
    relaxed handler, when no [null] stands among the characters where
    its loop comes by, with the message of the first guard that the
    request fails, which is "Category not found" when the request names
    a category, passes the loop over the characters and yields a
    slug. *)
Theorem createItem_unknown_category fuel rf admin body w :
  faults w = [] ->
  readable_category (category body) = true ->
  identifies_category (category body) w = false ->
  refused_with 400 "Category not found" w (Typed.createItem rf admin body w)
  /\ (check_characters (characters body) <> NullEntry ->
      refused_with 400 (relaxed_rejection body) w
        (Relaxed.createItem fuel rf body w))
  /\ (Text.truthy (category body) = true ->
      check_characters (characters body) = Passed ->
      Text.truthy (slug_or_derived body) = true ->
      relaxed_rejection body = "Category not found").
Proof.
  intros Hf Hr Hc. split; [|split].
  - rewrite createItem_typed_unknown by assumption. apply failure_refused.
  - intros Hnull. rewrite createItem_relaxed_unknown by assumption.
    apply failure_refused.
  - intros H1 H2 H3. unfold relaxed_rejection. now rewrite H1, H2, H3.
Qed.

Lemma createItem_unknown_category_small_world :
  let body := mkBody (Some "Heat") None None (Some (toString absent_id)) None
                (Some [Some (Character.mk (Some "Neil") None None)]) in
  refused_with 400 "Category not found" small_world
    (Typed.createItem no_recount_faults None body small_world)
  /\ refused_with 400 "Category not found" small_world
       (Relaxed.createItem 1 no_recount_faults body small_world).
Proof.
  cbv zeta.
  destruct (createItem_unknown_category 1 no_recount_faults None
              (mkBody (Some "Heat") None None (Some (toString absent_id)) None
                 (Some [Some (Character.mk (Some "Neil") None None)]))
              small_world eq_refl eq_refl eq_refl) as (H1 & H2 & H3).
  split; [exact H1|].
  rewrite <- H3 by reflexivity. apply H2. discriminate.
Defined.

(** C3 as the specification words it fails on the relaxed handler, for
    requests whose category is not the id of a stored category: one
    without title and slug meets the slug guard before the category is
    looked up, and is answered 400 with another message; one with a
    [null] among its characters is answered 500; and so is one whose
    category is no id, by either handler. *)
Lemma createItem_relaxed_other_message :
  (identifies_category (category untitled) small_world = false
   /\ ~ refused_with 400 "Category not found" small_world
          (Relaxed.createItem 1 no_recount_faults untitled small_world)
   /\ refused_with 400 "Title is required to generate slug" small_world
        (Relaxed.createItem 1 no_recount_faults untitled small_world))
  /\ (identifies_category (category with_null_character) small_world = false
      /\ refused_with 500 "Internal server error"
           (set_log ["Create item error:"] small_world)
           (Relaxed.createItem 1 no_recount_faults with_null_character
              small_world))
  /\ (identifies_category (category with_unreadable_category) small_world
      = false
      /\ refused_with 500 "Internal server error"
           (set_log ["Create item error:"] small_world)
           (Relaxed.createItem 1 no_recount_faults with_unreadable_category
              small_world)
      /\ refused_with 500 "Internal server error"
           (set_log ["Create item error:"] small_world)
           (Typed.createItem no_recount_faults None with_unreadable_category
              small_world)).
Proof.
  split; [|split].
  - split; [reflexivity|]. split.
    + intros (res & E & _ & _ & Hm). vm_compute in E.
      injection E as <-. discriminate Hm.
    + apply failure_refused.
  - split; [reflexivity|]. apply failure_refused.
  - split; [reflexivity|]. split; apply failure_refused.
Qed.

(** *** The counter maintainer never fails its caller *)

Lemma same_but_counters_refl w : same_but_counters w w.
Proof. repeat split. Qed.

Lemma erase_update_first id n l :
  map (ICategory.set_itemCount 0)
    (update_first (Category.by_id id) (ICategory.set_itemCount n) l)
  = map (ICategory.set_itemCount 0) l.
Proof.
  induction l as [|c l IH]; [reflexivity|]. simpl.
  destruct (Category.by_id id c); simpl; [reflexivity|now rewrite IH].
Qed.

(** Whatever the fate of its store calls, an invocation returns normally;
    it touches nothing but the counter of its category and the log. *)
Lemma recount_effect rf s w :
  exists cs lg,
    updateCategoryItemCount rf s w
    = (Done tt, set_log lg (set_categories cs w))
    /\ (cs = categories w
        \/ exists id,
             castObjectId s = Some id
             /\ cs = update_first (Category.by_id id)
                       (ICategory.set_itemCount (active_items id (items w)))
                       (categories w)).
Proof.
  destruct (castObjectId s) as [id|] eqn:E.
  - unfold updateCategoryItemCount, casting. rewrite E.
    destruct w as [cs its ads lg nw oid fs].
    destruct rf as [|[] [|[] rf]]; cbn;
      do 2 eexists; (split; [reflexivity|]); cbn; eauto.
  - rewrite (CategoryFacts.recount_refused rf s w E).
    exists (categories w), (log w ++ ["Update category item count error:"]).
    split; [now destruct w|now left].
Qed.

Lemma recount_related rf1 rf2 id :
  related (updateCategoryItemCount rf1 id) (updateCategoryItemCount rf2 id).
Proof.
  intros w1 w2 (Hi & Ha & Hf & Hn & Ho & Hc).
  destruct (recount_effect rf1 id w1) as (cs1 & lg1 & -> & H1).
  destruct (recount_effect rf2 id w2) as (cs2 & lg2 & -> & H2).
  unfold outcome, world. cbn. repeat split; try assumption.
  destruct H1 as [-> | (id1 & _ & ->)], H2 as [-> | (id2 & _ & ->)];
    cbn [categories set_log set_categories];
    rewrite ?erase_update_first; exact Hc.
Qed.

Lemma related_ret {A} (a : A) : related (ret a) (ret a).
Proof. intros w1 w2 H. split; [reflexivity|exact H]. Qed.

Lemma related_throw {A} e : related (@throw A e) (throw e).
Proof. intros w1 w2 H. split; [reflexivity|exact H]. Qed.

Lemma related_bind {A B} (m1 m2 : M A) (k1 k2 : A -> M B) :
  related m1 m2 -> (forall a, related (k1 a) (k2 a)) ->
  related (bind m1 k1) (bind m2 k2).
Proof.
  intros Hm Hk w1 w2 Hw. destruct (Hm w1 w2 Hw) as [Ho Hw'].
  unfold bind, outcome, world in *.
  destruct (m1 w1) as [[a1|e1|] w1'], (m2 w2) as [[a2|e2|] w2'];
    cbn in *; try discriminate.
  - injection Ho as ->. exact (Hk a2 w1' w2' Hw').
  - injection Ho as ->. now split.
  - now split.
Qed.

Lemma related_outcome {A} (m1 m2 : M A) w :
  related m1 m2 -> outcome (m1 w) = outcome (m2 w).
Proof. intros H. apply (H w w), same_but_counters_refl. Qed.

Lemma erased_counter_fields c1 c2 :
  ICategory.set_itemCount 0 c1 = ICategory.set_itemCount 0 c2 ->
  ICategory._id c1 = ICategory._id c2
  /\ ICategory.name c1 = ICategory.name c2
  /\ ICategory.slug c1 = ICategory.slug c2.
Proof.
  destruct c1, c2. unfold ICategory.set_itemCount. cbn.
  intros H. injection H. intros. now repeat split.
Qed.

Lemma lookup_category_erased l1 l2 id :
  map (ICategory.set_itemCount 0) l1 = map (ICategory.set_itemCount 0) l2 ->
  Item.lookup_category l1 id = Item.lookup_category l2 id.
Proof.
  revert l2. induction l1 as [|c1 l1 IH]; intros [|c2 l2] H;
    try discriminate; [reflexivity|].
  change (ICategory.set_itemCount 0 c1 :: map (ICategory.set_itemCount 0) l1
          = ICategory.set_itemCount 0 c2 :: map (ICategory.set_itemCount 0) l2)
    in H.
  assert (Hc : ICategory.set_itemCount 0 c1 = ICategory.set_itemCount 0 c2)
    by congruence.
  assert (Hl : map (ICategory.set_itemCount 0) l1
               = map (ICategory.set_itemCount 0) l2) by congruence.
  destruct (erased_counter_fields c1 c2 Hc) as (Eid & Ename & Eslug).
  specialize (IH l2 Hl). unfold Item.lookup_category in *. cbn [find].
  unfold Category.by_id at 1 3. rewrite Eid.
  destruct (oid_eqb (ICategory._id c2) id).
  - now rewrite Eid, Ename, Eslug.
  - exact IH.
Qed.

Lemma populate_category_related i :
  related (Item.populate_category i) (Item.populate_category i).
Proof.
  intros w1 w2 (Hi & Ha & Hf & Hn & Ho & Hc).
  unfold Item.populate_category, await, outcome, world, Item.with_category.
  rewrite Hf.
  destruct (faults w2) as [|[] fs] eqn:E; cbn;
    rewrite ?(lookup_category_erased _ _ (IItem.category i) Hc);
    repeat split; try assumption; try congruence.
Qed.

Lemma populate_createdBy_related p :
  related (Item.populate_createdBy p) (Item.populate_createdBy p).
Proof.
  intros w1 w2 (Hi & Ha & Hf & Hn & Ho & Hc).
  unfold Item.populate_createdBy, await, outcome, world.
  rewrite Hf, Ha.
  destruct (faults w2) as [|[] fs] eqn:E; cbn; repeat split;
    try assumption; try congruence.
Qed.

Lemma recount_all_related rf1 rf2 ids :
  related (recount_all rf1 ids) (recount_all rf2 ids).
Proof.
  induction ids as [|id ids IH]; cbn; [apply related_ret|].
  apply related_bind; [apply recount_related|intros _; exact IH].
Qed.

(** Two bodies with the same prefix end the same way if their
    continuations do. *)
Lemma bind_same_prefix {A B} (m : M A) (k1 k2 : A -> M B) w :
  (forall a w', outcome (k1 a w') = outcome (k2 a w')) ->
  outcome (bind m k1 w) = outcome (bind m k2 w).
Proof.
  intros H. unfold bind. destruct (m w) as [[a|e|] w']; auto.
Qed.

Lemma try_internal_outcome (m1 m2 : M Response) label w :
  outcome (m1 w) = outcome (m2 w) ->
  outcome (try_catch m1 (internal_error label) w)
  = outcome (try_catch m2 (internal_error label) w).
Proof.
  unfold try_catch, outcome.
  destruct (m1 w) as [[a1|e1|] w1], (m2 w) as [[a2|e2|] w2]; cbn;
    intros E; try discriminate E; try exact E; reflexivity.
Qed.

Ltac same_prefix :=
  repeat first
    [ reflexivity
    | apply bind_same_prefix; intros ? ?
    | match goal with
      | |- outcome ((if ?b then _ else _) _)
           = outcome ((if ?b then _ else _) _) => destruct b
      | |- outcome ((match ?x with Some _ => _ | None => _ end) _)
           = outcome ((match ?x with Some _ => _ | None => _ end) _) =>
          destruct x
      | |- outcome ((match ?x with
                     | NullEntry => _ | TooLong => _ | Passed => _
                     end) _)
           = outcome ((match ?x with
                       | NullEntry => _ | TooLong => _ | Passed => _
                       end) _) =>
          destruct x
      end ].

Ltac after_recount :=
  apply related_outcome;
  repeat first
    [ apply recount_related
    | apply recount_all_related
    | apply related_ret
    | apply related_throw
    | apply populate_category_related
    | apply populate_createdBy_related
    | apply related_bind; [|intros ?]
    | match goal with
      | |- related (if ?b then _ else _) (if ?b then _ else _) => destruct b
      end ].

Lemma createItem_typed_ignores rf admin body w :
  outcome (Typed.createItem rf admin body w)
  = outcome (Typed.createItem no_recount_faults admin body w).
Proof.
  unfold Typed.createItem. apply try_internal_outcome.
  apply bind_same_prefix. intros categoryExists w1.
  destruct categoryExists, (category body); try reflexivity.
  same_prefix. after_recount.
Qed.

Lemma createItem_relaxed_ignores fuel rf body w :
  outcome (Relaxed.createItem fuel rf body w)
  = outcome (Relaxed.createItem fuel no_recount_faults body w).
Proof.
  unfold Relaxed.createItem. apply try_internal_outcome.
  destruct (category body); [|reflexivity].
  same_prefix. after_recount.
Qed.

Lemma updateItem_ignores rf id body w :
  outcome (Relaxed.updateItem rf id body w)
  = outcome (Relaxed.updateItem no_recount_faults id body w).
Proof.
  unfold Relaxed.updateItem. apply try_internal_outcome.
  same_prefix. after_recount.
Qed.

Lemma deleteItem_ignores rf id w :
  outcome (Relaxed.deleteItem rf id w)
  = outcome (Relaxed.deleteItem no_recount_faults id w).
Proof.
  unfold Relaxed.deleteItem. apply try_internal_outcome.
  same_prefix. after_recount.
Qed.

Lemma bulkDeleteItems_ignores rf ids w :
  outcome (Relaxed.bulkDeleteItems rf ids w)
  = outcome (Relaxed.bulkDeleteItems no_recount_faults ids w).
Proof.
  unfold Relaxed.bulkDeleteItems. apply try_internal_outcome.
  destruct ids as [[|i ids]|]; try reflexivity.
  same_prefix. after_recount.
Qed.

Lemma updateItemStatus_ignores rf id status w :
  outcome (Relaxed.updateItemStatus rf id status w)
  = outcome (Relaxed.updateItemStatus no_recount_faults id status w).
Proof.
  unfold Relaxed.updateItemStatus. apply try_internal_outcome.
  same_prefix. after_recount.
Qed.

(** C4: a rejection inside [updateCategoryItemCount] is caught and
    logged, the invocation returns normally, and every handler that
    triggers the counter maintainer (item create, update, status change,
    delete, bulk delete) ends exactly as it does when the store answers
    the maintainer's calls. *)
Theorem recount_failure_is_swallowed :
  (forall rf id w, outcome (updateCategoryItemCount rf id w) = Done tt)
  /\ (forall rest id w,
        log (world (updateCategoryItemCount (true :: rest) id w))
        = log w ++ ["Update category item count error:"])
  /\ (forall rest id w,
        log (world (updateCategoryItemCount (false :: true :: rest) id w))
        = log w ++ ["Update category item count error:"])
  /\ (forall fuel rf body w,
        outcome (Relaxed.createItem fuel rf body w)
        = outcome (Relaxed.createItem fuel no_recount_faults body w))
  /\ (forall rf id body w,
        outcome (Relaxed.updateItem rf id body w)
        = outcome (Relaxed.updateItem no_recount_faults id body w))
  /\ (forall rf id status w,
        outcome (Relaxed.updateItemStatus rf id status w)
        = outcome (Relaxed.updateItemStatus no_recount_faults id status w))
  /\ (forall rf id w,
        outcome (Relaxed.deleteItem rf id w)
        = outcome (Relaxed.deleteItem no_recount_faults id w))
  /\ (forall rf ids w,
        outcome (Relaxed.bulkDeleteItems rf ids w)
        = outcome (Relaxed.bulkDeleteItems no_recount_faults ids w))
  /\ (forall rf admin body w,
        outcome (Typed.createItem rf admin body w)
        = outcome (Typed.createItem no_recount_faults admin body w)).
Proof.
  split; [|split; [|split; [|split; [|split; [|split; [|split; [|split]]]]]]].
  - intros rf id w.
    now destruct (recount_effect rf id w) as (cs & lg & -> & _).
  - intros rest id w. destruct (castObjectId id) as [oid|] eqn:E.
    + unfold updateCategoryItemCount, casting. rewrite E. now destruct w.
    + rewrite (CategoryFacts.recount_refused _ _ _ E). now destruct w.
  - intros rest id w. destruct (castObjectId id) as [oid|] eqn:E.
    + unfold updateCategoryItemCount, casting. rewrite E. now destruct w.
    + rewrite (CategoryFacts.recount_refused _ _ _ E). now destruct w.
  - apply createItem_relaxed_ignores.
  - apply updateItem_ignores.
  - apply updateItemStatus_ignores.
  - apply deleteItem_ignores.
  - apply bulkDeleteItems_ignores.
  - apply createItem_typed_ignores.
Qed.

(** For instance, deleting [alien] while the count of the counter
    maintainer is rejected is answered like any successful deletion. *)
Example deleteItem_with_failing_recount :
  outcome (Relaxed.deleteItem (fun _ => [true]) (toString alien_id)
             small_world)
  = Done (ok 200 (Some "Item deleted successfully") NoData).
Proof. reflexivity. Qed.

End ItemFacts.

(** ** Login and the auth middleware *)

Module AuthFacts.
Import Store Http Models CategoryController Auth Spec.

Section WithLibraries.
Context `{Bcrypt} `{Jwt}.

(** What [login] attempts: with passwords that are strings, a login with
    an email that no active admin has and a login with the email of an
    active admin but a password that does not match end the same way,
    in the same world; when the store answers, both are status 401 with
    the message "Invalid email or password". *)
Lemma login_failures_alike_for_strings w email1 (password1 : Json) email2
  (password2 : string) a :
  find (Admin.active_with_email email1) (admins w) = None ->
  find (Admin.active_with_email email2) (admins w) = Some a ->
  bcrypt_compare password2 (IAdmin.password a) = false ->
  login email1 password1 w = login email2 (JString password2) w
  /\ (faults w = [] ->
      refused_with 401 "Invalid email or password" w
        (login email1 password1 w)).
Proof.
  intros H1 H2 Hp.
  unfold login, try_catch, bind, Admin.findOne, Admin.comparePassword, await,
    ret.
  destruct (faults w) as [|[] fs]; cbn; rewrite ?H1, ?H2; cbn;
    rewrite ?Hp; cbn; split; try reflexivity; intros E; try discriminate E.
  exists (failure 401 "Invalid email or password"). now repeat split.
Qed.

(** C5 on the code: the two failures are told apart when the password
    of the request is not a string, which the validator of the route
    ([notEmpty()]) lets through.  The request for an email that no
    active admin has is answered 401 "Invalid email or password"; the
    request for the email of an active admin reaches [bcrypt.compare],
    which rejects the candidate, and is answered 500. *)
Theorem login_tells_failures_apart w email1 email2 password a :
  faults w = [] ->
  find (Admin.active_with_email email1) (admins w) = None ->
  find (Admin.active_with_email email2) (admins w) = Some a ->
  (forall s, password <> JString s) ->
  refused_with 401 "Invalid email or password" w (login email1 password w)
  /\ refused_with 500 "Internal server error"
       (set_log (log w ++ ["Login error:"]) w) (login email2 password w)
  /\ outcome (login email1 password w) <> outcome (login email2 password w).
Proof.
  intros Hf H1 H2 Hp.
  assert (E1 : login email1 password w
               = (Done (failure 401 "Invalid email or password"), w)).
  { unfold login, try_catch, bind, Admin.findOne, await, ret.
    rewrite Hf, H1. reflexivity. }
  assert (E2 : login email2 password w
               = (Done (failure 500 "Internal server error"),
                  set_log (log w ++ ["Login error:"]) w)).
  { unfold login, try_catch, bind, Admin.findOne, Admin.comparePassword,
      await, ret.
    rewrite Hf, H2. cbn beta iota.
    destruct password as [s| | |]; [now destruct (Hp s)|reflexivity..]. }
  rewrite E1, E2. split; [|split].
  - exists (failure 401 "Invalid email or password"). now repeat split.
  - exists (failure 500 "Internal server error"). now repeat split.
  - discriminate.
Qed.

(** C6 on the code: [authenticate] catches whatever [jwt.verify] throws
    and answers "Invalid token." for an expired token exactly as for a
    malformed one. *)
Theorem authenticate_expired_like_malformed w req1 req2 t1 t2 :
  request_token req1 = Some t1 -> Text.is_empty t1 = false ->
  request_token req2 = Some t2 -> Text.is_empty t2 = false ->
  jwt_check t1 = Expired ->
  jwt_check t2 = Malformed ->
  outcome (authenticate req1 w)
  = Done (Responded (failure 401 "Invalid token."))
  /\ outcome (authenticate req2 w)
     = Done (Responded (failure 401 "Invalid token.")).
Proof.
  intros R1 E1 R2 E2 J1 J2.
  unfold authenticate, try_catch, bind, jwt_verify, outcome.
  rewrite R1, R2. cbn. rewrite E1, E2. cbn. rewrite J1, J2.
  split; reflexivity.
Qed.

End WithLibraries.

(** The global error handler does tell the two errors apart; it is not
    reached for errors that [authenticate] has caught. *)
Lemma errorHandler_tells_expired :
  fst (App.errorHandler
         (App.mkErrorObject "TokenExpiredError" None None "jwt expired" [] []))
  = failure 401 "Token expired"
  /\ fst (App.errorHandler
            (App.mkErrorObject "JsonWebTokenError" None None "jwt malformed"
               [] []))
     = failure 401 "Invalid token".
Proof. split; reflexivity. Qed.

Example login_failures_alike_small_world :
  @login toy_bcrypt toy_jwt "nobody@example.com" (JString "secret")
    small_world
  = @login toy_bcrypt toy_jwt "Root@Example.com" (JString "guess") small_world.
Proof.
  exact (proj1 (@login_failures_alike_for_strings toy_bcrypt toy_jwt
                  small_world "nobody@example.com" (JString "secret")
                  "Root@Example.com" "guess" root eq_refl eq_refl eq_refl)).
Qed.

(** The request [{ "email": "root@example.com", "password": 123456 }]
    beside the same for an unknown email. *)
Lemma login_tells_failures_apart_small_world :
  refused_with 401 "Invalid email or password" small_world
    (@login toy_bcrypt toy_jwt "nobody@example.com" (JNumber 123456)
       small_world)
  /\ refused_with 500 "Internal server error"
       (set_log ["Login error:"] small_world)
       (@login toy_bcrypt toy_jwt "root@example.com" (JNumber 123456)
          small_world).
Proof.
  destruct (@login_tells_failures_apart toy_bcrypt toy_jwt small_world
              "nobody@example.com" "root@example.com" (JNumber 123456) root
              eq_refl eq_refl eq_refl) as (H401 & H500 & _).
  - intros s. discriminate.
  - split; [exact H401|exact H500].
Defined.

Lemma authenticate_expired_like_malformed_small_world :
  outcome (@authenticate toy_jwt (mkAuthRequest (Some "Bearer expired") None)
             small_world)
  = Done (Responded (failure 401 "Invalid token."))
  /\ outcome (@authenticate toy_jwt (mkAuthRequest None (Some "garbage"))
                small_world)
     = Done (Responded (failure 401 "Invalid token.")).
Proof.
  apply (@authenticate_expired_like_malformed toy_jwt small_world
           (mkAuthRequest (Some "Bearer expired") None)
           (mkAuthRequest None (Some "garbage")) "expired" "garbage");
    reflexivity.
Defined.

End AuthFacts.

(** ** Slug allocation *)

Module SlugFacts.
Import Store Http Models CategoryController ListFacts Spec TextFacts.

Lemma prefix_append s t : String.prefix s (s ++ t) = true.
Proof.
  induction s as [|c s IH]; cbn; [now destruct t|].
  destruct (Ascii.ascii_dec c c) as [_|E]; [exact IH|now elim E].
Qed.

Lemma prefix_refl s : String.prefix s s = true.
Proof.
  induction s as [|c s IH]; cbn; [reflexivity|].
  destruct (Ascii.ascii_dec c c) as [_|E]; [exact IH|now elim E].
Qed.

Lemma length_append s t :
  String.length (s ++ t) = String.length s + String.length t.
Proof. induction s as [|c s IH]; cbn; [reflexivity|now rewrite IH]. Qed.

Lemma append_suffix_differs s c t : (s ++ String c t)%string <> s.
Proof.
  intros E. apply (f_equal String.length) in E.
  rewrite length_append in E. cbn in E. lia.
Qed.

Lemma all_chars_append p s t :
  Text.all_chars p s = true -> Text.all_chars p t = true ->
  Text.all_chars p (s ++ t) = true.
Proof.
  induction s as [|c s IH]; cbn; intros Hs Ht; [exact Ht|].
  apply andb_true_iff in Hs as [Hc Hs]. now rewrite Hc, IH.
Qed.

Lemma is_empty_append s c t : Text.is_empty (s ++ String c t) = false.
Proof. now destruct s. Qed.

(** One probe of the loop, when the store answers. *)
Lemma category_slug_taken_answered s w :
  faults w = [] ->
  category_slug_taken s w
  = (Done (existsb (Category.by_slug s) (categories w)), w).
Proof.
  intros Hf. unfold category_slug_taken, bind, Category.findOne, await, ret.
  rewrite Hf.
  destruct (find (Category.by_slug s) (categories w)) eqn:E; cbn.
  - destruct (existsb (Category.by_slug s) (categories w)) eqn:X;
      [reflexivity|].
    apply find_none_existsb in X. congruence.
  - apply find_none_existsb in E. now rewrite E.
Qed.

(** The loop stops at the first candidate that no category bears: if the
    candidates [i .. i+n-1] are taken and the candidate [i+n] is free,
    then from candidate [i] the loop returns candidate [i+n], provided it
    may run [n+1] times. *)
Lemma make_unique_first_free base w :
  faults w = [] ->
  forall n i fuel,
    (forall j, j < n ->
       existsb (Category.by_slug (candidate base (i + j))) (categories w)
       = true) ->
    existsb (Category.by_slug (candidate base (i + n))) (categories w)
    = false ->
    n < fuel ->
    make_unique category_slug_taken fuel base (candidate base i) (S i) w
    = (Done (candidate base (i + n)), w).
Proof.
  intros Hf. induction n as [|n IH]; intros i fuel Htaken Hfree Hfuel;
    (destruct fuel as [|fuel]; [lia|]); cbn [make_unique]; unfold bind;
    rewrite (category_slug_taken_answered _ w Hf).
  - rewrite Nat.add_0_r in *. now rewrite Hfree.
  - assert (H0 : existsb (Category.by_slug (candidate base i)) (categories w)
                 = true).
    { specialize (Htaken 0). rewrite Nat.add_0_r in Htaken.
      apply Htaken. lia. }
    rewrite H0.
    change (base ++ "-" ++ Text.show_nat (S i))%string
      with (candidate base (S i)).
    rewrite (IH (S i) fuel).
    + now rewrite Nat.add_succ_r.
    + intros j Hj. rewrite <- (Htaken (S j)) by lia.
      now rewrite Nat.add_succ_r.
    + now rewrite <- Hfree, Nat.add_succ_r.
    + lia.
Qed.

(** The loop always ends: among the first [n + 1] candidates, one is
    borne by none of the [n] stored categories. *)

Lemma show_nat_inj n m : Text.show_nat n = Text.show_nat m -> n = m.
Proof.
  assert (Hread : forall k,
            option_map Nat.of_uint (NilZero.uint_of_string (Text.show_nat k))
            = Some k).
  { intros k. unfold Text.show_nat.
    pose proof (DecimalNat.Unsigned.of_to k) as Hk.
    destruct (Nat.to_uint k) eqn:E;
      [rewrite NilZero.usu_nil; cbn in *; congruence|..];
      (rewrite NilZero.usu by discriminate; cbn [option_map]; congruence). }
  intros E. pose proof (Hread n) as Hn. rewrite E, Hread in Hn. congruence.
Qed.

Lemma append_inj_l s t1 t2 : (s ++ t1 = s ++ t2)%string -> t1 = t2.
Proof.
  induction s as [|c s IH]; cbn; intros E; [exact E|].
  injection E as E. now apply IH.
Qed.

Lemma candidate_inj base i j : candidate base i = candidate base j -> i = j.
Proof.
  destruct i as [|i], j as [|j]; cbn; intros E.
  - reflexivity.
  - symmetry in E. now apply append_suffix_differs in E.
  - now apply append_suffix_differs in E.
  - apply append_inj_l in E. injection E as E. now apply show_nat_inj.
Qed.

(** The candidates as a query has them, cast by the setters of the
    [slug] path, are as distinct as they are when written. *)
Lemma trimStart_append s c t :
  Text.is_space c = false ->
  Text.trimStart (s ++ String c t) = (Text.trimStart s ++ String c t)%string.
Proof.
  intros Hc. induction s as [|d s IH]; cbn.
  - now rewrite Hc.
  - now destruct (Text.is_space d).
Qed.

Lemma trimEnd_append s t :
  Text.is_empty (Text.trimEnd t) = false ->
  Text.trimEnd (s ++ t) = (s ++ Text.trimEnd t)%string.
Proof.
  intros Ht. induction s as [|d s IH]; cbn; [reflexivity|].
  rewrite IH.
  replace (Text.is_empty (s ++ Text.trimEnd t)) with false
    by (destruct s; cbn; [now rewrite Ht|reflexivity]).
  now rewrite andb_false_r.
Qed.

Lemma toLowerCase_append s t :
  Text.toLowerCase (s ++ t)
  = (Text.toLowerCase s ++ Text.toLowerCase t)%string.
Proof.
  unfold Text.toLowerCase. induction s as [|c s IH]; cbn; congruence.
Qed.

Lemma length_trimEnd s : String.length (Text.trimEnd s) <= String.length s.
Proof.
  induction s as [|c s IH]; cbn; [lia|].
  destruct (Text.is_space c && Text.is_empty (Text.trimEnd s)); cbn; lia.
Qed.

Lemma string_of_uint_slug d :
  Text.all_chars Text.is_slug_char (NilEmpty.string_of_uint d) = true.
Proof.
  induction d; cbn [NilEmpty.string_of_uint]; [reflexivity|..];
    (apply all_chars_cons; split; [reflexivity|assumption]).
Qed.

Lemma show_nat_slug n :
  Text.all_chars Text.is_slug_char (Text.show_nat n) = true.
Proof.
  unfold Text.show_nat, NilZero.string_of_uint.
  destruct (Nat.to_uint n); try reflexivity; apply string_of_uint_slug.
Qed.

Lemma cast_suffixed base t :
  Text.all_chars Text.is_slug_char t = true ->
  Text.toLowerCase (Text.trim (base ++ String "-" t))
  = (Text.toLowerCase (Text.trimStart base) ++ String "-" t)%string.
Proof.
  intros Ht.
  assert (Hs : Text.all_chars Text.is_slug_char (String "-" t) = true).
  { apply all_chars_cons. split; [reflexivity|exact Ht]. }
  unfold Text.trim. rewrite trimStart_append by reflexivity.
  rewrite trimEnd_append; rewrite (trimEnd_slug _ Hs); [|reflexivity].
  now rewrite toLowerCase_append, (toLowerCase_slug _ Hs).
Qed.

Lemma cast_base_shorter base t :
  Text.toLowerCase (Text.trim base)
  <> (Text.toLowerCase (Text.trimStart base) ++ String "-" t)%string.
Proof.
  intros E. apply (f_equal String.length) in E.
  rewrite length_append, !ObjectIdFacts.length_toLowerCase in E.
  unfold Text.trim in E.
  pose proof (length_trimEnd (Text.trimStart base)). cbn in E. lia.
Qed.

Lemma cast_candidate_inj base i j :
  Text.toLowerCase (Text.trim (candidate base i))
  = Text.toLowerCase (Text.trim (candidate base j)) ->
  i = j.
Proof.
  destruct i as [|i], j as [|j]; cbn [candidate];
    change (base ++ "-" ++ Text.show_nat ?k)%string
      with (base ++ String "-" (Text.show_nat k))%string;
    rewrite ?cast_suffixed by apply show_nat_slug; intros E.
  - reflexivity.
  - now apply cast_base_shorter in E.
  - symmetry in E. now apply cast_base_shorter in E.
  - apply append_inj_l in E. injection E as E. now apply show_nat_inj.
Qed.

Lemma existsb_by_slug_clean u cs :
  Text.all_chars Text.is_slug_char u = true ->
  existsb (Category.by_slug u) cs = existsb (Category.has_slug u) cs.
Proof.
  intros Hu. unfold Category.by_slug. now rewrite (cast_slug_fixed u Hu).
Qed.

Lemma first_failure (P : nat -> bool) N :
  (forall k, k <= N -> P k = true)
  \/ (exists n, n <= N /\ P n = false /\ forall j, j < n -> P j = true).
Proof.
  induction N as [|N [IH|(n & Hn & Hfree & Hbelow)]].
  - destruct (P 0) eqn:E.
    + left. intros k Hk. now replace k with 0 by lia.
    + right. exists 0. split; [lia|]. split; [exact E|intros j Hj; lia].
  - destruct (P (S N)) eqn:E.
    + left. intros k Hk. destruct (Nat.eq_dec k (S N)) as [->|Hne];
        [exact E|apply IH; lia].
    + right. exists (S N). split; [lia|]. split; [exact E|].
      intros j Hj. apply IH. lia.
  - right. exists n. split; [lia|]. split; [exact Hfree|exact Hbelow].
Qed.

Lemma some_candidate_free base (cs : list ICategory.t) :
  exists n, n <= length cs
    /\ existsb (Category.by_slug (candidate base n)) cs = false
    /\ forall j, j < n ->
         existsb (Category.by_slug (candidate base j)) cs = true.
Proof.
  destruct (first_failure
              (fun k => existsb (Category.by_slug (candidate base k)) cs)
              (length cs)) as [Hall|Hex]; [exfalso|exact Hex].
  assert (Hincl : incl (map (fun k => Text.toLowerCase
                                        (Text.trim (candidate base k)))
                          (seq 0 (S (length cs))))
                    (map ICategory.slug cs)).
  { intros x Hx. apply in_map_iff in Hx as (k & <- & Hk).
    apply in_seq in Hk. specialize (Hall k ltac:(lia)).
    apply existsb_exists in Hall as (c & Hc & E).
    apply String.eqb_eq in E. rewrite <- E. now apply in_map. }
  apply NoDup_incl_length in Hincl.
  - rewrite !length_map, length_seq in Hincl. lia.
  - apply Finite.Injective_map_NoDup; [|apply seq_NoDup].
    intros i j. apply cast_candidate_inj.
Qed.

Lemma make_unique_terminates base w fuel :
  faults w = [] ->
  length (categories w) < fuel ->
  exists n,
    n <= length (categories w)
    /\ make_unique category_slug_taken fuel base base 1 w
       = (Done (candidate base n), w)
    /\ existsb (Category.by_slug (candidate base n)) (categories w) = false.
Proof.
  intros Hf Hfuel.
  destruct (some_candidate_free base (categories w))
    as (n & Hn & Hfree & Htaken).
  exists n. split; [exact Hn|]. split; [|exact Hfree].
  apply (make_unique_first_free base w Hf n 0 fuel); [|exact Hfree|lia].
  intros j Hj. now apply Htaken.
Qed.

Lemma validate_with_slug body s :
  accepted_besides_slug body = true ->
  Text.all_chars Text.is_slug_char s = true ->
  Text.is_empty s = false ->
  Category.cast (with_slug body s)
  = with_slug (Category.cast body) s
  /\ Category.validate (Category.cast (with_slug body s)) = [].
Proof.
  intros Hacc Hchars Hne.
  assert (Hcast : Category.cast (with_slug body s)
                  = with_slug (Category.cast body) s).
  { unfold Category.cast, with_slug. cbn.
    now rewrite (cast_slug_fixed s Hchars). }
  split; [exact Hcast|]. rewrite Hcast.
  unfold accepted_besides_slug, Category.cast in Hacc. cbn in Hacc.
  repeat (apply andb_true_iff in Hacc as [Hacc ?]).
  unfold Category.validate, with_slug. cbn.
  unfold Text.matches_slug_pattern. rewrite Hacc, Hne, Hchars.
  clear Hacc Hchars.
  repeat match goal with
         | E : required _ = true |- _ => rewrite E; clear E
         | E : maxlength _ _ = true |- _ => rewrite E; clear E
         end.
  cbn. destruct (Category.status body); [|reflexivity].
  match goal with E : _ = true |- _ => now rewrite E end.
Qed.

(** [createCategory] for a request without slug, once the loop has
    settled on [u]. *)
Lemma createCategory_named fuel w body name u :
  faults w = [] ->
  Text.truthy (Category.slug body) = false ->
  Category.name body = Some name ->
  Text.is_empty (Text.slugify name) = false ->
  make_unique category_slug_taken fuel (Text.slugify name)
    (Text.slugify name) 1 w = (Done u, w) ->
  Text.all_chars Text.is_slug_char u = true ->
  Text.is_empty u = false ->
  existsb (Category.by_slug u) (categories w) = false ->
  accepted_besides_slug body = true ->
  let c := Category.document (numbered_ObjectId (next_oid w))
             (with_slug (Category.cast body) u) in
  createCategory fuel body w
  = (Done (created (CategoryData c)),
     set_categories (categories w ++ [c])
       (set_next_oid (S (next_oid w)) w))
  /\ ICategory.slug c = u.
Proof.
  intros Hf Hslug Hname Hne Hloop Hchars Hu Hfree Hacc c.
  rewrite (existsb_by_slug_clean u _ Hchars) in Hfree.
  split; [|reflexivity].
  assert (Hn : Text.truthy (Category.name body) = true).
  { rewrite Hname. cbn. destruct name; [discriminate Hne|reflexivity]. }
  destruct (validate_with_slug body u Hacc Hchars Hu) as [Hcast Hvalid].
  assert (Hd : option_map_string Text.slugify (Category.name body)
               = Some (Text.slugify name)) by now rewrite Hname.
  unfold createCategory, try_catch, bind.
  rewrite Hslug, Hn, Hd. cbn [negb andb Text.truthy].
  rewrite Hne. cbn [negb Category.or_default]. rewrite Hloop.
  unfold Category.create, bind, new_ObjectId, await. cbn [faults set_next_oid].
  rewrite Hf. fold (with_slug body u). rewrite Hvalid, Hcast.
  cbn [categories]. fold c.
  replace (ICategory.slug c) with u by reflexivity.
  change (categories (set_next_oid (S (next_oid w)) w)) with (categories w).
  rewrite Hfree. reflexivity.
Qed.

(** C7: from a store in which no slug begins with [s], the slug of the
    name, two successive requests to create a category with that name
    and no slug are both answered 201; the first category gets the slug
    [s], the second the slug [s-1]. *)
Theorem createCategory_twice fuel w body name :
  faults w = [] ->
  2 <= fuel ->
  Text.truthy (Category.slug body) = false ->
  Category.name body = Some name ->
  Text.is_empty (Text.slugify name) = false ->
  (forall c, In c (categories w) ->
             String.prefix (Text.slugify name) (ICategory.slug c) = false) ->
  accepted_besides_slug body = true ->
  exists c1 w1 c2 w2,
    createCategory fuel body w = (Done (created (CategoryData c1)), w1)
    /\ ICategory.slug c1 = Text.slugify name
    /\ createCategory fuel body w1 = (Done (created (CategoryData c2)), w2)
    /\ ICategory.slug c2 = (Text.slugify name ++ "-1")%string.
Proof.
  intros Hf Hfuel Hslug Hname Hne Hprefix Hacc.
  set (s := Text.slugify name) in *.
  assert (Hclean : Text.all_chars Text.is_slug_char s = true)
    by apply slugify_chars.
  assert (Hclean1 : Text.all_chars Text.is_slug_char (s ++ "-1") = true)
    by (apply all_chars_append; [exact Hclean|reflexivity]).
  assert (Hnone : forall t, existsb (Category.has_slug (s ++ t)) (categories w)
                            = false).
  { intros t. apply not_true_iff_false. intros E.
    apply existsb_exists in E as (c & Hc & E).
    apply String.eqb_eq in E. specialize (Hprefix c Hc).
    rewrite E, prefix_append in Hprefix. discriminate. }
  assert (Hfree0 : existsb (Category.by_slug s) (categories w) = false).
  { rewrite (existsb_by_slug_clean s _ Hclean).
    apply not_true_iff_false. intros E.
    apply existsb_exists in E as (c & Hc & E).
    apply String.eqb_eq in E. specialize (Hprefix c Hc).
    rewrite E, prefix_refl in Hprefix. discriminate. }
  destruct (createCategory_named fuel w body name s Hf Hslug Hname Hne)
    as [Hfirst Hs1]; try assumption.
  { apply (make_unique_first_free s w Hf 0 0 fuel);
      [intros j Hj; lia|exact Hfree0|lia]. }
  set (c1 := Category.document (numbered_ObjectId (next_oid w))
               (with_slug (Category.cast body) s)) in *.
  set (w1 := set_categories (categories w ++ [c1])
               (set_next_oid (S (next_oid w)) w)) in *.
  assert (Htaken : existsb (Category.by_slug s) (categories w1) = true).
  { rewrite (existsb_by_slug_clean s _ Hclean).
    cbn [w1 categories set_categories]. rewrite existsb_app.
    cbn [existsb]. unfold Category.has_slug at 2.
    rewrite Hs1, String.eqb_refl. cbn. now rewrite orb_true_r. }
  assert (Hfree1 : existsb (Category.by_slug (s ++ "-1")) (categories w1)
                   = false).
  { rewrite (existsb_by_slug_clean _ _ Hclean1).
    cbn [w1 categories set_categories]. rewrite existsb_app, Hnone.
    cbn [existsb orb]. unfold Category.has_slug. rewrite Hs1, orb_false_r.
    apply String.eqb_neq. intros E. symmetry in E.
    exact (append_suffix_differs _ _ _ E). }
  destruct (createCategory_named fuel w1 body name (s ++ "-1") Hf Hslug Hname
              Hne) as [Hsecond Hs2]; try assumption.
  { apply (make_unique_first_free s w1 Hf 1 0 fuel).
    - intros j Hj. assert (j = 0) as -> by lia. exact Htaken.
    - exact Hfree1.
    - lia. }
  { apply is_empty_append. }
  do 4 eexists. split; [exact Hfirst|]. split; [exact Hs1|].
  split; [exact Hsecond|exact Hs2].
Qed.

Lemma createCategory_twice_science_fiction :
  exists c1 w1 c2 w2,
    createCategory 2 science_fiction small_world
    = (Done (created (CategoryData c1)), w1)
    /\ ICategory.slug c1 = "science-fiction"
    /\ createCategory 2 science_fiction w1
       = (Done (created (CategoryData c2)), w2)
    /\ ICategory.slug c2 = "science-fiction-1".
Proof.
  apply (createCategory_twice 2 small_world science_fiction
           "Science  Fiction!").
  - reflexivity.
  - lia.
  - reflexivity.
  - reflexivity.
  - reflexivity.
  - intros c [<-|[<-|[]]]; reflexivity.
  - reflexivity.
Defined.

(** A slug that the request writes in capitals meets the stored slug,
    since the query is cast: the loop goes on to the next candidate, and
    the category is stored with it in lower case. *)
Example createCategory_slug_in_capitals :
  exists c w',
    createCategory 2
      (Category.mkFields (Some "Films") (Some "Movies") (Some "More of them")
         None None None None) small_world
    = (Done (created (CategoryData c)), w')
    /\ ICategory.slug c = "movies-1".
Proof. do 2 eexists. split; reflexivity. Qed.

End SlugFacts.

(** ** Pagination *)

Module PageFacts.
Import Store Http Models CategoryController ItemController Spec.

Lemma second_page_shape {D} (l : list D) :
  length l = 25 ->
  skip_limit 10 10 l = positions_11_to_20 l
  /\ length (positions_11_to_20 l) = 10
  /\ forall k, k < 10 ->
       nth_error (positions_11_to_20 l) k = nth_error l (10 + k).
Proof.
  intros Hl. unfold positions_11_to_20. split; [reflexivity|]. split.
  - rewrite length_firstn, length_skipn, Hl. reflexivity.
  - intros k Hk. rewrite nth_error_firstn, nth_error_skipn.
    apply Nat.ltb_lt in Hk. now rewrite Hk.
Qed.

Lemma pagination_page_two q :
  page q = Some 2%positive -> limit q = Some 10%positive ->
  pageNum q = 2 /\ limitNum q = 10
  /\ pagination q 25 = second_page_of_three.
Proof.
  intros Hp Hl. unfold pagination, pageNum, limitNum. rewrite Hp, Hl.
  repeat split.
Qed.

Section WithEngine.
Context `{QueryEngine}.

Lemma getCategories_page_two q w :
  faults w = [] ->
  page q = Some 2%positive ->
  limit q = Some 10%positive ->
  length (filter (category_query q) (categories w)) = 25 ->
  getCategories q w
  = (Done (ok 200 None
             (CategoriesData
                (positions_11_to_20
                   (sort_categories (sort_field q) (sort_asc q)
                      (filter (category_query q) (categories w))))
                second_page_of_three)), w).
Proof.
  intros Hf Hp Hl Hlen.
  destruct (pagination_page_two q Hp Hl) as (Hpage & Hlimit & Hpg).
  set (sorted := sort_categories (sort_field q) (sort_asc q)
                   (filter (category_query q) (categories w))).
  assert (Hsorted : length sorted = 25).
  { unfold sorted.
    now rewrite (Permutation_length (sort_categories_perm _ _ _)). }
  destruct (second_page_shape sorted Hsorted) as (Hskip & _).
  unfold getCategories, try_catch, bind, Category.find_page,
    Category.countDocuments, await, ret.
  rewrite Hf. cbn beta iota. rewrite Hf. cbn beta iota.
  rewrite Hpage, Hlimit, Hlen, Hpg. cbn [Nat.sub Nat.mul Nat.add].
  fold sorted. now rewrite Hskip.
Qed.

Lemma getItems_page_two q category w :
  faults w = [] ->
  page q = Some 2%positive ->
  limit q = Some 10%positive ->
  Relaxed.category_filter q = Some category ->
  length (filter (Relaxed.item_query q category) (items w)) = 25 ->
  Relaxed.getItems q w
  = (Done (ok 200 None
             (ItemsData
                (map (Item.with_category w)
                   (positions_11_to_20
                      (sort_items (sort_field q) (sort_asc q)
                         (filter (Relaxed.item_query q category) (items w)))))
                second_page_of_three)), w).
Proof.
  intros Hf Hp Hl Hc Hlen.
  destruct (pagination_page_two q Hp Hl) as (Hpage & Hlimit & Hpg).
  set (sorted := sort_items (sort_field q) (sort_asc q)
                   (filter (Relaxed.item_query q category) (items w))).
  assert (Hsorted : length sorted = 25).
  { unfold sorted.
    now rewrite (Permutation_length (sort_items_perm _ _ _)). }
  destruct (second_page_shape sorted Hsorted) as (Hskip & _).
  unfold Relaxed.getItems. rewrite Hc.
  unfold try_catch, bind, Item.find_page, Item.countDocuments, await, ret.
  rewrite Hf. cbn beta iota. rewrite Hf. cbn beta iota.
  rewrite Hpage, Hlimit, Hlen, Hpg. cbn [Nat.sub Nat.mul Nat.add].
  fold sorted. now rewrite Hskip.
Qed.

(** C9: a list request with [page=2] and [limit=10] over exactly 25
    matching records is answered 200 with, as its data, the 10 records
    at positions 11 to 20 of the sorted matches and a pagination whose
    fields are [current = 2], [pages = 3], [total = 25], [limit = 10],
    [hasNext] and [hasPrev] both true; for categories and for items
    alike (the items with their category populated, and for a
    [category] of the query that can be read as an id). *)
Theorem page_two_of_twenty_five q w :
  faults w = [] ->
  page q = Some 2%positive ->
  limit q = Some 10%positive ->
  (length (filter (category_query q) (categories w)) = 25 ->
   let sorted := sort_categories (sort_field q) (sort_asc q)
                   (filter (category_query q) (categories w)) in
   exists res records pagination,
     getCategories q w = (Done res, w)
     /\ Http.status res = 200
     /\ Http.success res = true
     /\ Http.data res = CategoriesData records pagination
     /\ records = positions_11_to_20 sorted
     /\ length records = 10
     /\ (forall k, k < 10 -> nth_error records k = nth_error sorted (10 + k))
     /\ is_second_page_of_three pagination)
  /\ (forall category,
      Relaxed.category_filter q = Some category ->
      length (filter (Relaxed.item_query q category) (items w)) = 25 ->
      let sorted := sort_items (sort_field q) (sort_asc q)
                      (filter (Relaxed.item_query q category) (items w)) in
      exists res records pagination,
        Relaxed.getItems q w = (Done res, w)
        /\ Http.status res = 200
        /\ Http.success res = true
        /\ Http.data res = ItemsData records pagination
        /\ map Http.doc records = positions_11_to_20 sorted
        /\ records = map (Item.with_category w) (positions_11_to_20 sorted)
        /\ length records = 10
        /\ (forall k, k < 10 ->
              nth_error (map Http.doc records) k = nth_error sorted (10 + k))
        /\ is_second_page_of_three pagination).
Proof.
  intros Hf Hp Hl. split.
  - intros Hlen sorted.
    assert (Hsorted : length sorted = 25).
    { unfold sorted.
      now rewrite (Permutation_length (sort_categories_perm _ _ _)). }
    destruct (second_page_shape sorted Hsorted) as (_ & Hten & Hnth).
    exists (ok 200 None
              (CategoriesData (positions_11_to_20 sorted)
                 second_page_of_three)),
      (positions_11_to_20 sorted), second_page_of_three.
    split; [now apply getCategories_page_two|].
    repeat split; assumption.
  - intros category Hc Hlen sorted.
    assert (Hsorted : length sorted = 25).
    { unfold sorted.
      now rewrite (Permutation_length (sort_items_perm _ _ _)). }
    destruct (second_page_shape sorted Hsorted) as (_ & Hten & Hnth).
    assert (Hdocs : map Http.doc
                      (map (Item.with_category w) (positions_11_to_20 sorted))
                    = positions_11_to_20 sorted).
    { rewrite map_map. cbn [Item.with_category Http.doc]. apply map_id. }
    exists (ok 200 None
              (ItemsData
                 (map (Item.with_category w) (positions_11_to_20 sorted))
                 second_page_of_three)),
      (map (Item.with_category w) (positions_11_to_20 sorted)),
      second_page_of_three.
    split; [now apply getItems_page_two|].
    split; [reflexivity|]. split; [reflexivity|]. split; [reflexivity|].
    split; [exact Hdocs|]. split; [reflexivity|].
    split; [now rewrite length_map|].
    split; [intros k Hk; rewrite Hdocs; now apply Hnth|].
    now repeat split.
Qed.

End WithEngine.

Lemma page_two_of_twenty_five_library :
  (exists res pagination,
     @getCategories plain_engine page_two library = (Done res, library)
     /\ Http.status res = 200
     /\ Http.data res
        = CategoriesData (map numbered_category (seq 11 10)) pagination
     /\ is_second_page_of_three pagination)
  /\ (exists res records pagination,
        @Relaxed.getItems plain_engine page_two library = (Done res, library)
        /\ Http.status res = 200
        /\ Http.data res = ItemsData records pagination
        /\ map Http.doc records = map numbered_item (seq 11 10)
        /\ is_second_page_of_three pagination).
Proof.
  destruct (@page_two_of_twenty_five plain_engine page_two library
              eq_refl eq_refl eq_refl) as [Hc Hi].
  destruct (Hc eq_refl)
    as (res & records & pg & E & Hs & _ & Hd & Hr & _ & _ & Hpg).
  destruct (Hi None eq_refl eq_refl)
    as (res' & records' & pg' & E' & Hs' & _ & Hd' & Hr' & _ & _ & _ & Hpg').
  split.
  - exists res, pg. subst records.
    split; [exact E|]. split; [exact Hs|]. split; [exact Hd|exact Hpg].
  - exists res', records', pg'.
    split; [exact E'|]. split; [exact Hs'|]. split; [exact Hd'|].
    split; [exact Hr'|exact Hpg'].
Defined.

End PageFacts.

(** ** Some runs on the small store *)

Module Runs.
Import Store Http Models CategoryController ItemController Auth Spec.

Example create_heat_twice :
  let first := Relaxed.createItem 3 no_recount_faults heat small_world in
  let second := Relaxed.createItem 3 no_recount_faults heat (world first) in
  item_slug first = Some "heat"
  /\ item_slug second = Some "heat-1"
  /\ counters (world first) = [2; 0]
  /\ counters (world second) = [3; 0].
Proof. vm_compute. repeat split. Qed.

(** The id of the category may come in capitals: the item is created
    in the category with these digits, and counted there. *)
Example create_heat_in_capitals :
  let body := mkBody (Some "Heat") None None (Some movies_id_in_capitals)
                (Some "active") None in
  let r := Relaxed.createItem 3 no_recount_faults body small_world in
  option_map Http.status
    (match outcome r with Done res => Some res | _ => None end) = Some 201
  /\ map IItem.category (items (world r))
     = [movies_id; movies_id; games_id; movies_id]
  /\ counters (world r) = [2; 0].
Proof. vm_compute. repeat split. Qed.

Example publish_brazil :
  let r := Relaxed.updateItemStatus no_recount_faults (toString brazil_id)
             (Some "active") small_world in
  option_map Http.status
    (match outcome r with Done res => Some res | _ => None end) = Some 200
  /\ counters (world r) = [2; 0].
Proof. vm_compute. split; reflexivity. Qed.

Example bulk_delete_two :
  let r := Relaxed.bulkDeleteItems no_recount_faults
             (Some [toString alien_id; toString doom_id]) small_world in
  outcome r = Done (ok 200 (Some "2 items deleted successfully") NoData)
  /\ map IItem._id (items (world r)) = [brazil_id]
  /\ counters (world r) = [0; 0].
Proof. vm_compute. repeat split. Qed.

Example bulk_delete_with_a_string_that_is_no_id :
  let r := Relaxed.bulkDeleteItems no_recount_faults
             (Some [toString alien_id; not_an_id]) small_world in
  outcome r = Done (failure 500 "Internal server error")
  /\ items (world r) = items small_world.
Proof. vm_compute. split; reflexivity. Qed.

Example delete_games_once_empty :
  let w := world (Relaxed.deleteItem no_recount_faults (toString doom_id)
                    small_world) in
  outcome (deleteCategory (toString games_id) w)
  = Done (ok 200 (Some "Category deleted successfully") NoData)
  /\ categories (world (deleteCategory (toString games_id) w)) = [movies].
Proof. vm_compute. split; reflexivity. Qed.

Example rejected_lookup_is_internal_error :
  outcome (deleteCategory (toString movies_id)
             (set_faults [true] small_world))
  = Done (failure 500 "Internal server error").
Proof. reflexivity. Qed.

Example authenticate_signed_token :
  outcome (@authenticate toy_jwt
             (mkAuthRequest (Some "Bearer signed:65a1f0c2d3e4f5a6b7c8db01")
                None) small_world)
  = Done (Next (Admin.without_password root)).
Proof. reflexivity. Qed.

Example login_root :
  option_map Http.status
    (match outcome (@login toy_bcrypt toy_jwt "root@example.com"
                      (JString "secret") small_world) with
     | Done res => Some res
     | _ => None
     end) = Some 200.
Proof. reflexivity. Qed.

End Runs.

(** ** The auth middleware *)

Module MiddlewareFacts.
Import Store Http Models CategoryController Auth Middleware Spec.

Lemma substring_all s : String.substring 0 (String.length s) s = s.
Proof. induction s as [|c s IH]; cbn; [reflexivity|now rewrite IH]. Qed.

Lemma strip_bearer t :
  replace_first "Bearer " "" ("Bearer " ++ t)%string = t.
Proof.
  destruct t as [|c t]; [reflexivity|].
  cbn. now rewrite substring_all.
Qed.

(** X1: A bearer header yields exactly what follows ["Bearer "] and takes
    precedence over the cookie; a header that carries no token, or no
    header, leaves the cookie's token. *)
Theorem request_token_sources t cookie :
  (Text.is_empty t = false ->
   request_token (mkAuthRequest (Some ("Bearer " ++ t)%string) cookie)
   = Some t)
  /\ request_token (mkAuthRequest (Some "Bearer ") cookie) = cookie
  /\ request_token (mkAuthRequest None cookie) = cookie.
Proof.
  split; [|split; reflexivity].
  intros Ht. unfold request_token. cbn [authorization option_map_string].
  rewrite strip_bearer. cbn [Text.truthy]. now rewrite Ht.
Qed.

Lemma request_token_sources_signed :
  request_token
    (mkAuthRequest (Some "Bearer signed:65a1f0c2d3e4f5a6b7c8db01")
       (Some "stale"))
  = Some "signed:65a1f0c2d3e4f5a6b7c8db01".
Proof.
  destruct (request_token_sources "signed:65a1f0c2d3e4f5a6b7c8db01"
              (Some "stale")) as [H _].
  apply H. reflexivity.
Defined.

Section WithJwt.
Context `{Jwt}.

(** What the outcome of [authenticate] is, case by case. *)
Lemma authenticate_cases req w :
  outcome (authenticate req w)
  = if negb (Text.truthy (request_token req))
    then Done (Responded (failure 401 "Access denied. No token provided."))
    else
      match jwt_check (Category.or_default "" (request_token req)) with
      | Payload_id id =>
          match faults w with
          | true :: _ => Done (Responded (failure 401 "Invalid token."))
          | _ =>
              match find (Admin.by_id id) (admins w) with
              | None =>
                  Done (Responded
                          (failure 401 "Invalid token. Admin not found."))
              | Some a0 =>
                  if IAdmin.isActive a0
                  then Done (Next (Admin.without_password a0))
                  else Done (Responded
                               (failure 401
                                  "Account is inactive. Please contact administrator."))
              end
          end
      | _ => Done (Responded (failure 401 "Invalid token."))
      end.
Proof.
  unfold authenticate, try_catch, bind, jwt_verify, Admin.findById_select,
    await, outcome.
  destruct (negb (Text.truthy (request_token req))); [reflexivity|].
  destruct (jwt_check _); try reflexivity. cbn.
  destruct (faults w) as [|[] fs]; cbn; try reflexivity;
    destruct (find (Admin.by_id id) (admins w)) as [a0|]; cbn;
    try reflexivity; destruct (IAdmin.isActive a0); reflexivity.
Qed.

(** X2: [authenticate] calls [next()] only for a request whose token
    [jwt.verify] accepts and names a stored, active admin; the admin it
    attaches is that document without its password. *)
Theorem authenticate_lets_through req w a :
  outcome (authenticate req w) = Done (Next a) ->
  exists token id stored,
    request_token req = Some token
    /\ jwt_check token = Payload_id id
    /\ find (Admin.by_id id) (admins w) = Some stored
    /\ IAdmin.isActive stored = true
    /\ a = Admin.without_password stored
    /\ IAdmin.password a = "".
Proof.
  rewrite authenticate_cases.
  destruct (request_token req) as [token|] eqn:Et; cbn; [|discriminate].
  destruct (Text.is_empty token); cbn; [discriminate|].
  destruct (jwt_check token) as [id| | |] eqn:Ej; try discriminate.
  assert (Hfind : match find (Admin.by_id id) (admins w) with
                  | Some a0 =>
                      if IAdmin.isActive a0
                      then Done (Next (Admin.without_password a0))
                      else Done (Responded
                                   (failure 401
                                      "Account is inactive. Please contact administrator."))
                  | None =>
                      Done (Responded
                              (failure 401 "Invalid token. Admin not found."))
                  end = Done (Next a) ->
                  exists stored,
                    find (Admin.by_id id) (admins w) = Some stored
                    /\ IAdmin.isActive stored = true
                    /\ a = Admin.without_password stored).
  { destruct (find (Admin.by_id id) (admins w)) as [a0|]; [|discriminate].
    destruct (IAdmin.isActive a0) eqn:Ea; [|discriminate].
    intros E. injection E as <-. now exists a0. }
  intros E.
  assert (E' : exists stored,
             find (Admin.by_id id) (admins w) = Some stored
             /\ IAdmin.isActive stored = true
             /\ a = Admin.without_password stored).
  { destruct (faults w) as [|[] fs]; [now apply Hfind|discriminate E|
                                       now apply Hfind]. }
  destruct E' as (stored & Hs & Hact & ->).
  exists token, id, stored. repeat split; assumption.
Qed.

(** X3: [optionalAuth] never answers the request and never throws; it
    attaches an admin exactly when [authenticate] would let the request
    through, and then the same admin. *)
Theorem optionalAuth_agrees req w :
  (exists attached, outcome (optionalAuth req w) = Done attached)
  /\ forall a,
       outcome (optionalAuth req w) = Done (Some a)
       <-> outcome (authenticate req w) = Done (Next a).
Proof.
  rewrite authenticate_cases.
  unfold optionalAuth, try_catch, bind, jwt_verify, Admin.findById_select,
    await, outcome.
  destruct (Text.truthy (request_token req)); cbn;
    [|split; [now eexists|intros a; split; discriminate]].
  destruct (jwt_check _); cbn;
    try (split; [now eexists|intros a; split; discriminate]).
  destruct (faults w) as [|[] fs]; cbn;
    try (split; [now eexists|intros a; split; discriminate]);
    (destruct (find (Admin.by_id id) (admins w)) as [a0|]; cbn;
     [destruct (IAdmin.isActive a0); cbn|]);
    (split; [now eexists|intros a; split; intros E;
                          try discriminate E; now injection E as <-]).
Qed.

(** X4: Behind [authenticate, authorize(...roles)] the handler runs only for
    a stored, active admin whose role is listed; an answer of status 403
    is only ever given to a request that [authenticate] let through. *)
Theorem guarded_route roles req w :
  (forall a,
     outcome (guarded roles req w) = Done (Next a) ->
     outcome (authenticate req w) = Done (Next a)
     /\ In (IAdmin.role a) roles)
  /\ (forall res,
        outcome (guarded roles req w) = Done (Responded res) ->
        Http.status res = 403 ->
        exists a, outcome (authenticate req w) = Done (Next a)
                  /\ ~ In (IAdmin.role a) roles).
Proof.
  assert (Hrole : forall a,
            existsb (String.eqb (IAdmin.role a)) roles = true
            <-> In (IAdmin.role a) roles).
  { intros a. rewrite existsb_exists. split.
    - intros (r & Hr & E). apply String.eqb_eq in E. now subst.
    - intros Hin. exists (IAdmin.role a). split; [exact Hin|].
      apply String.eqb_refl. }
  unfold guarded, bind, outcome.
  destruct (authenticate req w) as [[[res0|a0]|e|] w'] eqn:E; cbn;
    unfold authorize.
  - split; [intros a Ha; discriminate Ha|].
    intros res Hres Hst. injection Hres as <-.
    pose proof (authenticate_cases req w) as Hc. unfold outcome in Hc.
    rewrite E in Hc. cbn in Hc.
    exfalso.
    repeat match type of Hc with
           | _ = (if ?b then _ else _) => destruct b
           | _ = match ?x with _ => _ end => destruct x
           end; try discriminate Hc; injection Hc as ->; discriminate Hst.
  - destruct (existsb (String.eqb (IAdmin.role a0)) roles) eqn:Er; cbn.
    + split.
      * intros a Ha. injection Ha as <-. split; [reflexivity|].
        now apply Hrole.
      * intros res Hres. discriminate Hres.
    + split.
      * intros a Ha. discriminate Ha.
      * intros res _ _. exists a0. split; [reflexivity|].
        intros Hin. apply Hrole in Hin. congruence.
  - split; [intros a Ha; discriminate Ha|intros res Hres; discriminate Hres].
  - split; [intros a Ha; discriminate Ha|intros res Hres; discriminate Hres].
Qed.

End WithJwt.

Lemma authenticate_lets_through_root :
  exists stored,
    find (Admin.by_id root_id) (admins small_world) = Some stored
    /\ IAdmin.isActive stored = true.
Proof.
  destruct (@authenticate_lets_through toy_jwt
              (mkAuthRequest (Some "Bearer signed:65a1f0c2d3e4f5a6b7c8db01")
                 None)
              small_world (Admin.without_password root) eq_refl)
    as (token & id & stored & Ht & Hj & Hs & Ha & _).
  exists stored. split; [|exact Ha].
  cbv in Ht. injection Ht as <-. cbv in Hj. injection Hj as <-. exact Hs.
Defined.

Lemma guarded_route_root :
  In (IAdmin.role (Admin.without_password root)) ["super_admin"].
Proof.
  destruct (@guarded_route toy_jwt ["super_admin"]
              (mkAuthRequest (Some "Bearer signed:65a1f0c2d3e4f5a6b7c8db01")
                 None) small_world) as [H _].
  destruct (H (Admin.without_password root) eq_refl) as [_ Hin].
  exact Hin.
Defined.

End MiddlewareFacts.

(** ** Invariants of the taxonomy *)

Module KeepFacts.
Import Store Http Models CategoryController Spec Invariants.

Lemma keeps_ret {A} I (a : A) : keeps I (ret a).
Proof. intros w H. exact H. Qed.

Lemma keeps_throw {A} I e : keeps I (@throw A e).
Proof. intros w H. exact H. Qed.

Lemma keeps_casting {A} I s (q : ObjectId -> M A) :
  (forall id, keeps I (q id)) -> keeps I (casting s q).
Proof.
  intros H. unfold casting.
  destruct (castObjectId s); [apply H|apply keeps_throw].
Qed.

Lemma keeps_bind {A B} I (m : M A) (k : A -> M B) :
  keeps I m -> (forall a, keeps I (k a)) -> keeps I (bind m k).
Proof.
  intros Hm Hk w H. specialize (Hm w H). unfold bind, world in *.
  destruct (m w) as [[a| |] w']; cbn in *; try exact Hm.
  now apply Hk.
Qed.

Lemma keeps_try_catch {A} I (m : M A) h :
  keeps I m -> (forall e, keeps I (h e)) -> keeps I (try_catch m h).
Proof.
  intros Hm Hh w H. specialize (Hm w H). unfold try_catch, world in *.
  destruct (m w) as [[a|e|] w']; cbn in *; try exact Hm.
  now apply Hh.
Qed.

Lemma keeps_await {A} I (call : M A) :
  about_store I -> keeps I call -> keeps I (await call).
Proof.
  intros Hs Hc w H. unfold await, world.
  destruct (faults w) as [|[] fs] eqn:E.
  - now apply Hc.
  - cbn. now apply (Hs w).
  - apply Hc. now apply (Hs w).
Qed.

Lemma keeps_read {A} I (f : World -> A) :
  keeps I (fun w => (Done (f w), w)).
Proof. intros w H. exact H. Qed.

Lemma keeps_logger_error I msg : about_store I -> keeps I (logger_error msg).
Proof. intros Hs w H. now apply (Hs w). Qed.

Lemma keeps_new_ObjectId I : about_store I -> keeps I new_ObjectId.
Proof. intros Hs w H. now apply (Hs w). Qed.

Lemma keeps_internal_error I label e :
  about_store I -> keeps I (internal_error label e).
Proof.
  intros Hs. unfold internal_error. apply keeps_bind.
  - now apply keeps_logger_error.
  - intros _. apply keeps_ret.
Qed.

Lemma keeps_findOne I q : about_store I -> keeps I (Category.findOne q).
Proof. intros Hs. apply keeps_await; [exact Hs|apply keeps_read]. Qed.

Lemma keeps_findById I id : about_store I -> keeps I (Category.findById id).
Proof. intros Hs. apply keeps_await; [exact Hs|apply keeps_read]. Qed.

Lemma keeps_make_unique I taken fuel base u n :
  (forall s, keeps I (taken s)) -> keeps I (make_unique taken fuel base u n).
Proof.
  intros Ht. revert u n. induction fuel as [|fuel IH]; intros u n.
  - intros w H. exact H.
  - cbn [make_unique]. apply keeps_bind; [apply Ht|].
    intros []; [apply IH|apply keeps_ret].
Qed.

Lemma keeps_category_slug_taken I s :
  about_store I -> keeps I (category_slug_taken s).
Proof.
  intros Hs. unfold category_slug_taken. apply keeps_bind.
  - now apply keeps_findOne.
  - intros found. apply keeps_ret.
Qed.

Lemma bind_run {A B} (m : M A) (k : A -> M B) w :
  bind m k w
  = match m w with
    | (Done a, w') => k a w'
    | (Thrown e, w') => (Thrown e, w')
    | (OutOfFuel, w') => (OutOfFuel, w')
    end.
Proof. reflexivity. Qed.

Lemma try_catch_run {A} (m : M A) h w :
  try_catch m h w
  = match m w with
    | (Thrown e, w') => h e w'
    | r => r
    end.
Proof. reflexivity. Qed.

Lemma taxonomy_about_store : about_store taxonomy_ok.
Proof.
  intros w w' Hc _ _. unfold taxonomy_ok, unique_ids, unique_slugs,
    slugs_match. now rewrite Hc.
Qed.

Lemma app_nil_both {A} (l1 l2 : list A) : l1 ++ l2 = [] -> l1 = [] /\ l2 = [].
Proof. destruct l1; [now split|discriminate]. Qed.

(** A document that the validators of a new category accept has a slug
    of the right form. *)
Lemma validate_slug f :
  Category.validate f = [] ->
  exists s, Category.slug f = Some s /\ Text.matches_slug_pattern s = true.
Proof.
  unfold Category.validate. intros H.
  apply app_nil_both in H as [_ H]. apply app_nil_both in H as [_ H].
  apply app_nil_both in H as [Hreq H]. apply app_nil_both in H as [Hmatch _].
  destruct (Category.slug f) as [s|]; cbn in *; [|discriminate Hreq].
  exists s. split; [reflexivity|].
  destruct (Text.is_empty s); cbn in *; [discriminate Hreq|].
  now destruct (Text.matches_slug_pattern s).
Qed.

Lemma not_in_slugs s cs :
  existsb (Category.has_slug s) cs = false -> ~ In s (map ICategory.slug cs).
Proof.
  intros E Hin. apply in_map_iff in Hin as (c & Hc & Hin).
  assert (existsb (Category.has_slug s) cs = true); [|congruence].
  apply existsb_exists. exists c. split; [exact Hin|].
  unfold Category.has_slug. rewrite Hc. apply String.eqb_refl.
Qed.

Lemma NoDup_snoc {A} (l : list A) x : NoDup l -> ~ In x l -> NoDup (l ++ [x]).
Proof.
  intros Hl Hx. apply NoDup_app; [exact Hl|repeat constructor; intros []|].
  intros y Hy [<-|[]]. contradiction.
Qed.

End KeepFacts.

(** ** Creating and updating categories *)

Module CategoryMoreFacts.
Import Store Http Models CategoryController CategoryMore Spec Invariants
  KeepFacts ListFacts.

Lemma slugs_about_store : about_store slugs_ok.
Proof.
  intros w w' Hc _ _. unfold slugs_ok, unique_slugs, slugs_match.
  now rewrite Hc.
Qed.

Lemma insert_keeps_slugs (document : ObjectId -> Category.Fields -> ICategory.t)
  (rejected : string -> list string -> Err) id fields :
  (forall f, ICategory.slug (document id f)
             = Category.or_default "" (Category.slug f)) ->
  keeps slugs_ok
    (fun w =>
       let f := Category.cast fields in
       match Category.validate f with
       | e :: es => (Thrown (rejected e es), w)
       | [] =>
           let c := document id f in
           if existsb (Category.has_slug (ICategory.slug c)) (categories w)
           then (Thrown (DuplicateKey "slug"), w)
           else (Done c, set_categories (categories w ++ [c]) w)
       end).
Proof.
  intros Hslug w [Hu Hm]. unfold world. cbv zeta.
  destruct (Category.validate (Category.cast fields)) eqn:Ev; [|now split].
  destruct (existsb _ (categories w)) eqn:Ex; [now split|]. cbn.
  destruct (validate_slug _ Ev) as (s & Hs & Hpat).
  split.
  - unfold unique_slugs. cbn. rewrite map_app. cbn.
    apply NoDup_snoc; [exact Hu|]. now apply not_in_slugs.
  - unfold slugs_match. cbn. apply Forall_app. split; [exact Hm|].
    constructor; [|constructor]. now rewrite Hslug, Hs.
Qed.

Lemma create_keeps_slugs fields : keeps slugs_ok (Category.create fields).
Proof.
  unfold Category.create. apply keeps_bind.
  - apply keeps_new_ObjectId, slugs_about_store.
  - intros id. apply keeps_await; [apply slugs_about_store|].
    now apply (insert_keeps_slugs Category.document).
Qed.

Lemma create_typed_keeps_slugs fields : keeps slugs_ok (create_typed fields).
Proof.
  unfold create_typed. apply keeps_bind.
  - apply keeps_new_ObjectId, slugs_about_store.
  - intros id. apply keeps_await; [apply slugs_about_store|].
    now apply (insert_keeps_slugs typed_document).
Qed.

(** Creation only appends: what is true of the stored categories one by
    one, and of the items, stays true. *)
Lemma insert_keeps_members (document : ObjectId -> Category.Fields -> ICategory.t)
  (rejected : string -> list string -> Err) id fields c0 its :
  keeps (fun w => In c0 (categories w) /\ items w = its)
    (fun w =>
       let f := Category.cast fields in
       match Category.validate f with
       | e :: es => (Thrown (rejected e es), w)
       | [] =>
           let c := document id f in
           if existsb (Category.has_slug (ICategory.slug c)) (categories w)
           then (Thrown (DuplicateKey "slug"), w)
           else (Done c, set_categories (categories w ++ [c]) w)
       end).
Proof.
  intros w [Hin Hits]. unfold world. cbv zeta.
  destruct (Category.validate (Category.cast fields)); [|now split].
  destruct (existsb _ (categories w)); [now split|]. cbn.
  split; [apply in_or_app; now left|exact Hits].
Qed.

Lemma members_about_store c0 its :
  about_store (fun w => In c0 (categories w) /\ items w = its).
Proof. intros w w' Hc Hi _. now rewrite Hc, Hi. Qed.

Lemma createCategory_keeps I fuel body :
  about_store I ->
  (forall fields, keeps I (Category.create fields)) ->
  keeps I (createCategory fuel body).
Proof.
  intros Hs Hc. unfold createCategory. apply keeps_try_catch.
  - match goal with |- keeps _ (if ?b then _ else _) => destruct b end;
      [apply keeps_ret|].
    apply keeps_bind.
    + apply keeps_make_unique. intros s. now apply keeps_category_slug_taken.
    + intros u. apply keeps_bind; [apply Hc|]. intros c. apply keeps_ret.
  - intros e. now apply keeps_internal_error.
Qed.

Lemma createCategory_typed_keeps I body :
  about_store I ->
  (forall fields, keeps I (create_typed fields)) ->
  keeps I (createCategory_typed body).
Proof.
  intros Hs Hc. unfold createCategory_typed. apply keeps_try_catch.
  - apply keeps_bind; [now apply keeps_findOne|]. intros found.
    destruct (is_some found); [apply keeps_ret|].
    apply keeps_bind; [apply Hc|]. intros c. apply keeps_ret.
  - intros e. now apply keeps_internal_error.
Qed.

Lemma create_keeps_members fields c0 its :
  keeps (fun w => In c0 (categories w) /\ items w = its)
    (Category.create fields).
Proof.
  unfold Category.create. apply keeps_bind.
  - apply keeps_new_ObjectId, members_about_store.
  - intros id. apply keeps_await; [apply members_about_store|].
    apply (insert_keeps_members Category.document).
Qed.

Lemma create_keeps_items fields its :
  keeps (fun w => items w = its) (Category.create fields).
Proof.
  unfold Category.create. apply keeps_bind.
  - intros a Ha. exact Ha.
  - intros id. apply keeps_await.
    + intros a b _ Hi _ Ha. now rewrite <- Hi.
    + intros a Ha. unfold world. cbv zeta.
      destruct (Category.validate _); [|exact Ha].
      destruct (existsb _ _); exact Ha.
Qed.

(** X5: Whatever the request, the number of probes allowed and the fate of
    the store calls, the relaxed [createCategory] leaves the slugs
    pairwise distinct and of the form [[a-z0-9-]+], keeps every stored
    category as it is and does not touch the items. *)
Theorem createCategory_keeps_slugs fuel body w :
  slugs_ok w ->
  slugs_ok (world (createCategory fuel body w))
  /\ (forall c, In c (categories w) ->
                In c (categories (world (createCategory fuel body w))))
  /\ items (world (createCategory fuel body w)) = items w.
Proof.
  intros Hok. split; [|split].
  - revert w Hok. apply createCategory_keeps;
      [apply slugs_about_store|apply create_keeps_slugs].
  - intros c Hc.
    apply (createCategory_keeps _ fuel body
             (members_about_store c (items w))
             (fun fields => create_keeps_members fields c (items w)) w).
    now split.
  - assert (K : keeps (fun w' => items w' = items w)
                  (createCategory fuel body)); [|now apply K].
    apply createCategory_keeps.
    + intros a b _ Hi _ Ha. now rewrite <- Hi.
    + intros fields. apply create_keeps_items.
Qed.

Lemma small_world_slugs : slugs_ok small_world.
Proof.
  split.
  - unfold unique_slugs. cbn. repeat constructor; cbn; intuition discriminate.
  - unfold slugs_match. cbn. repeat constructor.
Qed.

Lemma createCategory_keeps_slugs_small_world :
  slugs_ok (world (createCategory 2 science_fiction small_world))
  /\ In movies (categories (world (createCategory 2 science_fiction
                                     small_world))).
Proof.
  destruct (createCategory_keeps_slugs 2 science_fiction small_world
              small_world_slugs) as (H1 & H2 & _).
  split; [exact H1|]. apply H2. now left.
Defined.

End CategoryMoreFacts.

(** ** What a category request does to the store *)

Module CategoryEffects.
Import Store Http Models CategoryController CategoryMore Spec Invariants
  KeepFacts ListFacts ObjectIdFacts CategoryMoreFacts.

Lemma loaded_loaded_from c : loaded_from (Category.loaded c) c.
Proof.
  unfold loaded_from, Category.loaded. cbn.
  now destruct (ICategory.gradient c).
Qed.

(** A document that the relaxed schema has made lacks no path. *)
Lemma loaded_document id f :
  Category.loaded (Category.document id f) = Category.document id f.
Proof. unfold Category.loaded, Category.document. cbn. now destruct (Category.gradient f). Qed.

Lemma create_result fields w :
  match Category.create fields w with
  | (Done c, w') =>
      categories w' = categories w ++ [c]
      /\ ICategory.itemCount c = 0
      /\ ~ In (ICategory.slug c) (map ICategory.slug (categories w))
      /\ Category.loaded c = c
  | (_, w') => categories w' = categories w
  end.
Proof.
  unfold Category.create, bind, new_ObjectId, await. cbn.
  destruct (faults w) as [|[|] fs]; cbn; try reflexivity;
    destruct (Category.validate (Category.cast fields)) eqn:Ev; cbn;
    try reflexivity;
    (destruct (existsb _ (categories w)) eqn:Ex; cbn; [reflexivity|]);
    (split; [reflexivity|split; [reflexivity|]]);
    (split; [now apply not_in_slugs|apply loaded_document]).
Qed.

Lemma make_unique_keeps_categories fuel base u n cs :
  keeps (fun w => categories w = cs)
    (make_unique category_slug_taken fuel base u n).
Proof.
  apply keeps_make_unique. intros s. apply keeps_category_slug_taken.
  intros a b Hc _ _ Ha. now rewrite <- Hc.
Qed.

Lemma createCategory_result fuel body w :
  let r := createCategory fuel body w in
  match outcome r with
  | Done res =>
      (Http.status res = 201
       /\ exists c,
            data res = CategoryData c
            /\ categories (world r) = categories w ++ [c]
            /\ ICategory.itemCount c = 0
            /\ ~ In (ICategory.slug c) (map ICategory.slug (categories w))
            /\ Category.loaded c = c)
      \/ (Http.status res <> 201 /\ categories (world r) = categories w)
  | _ => categories (world r) = categories w
  end.
Proof.
  cbv zeta. unfold createCategory, try_catch.
  match goal with |- context [if ?b then ret _ else _] => destruct b end.
  - cbn. right. split; [discriminate|reflexivity].
  - rewrite bind_run.
    match goal with |- context [make_unique ?t ?f ?b ?u ?n w] =>
      pose proof (make_unique_keeps_categories f b u n (categories w) w
                    eq_refl) as Hk;
      destruct (make_unique t f b u n w) as [[u'| e|] w1]
    end; unfold world in Hk; cbn in Hk.
    + rewrite bind_run.
      match goal with |- context [Category.create ?f w1] =>
        pose proof (create_result f w1) as Hc;
        destruct (Category.create f w1) as [[c| e|] w2]
      end.
      * cbn. left. split; [reflexivity|]. exists c. rewrite <- Hk.
        destruct Hc as (H1 & H2 & H3 & H4).
        split; [reflexivity|].
        split; [exact H1|split; [exact H2|split; [exact H3|exact H4]]].
      * cbn. right. split; [discriminate|]. now rewrite <- Hk.
      * cbn. now rewrite <- Hk.
    + cbn. right. split; [discriminate|exact Hk].
    + cbn. exact Hk.
Qed.


(** X6: The relaxed [createCategory] changes the categories only when it
    answers 201, and then by appending the category of the answer,
    whose counter is 0 and whose slug no stored category had; this
    holds whatever store calls fail and however many probes are
    allowed. *)
Theorem createCategory_effect fuel body w :
  let r := createCategory fuel body w in
  match outcome r with
  | Done res =>
      (Http.status res = 201
       /\ exists c,
            data res = CategoryData c
            /\ categories (world r) = categories w ++ [c]
            /\ ICategory.itemCount c = 0
            /\ ~ In (ICategory.slug c) (map ICategory.slug (categories w)))
      \/ (Http.status res <> 201 /\ categories (world r) = categories w)
  | _ => categories (world r) = categories w
  end.
Proof.
  pose proof (createCategory_result fuel body w) as H. cbv zeta in *.
  destruct (outcome (createCategory fuel body w)) as [res|e|]; try exact H.
  destruct H as [(Hst & c & Hd & Hcs & Hn & Hs & _)|H]; [left|now right].
  split; [exact Hst|]. now exists c.
Qed.

(** X28: What the relaxed [createCategory] answers is what [getCategory]
    returns: after a 201, in a world whose store calls are answered and
    where the identifier of the new category was not in use,
    [getCategory] answers 200 with the category of the 201 for that
    identifier, and changes nothing; and so does the [getCategory] of
    the typed controller. *)
Theorem createCategory_then_getCategory fuel body w res c :
  outcome (createCategory fuel body w) = Done res ->
  Http.status res = 201 ->
  data res = CategoryData c ->
  (forall d, In d (categories w) -> ICategory._id d <> ICategory._id c) ->
  faults (world (createCategory fuel body w)) = [] ->
  getCategory (ICategory._id c) (world (createCategory fuel body w))
  = (Done (ok 200 None (CategoryData c)), world (createCategory fuel body w))
  /\ getCategory_typed (ICategory._id c) (world (createCategory fuel body w))
     = (Done (ok 200 None (CategoryData c)),
        world (createCategory fuel body w)).
Proof.
  intros Hres Hst Hdata Hfresh Hf.
  pose proof (createCategory_result fuel body w) as H. cbv zeta in H.
  rewrite Hres in H.
  destruct H as [(_ & c' & Hd & Hcs & _ & _ & Hl)|[Hne _]]; [|contradiction].
  rewrite Hdata in Hd. injection Hd as <-.
  unfold getCategory, getCategory_typed, getCategory_with.
  rewrite casting_toString.
  unfold try_catch, bind, Category.findById, await, ret.
  rewrite Hf, Hcs.
  assert (Hfind : find (Category.by_id (ICategory._id c)) (categories w ++ [c])
                  = Some c).
  { clear - Hfresh. induction (categories w) as [|d l IH]; cbn.
    - unfold Category.by_id. now rewrite oid_eqb_refl.
    - unfold Category.by_id at 1.
      destruct (oid_eqb_spec (ICategory._id d) (ICategory._id c)) as [E|_].
      + exfalso. apply (Hfresh d); [now left|exact E].
      + apply IH. intros d' Hd'. apply Hfresh. now right. }
  rewrite Hfind, Hl. split; reflexivity.
Qed.

Lemma createCategory_then_getCategory_small_world :
  exists c,
    getCategory (toString (numbered_ObjectId 7))
      (world (createCategory 2 science_fiction small_world))
    = (Done (ok 200 None (CategoryData c)),
       world (createCategory 2 science_fiction small_world))
    /\ ICategory.slug c = "science-fiction".
Proof.
  eexists. split.
  - apply (createCategory_then_getCategory 2 science_fiction small_world
             (ok 201 (Some "Category created successfully")
                (CategoryData
                   (ICategory.mk (numbered_ObjectId 7) "Science  Fiction!"
                      "science-fiction" "Futures and other worlds" None
                      (Some "from-blue-500 to-purple-600") "active" 0 0)))
             (ICategory.mk (numbered_ObjectId 7) "Science  Fiction!"
                "science-fiction" "Futures and other worlds" None
                (Some "from-blue-500 to-purple-600") "active" 0 0));
      try reflexivity.
    intros d [<-|[<-|[]]]; discriminate.
  - reflexivity.
Defined.

End CategoryEffects.

(** ** The typed [createCategory] and the two [updateCategory] *)

Module CategoryUpdateFacts.
Import Store Http Models CategoryController CategoryMore Spec Invariants
  KeepFacts ListFacts ObjectIdFacts CategoryMoreFacts.

Lemma validate_needs_slug f :
  Category.slug f = None -> Category.validate (Category.cast f) <> [].
Proof.
  intros Hs Hv. apply validate_slug in Hv as (s & Hv & _).
  unfold Category.cast in Hv. cbn in Hv. rewrite Hs in Hv. discriminate.
Qed.

(** X8: The typed [createCategory] answers a request without slug with 500,
    whatever else the request holds and whatever the store calls do,
    and stores nothing: the missing slug is found by the schema
    validator only, inside the [try]. *)
Theorem createCategory_typed_without_slug body w :
  Category.slug body = None ->
  outcome (createCategory_typed body w)
  = Done (failure 500 "Internal server error")
  /\ categories (world (createCategory_typed body w)) = categories w.
Proof.
  intros Hs. pose proof (validate_needs_slug body Hs) as Hv.
  assert (Hnone : forall cs : list ICategory.t,
             find (fun _ => false) cs = None)
    by (intros cs; induction cs; [reflexivity|exact IHcs]).
  unfold createCategory_typed, try_catch, bind, Category.findOne,
    create_typed, new_ObjectId, await, by_body_slug, internal_error,
    logger_error, ret, outcome, world.
  rewrite Hs.
  destruct (Category.validate (Category.cast body)) as [|e es];
    [congruence|].
  destruct (faults w) as [|[|] [|[|] fs]] eqn:Ef; cbn;
    repeat (progress (rewrite ?Hnone, ?Ef; cbn)); split; reflexivity.
Qed.

Lemma createCategory_typed_without_slug_science_fiction :
  outcome (createCategory_typed science_fiction small_world)
  = Done (failure 500 "Internal server error")
  /\ categories (world (createCategory_typed science_fiction small_world))
     = categories small_world.
Proof.
  apply (createCategory_typed_without_slug science_fiction small_world).
  reflexivity.
Defined.

Lemma map_update_first {D E} (g : D -> E) p f l :
  (forall d, g (f d) = g d) -> map g (update_first p f l) = map g l.
Proof.
  intros Hg. induction l as [|d r IH]; [reflexivity|]. cbn.
  destruct (p d); cbn; [now rewrite Hg|now rewrite IH].
Qed.

Lemma Forall_update_first {D} (P : D -> Prop) p f l :
  (forall d, P d -> P (f d)) -> Forall P l -> Forall P (update_first p f l).
Proof.
  intros Hf Hl. induction Hl as [|d r Hd Hr IH]; [constructor|]. cbn.
  destruct (p d); constructor; auto.
Qed.

Lemma in_slugs_update_first id s f l x :
  (forall d, ICategory.slug (f d) = s) ->
  In x (map ICategory.slug (update_first (Category.by_id id) f l)) ->
  x = s \/ In x (map ICategory.slug l).
Proof.
  intros Hf. induction l as [|d r IH]; [intros []|]. cbn.
  destruct (Category.by_id id d); cbn.
  - intros [<-|Hin]; [left; apply Hf|right; now right].
  - intros [<-|Hin]; [right; now left|].
    destruct (IH Hin) as [->|Hr]; [now left|right; now right].
Qed.

Lemma NoDup_slugs_update_first id s f l :
  (forall d, ICategory.slug (f d) = s) ->
  NoDup (map ICategory._id l) ->
  NoDup (map ICategory.slug l) ->
  (forall d, In d l -> ICategory._id d <> id -> ICategory.slug d <> s) ->
  NoDup (map ICategory.slug (update_first (Category.by_id id) f l)).
Proof.
  intros Hf. induction l as [|d r IH]; intros Hids Hslugs Hother;
    [constructor|].
  cbn in *. inversion Hids as [|? ? Hid Hids']; subst.
  inversion Hslugs as [|? ? Hsl Hslugs']; subst.
  unfold Category.by_id at 1. destruct (oid_eqb_spec (ICategory._id d) id)
    as [E|E]; cbn.
  - constructor; [|exact Hslugs']. rewrite Hf. intros Hin.
    apply in_map_iff in Hin as (d' & Hd' & Hin).
    apply (Hother d'); [now right| |exact Hd'].
    intros E'. apply Hid. apply in_map_iff. exists d'. split; [|exact Hin].
    congruence.
  - constructor.
    + intros Hin. apply (in_slugs_update_first id s f r _ Hf) in Hin
        as [Hs|Hin]; [|contradiction].
      apply (Hother d); [now left|exact E|exact Hs].
    + apply IH; [exact Hids'|exact Hslugs'|].
      intros d' Hd'. apply Hother. now right.
Qed.

Lemma validate_update_slug u s :
  validate_update u = [] -> Category.slug u = Some s ->
  Text.matches_slug_pattern s = true.
Proof.
  unfold validate_update. intros H Hs.
  apply app_nil_both in H as [_ H]. apply app_nil_both in H as [_ H].
  apply app_nil_both in H as [Hreq H]. apply app_nil_both in H as [Hmatch _].
  rewrite Hs in *. cbn in *.
  destruct (Text.is_empty s); cbn in *; [discriminate Hreq|].
  now destruct (Text.matches_slug_pattern s).
Qed.

Lemma findByIdAndUpdate_keeps_taxonomy load id update :
  keeps taxonomy_ok (findByIdAndUpdate load id update).
Proof.
  unfold findByIdAndUpdate. apply keeps_await; [apply taxonomy_about_store|].
  intros w (Hi & Hu & Hm). unfold world. cbv zeta.
  destruct (validate_update (Category.cast update)) eqn:Ev;
    [|now repeat split].
  destruct (find _ (categories w)) as [c|]; [|now repeat split].
  destruct (Category.slug (Category.cast update)) as [s|] eqn:Es.
  - destruct (existsb _ (categories w)) eqn:Ex; [now repeat split|]. cbn.
    assert (Hf : forall d,
               ICategory.slug (apply_update (Category.cast update) d) = s)
      by (intros d; unfold apply_update; cbn [ICategory.slug]; now rewrite Es).
    split; [|split].
    + unfold unique_ids. cbn. now rewrite map_update_first.
    + unfold unique_slugs. cbn.
      apply (NoDup_slugs_update_first id s); [exact Hf|exact Hi|exact Hu|].
      intros d Hd Hne Hsl.
      assert (existsb (slug_of_another s id) (categories w) = true);
        [|congruence].
      apply existsb_exists. exists d. split; [exact Hd|].
      unfold slug_of_another, Category.has_slug, Category.by_id.
      rewrite Hsl, String.eqb_refl. cbn.
      now destruct (oid_eqb_spec (ICategory._id d) id).
    + unfold slugs_match. cbn. apply Forall_update_first; [|exact Hm].
      intros d _. rewrite Hf. now apply (validate_update_slug _ _ Ev).
  - cbn. split; [|split].
    + unfold unique_ids. cbn. now rewrite map_update_first.
    + unfold unique_slugs. cbn. rewrite map_update_first; [exact Hu|].
      intros d. unfold apply_update. cbn [ICategory.slug]. now rewrite Es.
    + unfold slugs_match. cbn. apply Forall_update_first; [|exact Hm].
      intros d Hd. unfold apply_update. cbn [ICategory.slug]. now rewrite Es.
Qed.

Lemma findByIdAndUpdate_keeps_counters load id update l its :
  keeps (fun w => ids_and_counters w = l /\ items w = its)
    (findByIdAndUpdate load id update).
Proof.
  unfold findByIdAndUpdate. apply keeps_await.
  - intros a b Hc Hi _. unfold ids_and_counters. now rewrite Hc, Hi.
  - intros w [Hl Hits]. unfold world. cbv zeta.
    destruct (validate_update _); [|now split].
    destruct (find _ _); [|now split].
    match goal with |- context [if ?b then _ else _] => destruct b end;
      [now split|]. cbn. split; [|exact Hits].
    rewrite <- Hl. unfold ids_and_counters. cbn. now apply map_update_first.
Qed.

Lemma update_with_slug_keeps I load id body s :
  about_store I ->
  (forall oid u, keeps I (findByIdAndUpdate load oid u)) ->
  keeps I (update_with_slug load id body s).
Proof.
  intros Hs Hu. unfold update_with_slug. apply keeps_bind.
  - destruct (Text.truthy s); [|apply keeps_ret].
    apply keeps_bind; [|intros o; apply keeps_ret].
    apply keeps_casting. intros oid. now apply keeps_findOne.
  - intros []; [apply keeps_ret|].
    apply keeps_bind; [|intros [c|]; apply keeps_ret].
    apply keeps_casting. intros oid. apply Hu.
Qed.

Lemma updateCategory_keeps I id body :
  about_store I ->
  (forall load oid u, keeps I (findByIdAndUpdate load oid u)) ->
  keeps I (updateCategory id body) /\ keeps I (updateCategory_typed id body).
Proof.
  intros Hs Hu.
  split; apply keeps_try_catch;
    try (intros e; now apply keeps_internal_error);
    now apply update_with_slug_keeps.
Qed.

(** X9: Both [updateCategory] handlers, whatever the request and whatever
    store calls fail, leave identifiers and slugs pairwise distinct and
    the slugs of the form [[a-z0-9-]+], and change neither the
    identifier nor the counter of any category, nor any item. *)
Theorem updateCategory_keeps_taxonomy id body w :
  taxonomy_ok w ->
  (taxonomy_ok (world (updateCategory id body w))
   /\ ids_and_counters (world (updateCategory id body w)) = ids_and_counters w
   /\ items (world (updateCategory id body w)) = items w)
  /\ (taxonomy_ok (world (updateCategory_typed id body w))
      /\ ids_and_counters (world (updateCategory_typed id body w))
         = ids_and_counters w
      /\ items (world (updateCategory_typed id body w)) = items w).
Proof.
  intros Hok.
  destruct (updateCategory_keeps taxonomy_ok id body taxonomy_about_store
              findByIdAndUpdate_keeps_taxonomy) as [K1 K2].
  assert (Hs : about_store
                 (fun w' => ids_and_counters w' = ids_and_counters w
                            /\ items w' = items w)).
  { intros a b Hc Hi _. unfold ids_and_counters. now rewrite Hc, Hi. }
  destruct (updateCategory_keeps _ id body Hs
              (fun load oid u =>
                 findByIdAndUpdate_keeps_counters load oid u
                   (ids_and_counters w) (items w))) as [K3 K4].
  split; (split; [auto|]).
  - now apply K3.
  - now apply K4.
Qed.

Lemma small_world_taxonomy : taxonomy_ok small_world.
Proof.
  split; [|exact small_world_slugs].
  unfold unique_ids. cbn. repeat constructor; cbn; intuition discriminate.
Qed.

Lemma updateCategory_keeps_taxonomy_small_world :
  taxonomy_ok
    (world (updateCategory movies_id_in_capitals
              (Category.mkFields (Some "Films") None None None None None None)
              small_world)).
Proof.
  apply (updateCategory_keeps_taxonomy movies_id_in_capitals
           (Category.mkFields (Some "Films") None None None None None None)
           small_world small_world_taxonomy).
Defined.

End CategoryUpdateFacts.

(** ** What an update answers *)

Module CategoryUpdateAnswers.
Import Store Http Models CategoryController CategoryMore Spec Invariants
  KeepFacts ListFacts ObjectIdFacts CategoryMoreFacts CategoryUpdateFacts.

(** A query either rejects or answers from the categories; it leaves
    the collections alone. *)
Lemma findOne_run q w :
  exists w1,
    categories w1 = categories w
    /\ (Category.findOne q w = (Done (find q (categories w)), w1)
        \/ Category.findOne q w = (Thrown MongoError, w1)).
Proof.
  unfold Category.findOne, await.
  destruct (faults w) as [|[|] fs].
  - exists w. split; [reflexivity|now left].
  - exists (set_faults fs w). split; [reflexivity|now right].
  - exists (set_faults fs w). split; [reflexivity|now left].
Qed.

Lemma findByIdAndUpdate_result load id update w :
  let u := Category.cast update in
  match findByIdAndUpdate load id update w with
  | (Done (Some answered), w') =>
      exists c,
        find (Category.by_id id) (categories w) = Some c
        /\ validate_update u = []
        /\ answered = load (apply_update u c)
        /\ categories w'
           = update_first (Category.by_id id) (apply_update u) (categories w)
  | (_, w') => categories w' = categories w
  end.
Proof.
  cbv zeta. unfold findByIdAndUpdate, await.
  destruct (faults w) as [|[|] fs]; cbn; try reflexivity;
    (destruct (validate_update (Category.cast update)) eqn:Ev;
       [|reflexivity]);
    (destruct (find (Category.by_id id) (categories w)) as [c|] eqn:Ec;
       [|reflexivity]);
    match goal with |- context [if ?b then _ else _] => destruct b end;
    try reflexivity; cbn; exists c; now repeat split.
Qed.

Lemma update_with_slug_result load id body s w res :
  let u := Category.cast
             (Category.mkFields (Category.name body) s
                (Category.description body) (Category.icon body)
                (Category.gradient body) (Category.status body)
                (Category.sortOrder body)) in
  outcome (update_with_slug load id body s w) = Done res ->
  Http.status res = 200 ->
  exists oid c,
    castObjectId id = Some oid
    /\ find (Category.by_id oid) (categories w) = Some c
    /\ validate_update u = []
    /\ data res = CategoryData (load (apply_update u c))
    /\ categories (world (update_with_slug load id body s w))
       = update_first (Category.by_id oid) (apply_update u) (categories w).
Proof.
  cbv zeta. unfold update_with_slug, casting.
  destruct (castObjectId id) as [oid|] eqn:E;
    [|destruct (Text.truthy s); cbn; discriminate].
  intros Hres Hst. exists oid. revert Hres Hst.
  rewrite bind_run.
  assert (Hstep : forall w1, categories w1 = categories w ->
    forall r,
    r = (category <- findByIdAndUpdate load oid
                  (Category.mkFields (Category.name body) s
                     (Category.description body) (Category.icon body)
                     (Category.gradient body) (Category.status body)
                     (Category.sortOrder body)) ;;
         match category with
         | None => ret (failure 404 "Category not found")
         | Some c =>
             ret (ok 200 (Some "Category updated successfully")
                    (CategoryData c))
         end) w1 ->
    outcome r = Done res -> Http.status res = 200 ->
    exists c,
      Some oid = Some oid
      /\ find (Category.by_id oid) (categories w) = Some c
      /\ validate_update
           (Category.cast
              (Category.mkFields (Category.name body) s
                 (Category.description body) (Category.icon body)
                 (Category.gradient body) (Category.status body)
                 (Category.sortOrder body))) = []
      /\ data res = CategoryData
                      (load
                         (apply_update
                            (Category.cast
                               (Category.mkFields (Category.name body) s
                                  (Category.description body)
                                  (Category.icon body) (Category.gradient body)
                                  (Category.status body)
                                  (Category.sortOrder body))) c))
      /\ categories (world r)
         = update_first (Category.by_id oid)
             (apply_update
                (Category.cast
                   (Category.mkFields (Category.name body) s
                      (Category.description body) (Category.icon body)
                      (Category.gradient body) (Category.status body)
                      (Category.sortOrder body)))) (categories w)).
  { intros w1 Hw1 r -> . rewrite bind_run.
    pose proof (findByIdAndUpdate_result load oid
                  (Category.mkFields (Category.name body) s
                     (Category.description body) (Category.icon body)
                     (Category.gradient body) (Category.status body)
                     (Category.sortOrder body)) w1) as Hr.
    cbv zeta in Hr.
    destruct (findByIdAndUpdate _ _ _ w1) as [[[c'|]| e|] w2]; cbn;
      intros Hres Hst; try discriminate.
    - destruct Hr as (c & Hc & Hv & -> & Hcs). exists c.
      injection Hres as <-. rewrite <- Hw1. now repeat split.
    - injection Hres as <-. discriminate Hst. }
  destruct (Text.truthy s).
  - rewrite bind_run.
    destruct (findOne_run
                (by_slug_not_id (Category.or_default "" s) oid) w)
      as (w1 & Hw1 & [E1|E1]); rewrite E1.
    + unfold ret at 1. cbv beta iota.
      destruct (is_some _).
      * cbn. intros Hres Hst. injection Hres as <-. discriminate Hst.
      * exact (Hstep w1 Hw1 _ eq_refl).
    + cbn. discriminate.
  - unfold ret at 1. cbv beta iota. exact (Hstep w eq_refl _ eq_refl).
Qed.

(** X10: With the relaxed [updateCategory], a request that names the
    category anew and gives no slug also replaces the slug, by the one
    derived from the new name: when the answer is 200, the id of the
    request has the digits of a stored category, the category of the
    answer is the one now stored under that id, as the schema loads it
    (the same on every path, with the default gradient if the stored one
    has none), and the stored one has that slug, and its identifier and
    counter as before, whatever store calls were refused on the way. *)
Theorem updateCategory_name_sets_slug id body n w res :
  Category.slug body = None ->
  Category.name body = Some n ->
  Text.is_empty n = false ->
  outcome (updateCategory id body w) = Done res ->
  Http.status res = 200 ->
  exists oid c c' d,
    castObjectId id = Some oid
    /\ find (Category.by_id oid) (categories w) = Some c
    /\ find (Category.by_id oid)
         (categories (world (updateCategory id body w)))
       = Some c'
    /\ data res = CategoryData d
    /\ loaded_from d c'
    /\ ICategory.slug c' = Text.slugify n
    /\ ICategory._id c' = ICategory._id c
    /\ ICategory.itemCount c' = ICategory.itemCount c.
Proof.
  intros Hs Hn Hne. unfold updateCategory. rewrite Hs, Hn. cbn [Text.truthy].
  rewrite Hne. cbn [negb andb option_map_string].
  rewrite try_catch_run.
  pose proof (update_with_slug_result Category.loaded id body
                (Some (Text.slugify n)) w) as Hr. cbv zeta in Hr.
  destruct (update_with_slug Category.loaded id body (Some (Text.slugify n)) w)
    as [[res'| e|] w'] eqn:E.
  - intros Hres Hst. cbn in Hres. injection Hres as ->.
    destruct (Hr res eq_refl Hst) as (oid & c & Hoid & Hc & Hv & Hd & Hcs).
    set (c' := apply_update
                 (Category.cast
                    (Category.mkFields (Category.name body)
                       (Some (Text.slugify n)) (Category.description body)
                       (Category.icon body) (Category.gradient body)
                       (Category.status body) (Category.sortOrder body))) c)
      in *.
    exists oid, c, c', (Category.loaded c').
    split; [exact Hoid|]. split; [exact Hc|].
    split; [|split; [exact Hd|]].
    2: split; [apply CategoryEffects.loaded_loaded_from|].
    + unfold world in *. cbn in *. rewrite Hcs.
      rewrite find_update_first; [now rewrite Hc|].
      intros d Hd'. exact Hd'.
    + split; [|split; reflexivity].
      unfold c', apply_update, Category.cast. cbn.
      apply TextFacts.cast_slug_fixed, TextFacts.slugify_chars.
  - cbn. intros Hres Hst. injection Hres as <-. discriminate Hst.
  - cbn. discriminate.
Qed.

(** On the small store, whose categories were stored without gradient:
    the answer carries the default gradient, the store does not. *)
Lemma updateCategory_name_sets_slug_small_world :
  exists c' d,
    find (Category.by_id movies_id)
      (categories
         (world (updateCategory movies_id_in_capitals
                   (Category.mkFields (Some "Films & Series") None None None
                      None None None) small_world)))
    = Some c'
    /\ ICategory.slug c' = "films-series"
    /\ ICategory.gradient c' = None
    /\ outcome (updateCategory movies_id_in_capitals
                  (Category.mkFields (Some "Films & Series") None None None
                     None None None) small_world)
       = Done (ok 200 (Some "Category updated successfully")
                 (CategoryData d))
    /\ ICategory.name d = "Films & Series"
    /\ ICategory.slug d = "films-series"
    /\ ICategory.gradient d = Some "from-blue-500 to-purple-600".
Proof.
  destruct (updateCategory_name_sets_slug movies_id_in_capitals
              (Category.mkFields (Some "Films & Series") None None None None
                 None None)
              "Films & Series" small_world
              (ok 200 (Some "Category updated successfully")
                 (CategoryData
                    (ICategory.mk movies_id "Films & Series" "films-series"
                       "Discover blockbuster hits" None
                       (Some "from-blue-500 to-purple-600") "active" 1 0)))
              eq_refl eq_refl eq_refl eq_refl eq_refl)
    as (oid & c & c' & d & Hoid & _ & Hfind & Hdata & Hload & Hslug & _).
  injection Hoid as <-. injection Hdata as <-.
  exists c', (ICategory.mk movies_id "Films & Series" "films-series"
                "Discover blockbuster hits" None
                (Some "from-blue-500 to-purple-600") "active" 1 0).
  split; [exact Hfind|]. split; [exact Hslug|].
  cbn in Hfind. injection Hfind as <-. repeat split.
Defined.

(** X11: The typed [updateCategory] derives no slug: when it answers a
    request without slug with 200, the id of the request has the digits
    of a stored category, the category of the answer is the one now
    stored under that id and has the slug it had before, whatever the
    new name. *)
Theorem updateCategory_typed_keeps_slug id body w res :
  Category.slug body = None ->
  outcome (updateCategory_typed id body w) = Done res ->
  Http.status res = 200 ->
  exists oid c c',
    castObjectId id = Some oid
    /\ find (Category.by_id oid) (categories w) = Some c
    /\ data res = CategoryData c'
    /\ find (Category.by_id oid)
         (categories (world (updateCategory_typed id body w)))
       = Some c'
    /\ ICategory.slug c' = ICategory.slug c.
Proof.
  intros Hs. unfold updateCategory_typed. rewrite Hs.
  rewrite try_catch_run.
  pose proof (update_with_slug_result as_stored id body None w) as Hr.
  cbv zeta in Hr.
  destruct (update_with_slug as_stored id body None w)
    as [[res'| e|] w'] eqn:E.
  - intros Hres Hst. cbn in Hres. injection Hres as ->.
    destruct (Hr res eq_refl Hst) as (oid & c & Hoid & Hc & Hv & Hd & Hcs).
    exists oid, c,
      (apply_update
         (Category.cast
            (Category.mkFields (Category.name body) None
               (Category.description body) (Category.icon body)
               (Category.gradient body) (Category.status body)
               (Category.sortOrder body))) c).
    split; [exact Hoid|]. split; [exact Hc|]. split; [exact Hd|].
    split; [|reflexivity].
    unfold world in *. cbn in *. rewrite Hcs.
    rewrite find_update_first; [now rewrite Hc|].
    intros d Hd'. exact Hd'.
  - cbn. intros Hres Hst. injection Hres as <-. discriminate Hst.
  - cbn. discriminate.
Qed.

Lemma updateCategory_typed_keeps_slug_small_world :
  exists c',
    find (Category.by_id movies_id)
      (categories
         (world (updateCategory_typed movies_id_in_capitals
                   (Category.mkFields (Some "Films & Series") None None None
                      None None None) small_world)))
    = Some c'
    /\ ICategory.slug c' = "movies".
Proof.
  destruct (updateCategory_typed_keeps_slug movies_id_in_capitals
              (Category.mkFields (Some "Films & Series") None None None None
                 None None)
              small_world
              (ok 200 (Some "Category updated successfully")
                 (CategoryData
                    (ICategory.mk movies_id "Films & Series" "movies"
                       "Discover blockbuster hits" None None "active" 1 0)))
              eq_refl eq_refl eq_refl)
    as (oid & c & c' & Hoid & Hc & _ & Hfind & Hslug).
  injection Hoid as <-.
  exists c'. split; [exact Hfind|]. rewrite Hslug.
  cbn in Hc. injection Hc as <-. reflexivity.
Defined.

End CategoryUpdateAnswers.

(** ** The slug check of an update *)

Module CategoryUpdateSlug.
Import Store Http Models CategoryController CategoryMore Spec Invariants
  KeepFacts ListFacts ObjectIdFacts CategoryMoreFacts CategoryUpdateFacts.

Lemma find_is_some {D} (p : D -> bool) l d :
  In d l -> p d = true -> is_some (find p l) = true.
Proof.
  intros Hin Hp. destruct (find p l) eqn:E; [reflexivity|].
  apply find_none_existsb in E.
  assert (existsb p l = true); [|congruence].
  apply existsb_exists. now exists d.
Qed.

(** X12: When no store call fails, both [updateCategory] handlers refuse
    with 400 a slug that, trimmed and in lower case as the query has
    it, is the slug of a category other than the one that the id of the
    request names, and change nothing. *)
Theorem updateCategory_slug_taken id oid body s c w :
  faults w = [] ->
  castObjectId id = Some oid ->
  Category.slug body = Some s ->
  Text.is_empty s = false ->
  In c (categories w) ->
  ICategory.slug c = Text.toLowerCase (Text.trim s) ->
  ICategory._id c <> oid ->
  refused_with 400 "Category with this slug already exists" w
    (updateCategory id body w)
  /\ refused_with 400 "Category with this slug already exists" w
       (updateCategory_typed id body w).
Proof.
  intros Hf Hoid Hs Hne Hin Hslug Hid.
  assert (Hfound : is_some (find (by_slug_not_id s oid) (categories w)) = true).
  { apply (find_is_some _ _ c Hin).
    unfold by_slug_not_id, Category.by_slug, Category.has_slug, Category.by_id.
    rewrite Hslug, String.eqb_refl. cbn.
    now destruct (oid_eqb_spec (ICategory._id c) oid). }
  assert (E : updateCategory id body w
              = (Done (failure 400 "Category with this slug already exists"),
                 w)
              /\ updateCategory_typed id body w
                 = (Done (failure 400
                            "Category with this slug already exists"), w)).
  { unfold updateCategory, updateCategory_typed, update_with_slug, casting.
    rewrite Hs, Hoid.
    repeat (progress (cbn [Text.truthy negb andb]; rewrite ?Hne)).
    unfold try_catch, bind, Category.findOne, await, ret.
    rewrite Hf. cbn [Category.or_default]. rewrite Hfound. now split. }
  destruct E as [-> ->].
  split; exists (failure 400 "Category with this slug already exists");
    now repeat split.
Qed.

Lemma updateCategory_slug_taken_small_world :
  refused_with 400 "Category with this slug already exists" small_world
    (updateCategory (toString games_id)
       (Category.mkFields None (Some " Movies") None None None None None)
       small_world).
Proof.
  apply (updateCategory_slug_taken (toString games_id) games_id
           (Category.mkFields None (Some " Movies") None None None None None)
           " Movies" movies small_world);
    try reflexivity; [now left|discriminate].
Defined.





End CategoryUpdateSlug.

(** ** [getCategoryStats] *)

Module StatsFacts.
Import Store Http Models CategoryController CategoryMore Spec.

Lemma length_filter_filter {D} (p q : D -> bool) l :
  length (filter q (filter p l)) = length (filter (fun d => p d && q d) l).
Proof.
  induction l as [|d r IH]; [reflexivity|]. cbn.
  destruct (p d); cbn; [|exact IH]. destruct (q d); cbn; now rewrite IH.
Qed.

Lemma length_filter_disjoint {D} (p q : D -> bool) l :
  (forall d, p d = true -> q d = false) ->
  length (filter p l) + length (filter q l) <= length l.
Proof.
  intros Hpq. induction l as [|d r IH]; [reflexivity|]. cbn.
  destruct (p d) eqn:Ep; [rewrite (Hpq d Ep)|destruct (q d)]; cbn; lia.
Qed.

Lemma stat_of_counts its c :
  stat_id (stat_of its c) = ICategory._id c
  /\ totalItems (stat_of its c) = referencing_items (ICategory._id c) its
  /\ activeItems (stat_of its c) = active_items (ICategory._id c) its
  /\ activeItems (stat_of its c) + draftItems (stat_of its c)
     <= totalItems (stat_of its c).
Proof.
  unfold stat_of, referencing_items, active_items. cbn.
  split; [reflexivity|]. split; [reflexivity|]. split.
  - apply length_filter_filter.
  - apply length_filter_disjoint. intros i Hi.
    apply String.eqb_eq in Hi. now rewrite Hi.
Qed.

Section WithEngine.
Context `{QueryEngine}.

(** X14: When the aggregation is answered, [getCategoryStats] returns one
    entry for each category, whatever the order that sorting settles
    on; [totalItems] is the number of items by which [deleteCategory]
    decides, [activeItems] the number that the counter maintainer
    stores, and active and draft items together never exceed the
    total. *)
Theorem getCategoryStats_counts w :
  faults w = [] ->
  exists stats,
    getCategoryStats w = (Done (ok 200 None NoData, stats), w)
    /\ Permutation (map stat_id stats) (map ICategory._id (categories w))
    /\ forall st, In st stats ->
         totalItems st = referencing_items (stat_id st) (items w)
         /\ activeItems st = active_items (stat_id st) (items w)
         /\ activeItems st + draftItems st <= totalItems st.
Proof.
  intros Hf.
  exists (map (stat_of (items w)) (sort_categories "name" true (categories w))).
  split; [|split].
  - unfold getCategoryStats, try_catch, bind, aggregate_stats, await, ret.
    now rewrite Hf.
  - rewrite map_map.
    rewrite (map_ext _ ICategory._id)
      by (intros c; apply (stat_of_counts (items w) c)).
    apply Permutation_map, sort_categories_perm.
  - intros st Hst. apply in_map_iff in Hst as (c & <- & _).
    destruct (stat_of_counts (items w) c) as (Hid & Ht & Ha & Hle).
    rewrite Hid. now repeat split.
Qed.

End WithEngine.

Lemma getCategoryStats_counts_small_world :
  exists stats,
    @getCategoryStats plain_engine small_world
    = (Done (ok 200 None NoData, stats), small_world)
    /\ Permutation (map stat_id stats) [movies_id; games_id].
Proof.
  destruct (@getCategoryStats_counts plain_engine small_world eq_refl)
    as (stats & Hrun & Hperm & _).
  exists stats. split; [exact Hrun|exact Hperm].
Defined.

End StatsFacts.

(** ** The counters under the item handlers *)

Module CounterFacts.
Import Store Http Models CategoryController ItemController Spec Invariants
  KeepFacts ListFacts ObjectIdFacts CategoryUpdateFacts.

Lemma hoare_ret {A} (P : World -> Prop) (a : A) Q E :
  (forall w, P w -> Q a w) -> hoare P (ret a) Q E.
Proof. intros H w Hw. now apply H. Qed.

Lemma hoare_throw {A} (P : World -> Prop) e (Q : A -> World -> Prop) E :
  (forall w, P w -> E w) -> hoare P (throw e) Q E.
Proof. intros H w Hw. now apply H. Qed.

Lemma hoare_bind {A B} P (m : M A) Q (k : A -> M B) R E :
  hoare P m Q E -> (forall a, hoare (Q a) (k a) R E) ->
  hoare P (bind m k) R E.
Proof.
  intros Hm Hk w Hw. specialize (Hm w Hw). unfold bind.
  destruct (m w) as [[a| e|] w']; [now apply Hk|exact Hm|exact Hm].
Qed.

Lemma hoare_try_catch {A} P (m : M A) h Q E :
  hoare P m Q E -> (forall e, hoare E (h e) Q E) ->
  hoare P (try_catch m h) Q E.
Proof.
  intros Hm Hh w Hw. specialize (Hm w Hw). unfold try_catch.
  destruct (m w) as [[a| e|] w']; [exact Hm|now apply Hh|exact Hm].
Qed.

Lemma hoare_weaken {A} (P P' : World -> Prop) (m : M A)
  (Q Q' : A -> World -> Prop) (E E' : World -> Prop) :
  hoare P m Q E ->
  (forall w, P' w -> P w) -> (forall a w, Q a w -> Q' a w) ->
  (forall w, E w -> E' w) ->
  hoare P' m Q' E'.
Proof.
  intros Hm HP HQ HE w Hw. specialize (Hm w (HP w Hw)).
  destruct (m w) as [[a| e|] w']; auto.
Qed.

Lemma hoare_await {A} (P : World -> Prop) (call : M A) Q E :
  (forall w, P w -> faults w = []) ->
  hoare P call Q E -> hoare P (await call) Q E.
Proof.
  intros Hf Hc w Hw. unfold await. rewrite (Hf w Hw). now apply Hc.
Qed.

Lemma hoare_read {A} (P : World -> Prop) (f : World -> A) E :
  (forall w, P w -> faults w = []) ->
  hoare P (await (fun w => (Done (f w), w))) (fun a w => P w /\ a = f w) E.
Proof.
  intros Hf. apply hoare_await; [exact Hf|]. intros w Hw. now split.
Qed.

Lemma hoare_internal_error (P : World -> Prop) label e Q :
  (forall w lg, P w -> P (set_log lg w)) -> (forall a w, P w -> Q a w) ->
  hoare P (internal_error label e) Q P.
Proof. intros Hs HQ w Hw. cbn. now apply HQ, Hs. Qed.

Lemma hoare_casting {A} (P : World -> Prop) s (q : ObjectId -> M A) Q E :
  (forall id, castObjectId s = Some id -> hoare P (q id) Q E) ->
  (forall w, P w -> E w) ->
  hoare P (casting s q) Q E.
Proof.
  intros Hq HE. unfold casting. destruct (castObjectId s) as [id|] eqn:Ec.
  - now apply Hq.
  - now apply hoare_throw.
Qed.

Lemma hoare_pre {A} (P P' : World -> Prop) (m : M A) Q E :
  hoare P m Q E -> (forall w, P' w -> P w) -> hoare P' m Q E.
Proof. intros Hm HP w Hw. exact (Hm w (HP w Hw)). Qed.

Lemma hoare_pure {A} (P : World -> Prop) (F : Prop) (m : M A) Q E :
  (F -> hoare P m Q E) -> hoare (fun w => P w /\ F) m Q E.
Proof. intros H w [HP HF]. now apply H. Qed.

Lemma hoare_read_keeps {A} (P : World -> Prop) (f : World -> A) E :
  (forall w, P w -> faults w = []) ->
  hoare P (await (fun w => (Done (f w), w))) (fun _ => P) E.
Proof.
  intros Hf. apply hoare_await; [exact Hf|]. intros w Hw. exact Hw.
Qed.

Lemma hoare_make_unique (P : World -> Prop) taken fuel base u n :
  (forall s, hoare P (taken s) (fun _ => P) P) ->
  hoare P (make_unique taken fuel base u n) (fun _ => P) P.
Proof.
  intros Ht. revert u n. induction fuel as [|fuel IH]; intros u n.
  - intros w Hw. exact Hw.
  - cbn [make_unique]. apply (hoare_bind _ _ (fun _ => P)); [apply Ht|].
    intros []; [apply IH|now apply hoare_ret].
Qed.

Lemma right_but_incl s s' w :
  incl s s' -> right_but s w -> right_but s' w.
Proof.
  intros Hi Hr c Hc Hn. apply Hr; [exact Hc|]. intros Hin. apply Hn.
  now apply Hi.
Qed.

Lemma settled_incl s s' w : incl s s' -> settled s w -> settled s' w.
Proof.
  intros Hi (Hf & Hu & Hr). split; [exact Hf|]. split; [exact Hu|].
  now apply (right_but_incl s).
Qed.

Lemma settled_faults s w : settled s w -> faults w = [].
Proof. now intros [Hf _]. Qed.

Lemma counters_settled w :
  faults w = [] -> unique_ids w -> counters_right w -> settled [] w.
Proof.
  intros Hf Hu Hc. split; [exact Hf|]. split; [exact Hu|].
  intros c Hin _. now apply Hc.
Qed.

Lemma settled_counters w : settled [] w -> counters_right w.
Proof. intros (_ & _ & Hr) c Hc. apply Hr; [exact Hc|]. intros []. Qed.

(** *** The counter maintainer and the hook *)

Lemma in_update_first {D} (p : D -> bool) f l x :
  In x (update_first p f l) ->
  In x l \/ exists d, In d l /\ p d = true /\ x = f d.
Proof.
  induction l as [|d r IH]; [intros []|]. cbn.
  destruct (p d) eqn:Ep; cbn.
  - intros [<-|Hx]; [right; exists d; auto|left; now right].
  - intros [<-|Hx]; [left; now left|].
    destruct (IH Hx) as [Hr|(d' & Hd' & Hp & ->)]; [left; now right|].
    right. exists d'. auto.
Qed.

Lemma in_update_first_unique id f l x :
  NoDup (map ICategory._id l) ->
  In x (update_first (Category.by_id id) f l) ->
  (In x l /\ ICategory._id x <> id)
  \/ exists d, In d l /\ ICategory._id d = id /\ x = f d.
Proof.
  induction l as [|d r IH]; [intros _ []|]. cbn. intros Hn.
  inversion Hn as [|? ? Hd Hr]; subst.
  unfold Category.by_id at 1.
  destruct (oid_eqb_spec (ICategory._id d) id) as [E|E]; cbn.
  - intros [<-|Hx]; [right; exists d; auto|].
    left. split; [now right|]. intros E'. apply Hd. rewrite E, <- E'.
    now apply in_map.
  - intros [<-|Hx]; [left; auto|].
    destruct (IH Hr Hx) as [[Hin Hne]|(d' & Hd' & Hid & ->)].
    + left. auto.
    + right. exists d'. auto.
Qed.

Lemma recount_settled rf id s :
  hoare (settled s) (updateCategoryItemCount rf id) (fun _ => settled s)
    (settled s).
Proof.
  intros w (Hf & Hu & Hr).
  destruct (ItemFacts.recount_effect rf id w) as (cs & lg & -> & Hcs).
  destruct Hcs as [->| (oid & _ & ->)].
  - split; [exact Hf|]. split; [exact Hu|exact Hr].
  - split; [exact Hf|]. split.
    + unfold unique_ids. cbn. now rewrite map_update_first.
    + intros c Hc Hn. cbn in Hc |- *.
      apply in_update_first in Hc as [Hc|(d & Hd & Hp & ->)].
      * now apply Hr.
      * cbn. apply oid_eqb_eq in Hp. now rewrite Hp.
Qed.

Lemma set_counter_settles id s w :
  settled (id :: s) w ->
  settled s
    (set_categories
       (update_first (Category.by_id id)
          (ICategory.set_itemCount (active_items id (items w)))
          (categories w)) w).
Proof.
  intros (Hf & Hu & Hr). split; [exact Hf|]. split.
  - unfold unique_ids. cbn. now rewrite map_update_first.
  - intros c Hc Hn. cbn in Hc |- *.
    apply (in_update_first_unique id _ _ _ Hu) in Hc
      as [[Hc Hne]|(d & Hd & Hid & ->)].
    + apply Hr; [exact Hc|]. intros [E|Hin]; [now apply Hne|now apply Hn].
    + cbn. now rewrite Hid.
Qed.

Lemma recount_fixes s id pending E :
  castObjectId s = Some id ->
  hoare (settled (id :: pending)) (updateCategoryItemCount [] s)
    (fun _ => settled pending) E.
Proof.
  intros Ec w Hw. rewrite (CategoryFacts.recount_answered _ _ _ Ec).
  now apply set_counter_settles.
Qed.

Lemma recount_fixes_stored id pending E :
  hoare (settled (id :: pending)) (updateCategoryItemCount [] (toString id))
    (fun _ => settled pending) E.
Proof. apply recount_fixes, castObjectId_toString. Qed.

Lemma count_hook_fixes id s E :
  hoare (settled (id :: s)) (Item.Relaxed.count_hook id)
    (fun _ => settled s) E.
Proof.
  intros w Hw. pose proof (settled_faults _ _ Hw) as Hf.
  unfold Item.Relaxed.count_hook, bind, Item.countDocuments,
    Category.findByIdAndUpdate_itemCount, await, ret.
  rewrite Hf. cbn. rewrite Hf. now apply set_counter_settles.
Qed.

(** *** Writes to the items *)

Lemma active_items_app c l1 l2 :
  active_items c (l1 ++ l2) = active_items c l1 + active_items c l2.
Proof. unfold active_items. now rewrite filter_app, length_app. Qed.

Lemma active_items_other c i :
  IItem.category i <> c -> active_items c [i] = 0.
Proof.
  intros Hne. unfold active_items. cbn.
  now destruct (oid_eqb_spec (IItem.category i) c).
Qed.

Lemma active_items_update_first c id f l i :
  find (Item.by_id id) l = Some i ->
  IItem.category i <> c -> IItem.category (f i) <> c ->
  active_items c (update_first (Item.by_id id) f l) = active_items c l.
Proof.
  intros Hfind Hold Hnew. induction l as [|x r IH]; [discriminate|].
  cbn in Hfind |- *. destruct (Item.by_id id x).
  - injection Hfind as ->.
    change (active_items c ([f i] ++ r) = active_items c ([i] ++ r)).
    now rewrite !active_items_app, !active_items_other.
  - change (active_items c ([x] ++ update_first (Item.by_id id) f r)
            = active_items c ([x] ++ r)).
    now rewrite !active_items_app, IH.
Qed.

Lemma active_items_remove_first c id l i :
  find (Item.by_id id) l = Some i ->
  IItem.category i <> c ->
  active_items c (remove_first (Item.by_id id) l) = active_items c l.
Proof.
  intros Hfind Hold. induction l as [|x r IH]; [discriminate|].
  cbn in Hfind |- *. destruct (Item.by_id id x).
  - injection Hfind as ->.
    change (active_items c r = active_items c ([i] ++ r)).
    now rewrite active_items_app, active_items_other.
  - change (active_items c ([x] ++ remove_first (Item.by_id id) r)
            = active_items c ([x] ++ r)).
    now rewrite !active_items_app, IH.
Qed.

Lemma remove_first_none {D} (p : D -> bool) l :
  find p l = None -> remove_first p l = l.
Proof.
  induction l as [|x r IH]; [reflexivity|]. cbn.
  destruct (p x); [discriminate|]. intros H. now rewrite IH.
Qed.

Lemma settled_items l s pending w :
  settled s w ->
  (forall c, ~ In c pending -> active_items c l = active_items c (items w)) ->
  incl s pending ->
  settled pending (set_items l w).
Proof.
  intros (Hf & Hu & Hr) Hl Hi. split; [exact Hf|]. split; [exact Hu|].
  intros c Hc Hn. unfold set_items in *. cbn [items categories] in *.
  rewrite (Hl _ Hn). apply Hr; [exact Hc|].
  intros Hin. apply Hn. now apply Hi.
Qed.

Lemma insert_settles validate id fields :
  hoare (settled []) (Item.insert validate id fields)
    (fun i w => settled [IItem.category i] w) (settled []).
Proof.
  unfold Item.insert. apply hoare_await; [apply settled_faults|].
  intros w Hw. cbv zeta.
  destruct (castObjectId _) as [cat|]; [|exact Hw].
  destruct (validate (Item.cast fields)); [|exact Hw].
  destruct (existsb _ (items w)); [exact Hw|].
  apply (settled_items _ []); [exact Hw| |intros x []].
  intros c Hn. rewrite active_items_app, active_items_other; [lia|].
  intros E. apply Hn. now left.
Qed.

Lemma remove_settles id :
  hoare (settled [])
    (await (fun w =>
       (Done (find (Item.by_id id) (items w)),
        set_items (remove_first (Item.by_id id) (items w)) w)))
    (fun found w =>
       match found with
       | Some i => settled [IItem.category i] w
       | None => settled [] w
       end)
    (settled []).
Proof.
  apply hoare_await; [apply settled_faults|]. intros w Hw.
  destruct (find (Item.by_id id) (items w)) as [i|] eqn:Ef.
  - apply (settled_items _ []); [exact Hw| |intros x []].
    intros c Hn. apply (active_items_remove_first _ _ _ i Ef).
    intros E. apply Hn. now left.
  - rewrite (remove_first_none _ _ Ef). now destruct w.
Qed.

Lemma lookup_category_id cs id r :
  Item.lookup_category cs id = Some r -> ref_id r = id.
Proof.
  unfold Item.lookup_category.
  destruct (find (Category.by_id id) cs) as [c|] eqn:Ef; [|discriminate].
  intros [= <-]. cbn. apply find_some in Ef as [_ E].
  now apply oid_eqb_eq.
Qed.

Lemma lookup_category_none cs id c :
  Item.lookup_category cs id = None -> In c cs -> ICategory._id c <> id.
Proof.
  unfold Item.lookup_category.
  destruct (find (Category.by_id id) cs) as [d|] eqn:Ef; [discriminate|].
  intros _ Hin E. apply find_none_existsb in Ef.
  assert (existsb (Category.by_id id) cs = true); [|congruence].
  apply existsb_exists. exists c. split; [exact Hin|].
  unfold Category.by_id. rewrite E. apply oid_eqb_refl.
Qed.

Lemma update_settles id update its :
  hoare (fun w => settled [] w /\ items w = its)
    (Item.Relaxed.findByIdAndUpdate id update)
    (fun p w =>
       match p with
       | Some p =>
           exists cur new,
             find (Item.by_id id) its = Some cur
             /\ Item.Relaxed.cast_category (Item.Relaxed.u_category update)
                = Some new
             /\ settled [IItem.category cur; IItem.category (doc p)] w
             /\ IItem.category (doc p)
                = Item.Relaxed.or_keep new (IItem.category cur)
             /\ category_ref p
                = Item.lookup_category (categories w)
                    (IItem.category (doc p))
       | None => settled [] w
       end)
    (settled []).
Proof.
  unfold Item.Relaxed.findByIdAndUpdate.
  destruct (Item.Relaxed.cast_category _) as [new|] eqn:Ec;
    [|apply hoare_throw; now intros w [Hw _]].
  apply hoare_await; [intros w [Hw _]; now apply (settled_faults [])|].
  intros w [Hw <-]. cbv zeta.
  destruct (Item.Relaxed.validate_update _); [|exact Hw].
  destruct (find (Item.by_id id) (items w)) as [i|] eqn:Ef; [|exact Hw].
  match goal with |- context [if ?b then _ else _] => destruct b end;
    [exact Hw|].
  exists i, new. split; [reflexivity|]. split; [reflexivity|].
  split; [|split; reflexivity].
  apply (settled_items _ []); [exact Hw| |intros x []].
  intros c Hn. apply (active_items_update_first _ _ _ _ i Ef).
  - intros E. apply Hn. now left.
  - intros E. apply Hn. right. now left.
Qed.

(** *** The handlers *)

Lemma settled_log s w lg : settled s w -> settled s (set_log lg w).
Proof. intros H. exact H. Qed.

Lemma hoare_new_ObjectId s E :
  hoare (settled s) new_ObjectId (fun _ => settled s) E.
Proof. intros w Hw. exact Hw. Qed.

Lemma create_settles fields :
  hoare (settled []) (Item.Relaxed.create fields)
    (fun _ => settled []) (settled []).
Proof.
  unfold Item.Relaxed.create.
  apply (hoare_bind _ _ (fun _ => settled [])); [apply hoare_new_ObjectId|].
  intros id.
  apply (hoare_bind _ _ (fun i => settled [IItem.category i]));
    [apply insert_settles|].
  intros i. apply (hoare_bind _ _ (fun _ => settled [])).
  - apply count_hook_fixes.
  - intros _. now apply hoare_ret.
Qed.

Lemma findByIdAndDelete_settles id :
  hoare (settled []) (Item.Relaxed.findByIdAndDelete id)
    (fun _ => settled []) (settled []).
Proof.
  unfold Item.Relaxed.findByIdAndDelete.
  apply (hoare_bind _ _ _ _ _ _ (remove_settles id)).
  intros [i|]; [|now apply hoare_ret].
  apply (hoare_bind _ _ (fun _ => settled [])).
  - apply count_hook_fixes.
  - intros _. now apply hoare_ret.
Qed.

Lemma deleteItem_settles rf id :
  hoare (settled []) (Relaxed.deleteItem rf id)
    (fun _ => settled []) (settled []).
Proof.
  unfold Relaxed.deleteItem. apply hoare_try_catch.
  - apply (hoare_bind _ _ (fun _ => settled [])).
    { apply hoare_casting; [|auto]. intros oid _.
      apply findByIdAndDelete_settles. }
    intros [i|]; [|now apply hoare_ret].
    apply (hoare_bind _ _ _ _ _ _ (recount_settled _ _ [])).
    intros _. now apply hoare_ret.
  - intros e. apply hoare_internal_error; [apply settled_log|auto].
Qed.

Lemma item_slug_taken_settles s :
  hoare (settled []) (item_slug_taken s) (fun _ => settled []) (settled []).
Proof.
  unfold item_slug_taken, Item.findOne.
  apply (hoare_bind _ _ (fun _ => settled [])).
  - apply hoare_read_keeps, settled_faults.
  - intros o. now apply hoare_ret.
Qed.

Lemma createItem_settles fuel rf body :
  hoare (settled []) (Relaxed.createItem fuel rf body)
    (fun _ => settled []) (settled []).
Proof.
  unfold Relaxed.createItem. apply hoare_try_catch.
  - destruct (category body) as [cat|]; [|now apply hoare_ret].
    destruct (Text.is_empty cat); [now apply hoare_ret|].
    destruct (check_characters _);
      [now apply hoare_throw|now apply hoare_ret|].
    cbv zeta. destruct (negb (Text.truthy _)); [now apply hoare_ret|].
    apply (hoare_bind _ _ (fun _ => settled [])).
    { apply hoare_casting; [|auto]. intros oid _.
      unfold Category.findById. apply hoare_read_keeps, settled_faults. }
    intros found. destruct (negb (is_some found)); [now apply hoare_ret|].
    apply (hoare_bind _ _ (fun _ => settled [])).
    { apply hoare_make_unique, item_slug_taken_settles. }
    intros u. apply (hoare_bind _ _ _ _ _ _ (create_settles _)).
    intros item. apply (hoare_bind _ _ _ _ _ _ (recount_settled _ _ [])).
    intros _. apply (hoare_bind _ _ (fun _ => settled [])).
    { unfold Item.populate_category. apply hoare_read_keeps, settled_faults. }
    intros p. now apply hoare_ret.
  - intros e. apply hoare_internal_error; [apply settled_log|auto].
Qed.

Lemma settled_absent cat s w :
  settled (cat :: s) w ->
  Item.lookup_category (categories w) cat = None ->
  settled s w.
Proof.
  intros (Hf & Hu & Hr) Hnone. split; [exact Hf|]. split; [exact Hu|].
  intros c Hc Hn. apply Hr; [exact Hc|].
  intros [E|Hin]; [|now apply Hn].
  now apply (lookup_category_none _ _ c Hnone Hc).
Qed.

Lemma updateItemStatus_settles id status :
  hoare (settled []) (Relaxed.updateItemStatus no_recount_faults id status)
    (fun _ => settled []) (settled []).
Proof.
  intros w0 Hw0. revert w0 Hw0.
  unfold Relaxed.updateItemStatus. apply hoare_try_catch.
  - intros w0 Hw0.
    apply (hoare_bind
             (fun w => settled [] w /\ items w = items w0) _
             (fun p w =>
                match p with
                | Some p =>
                    exists cur,
                      settled [IItem.category cur; IItem.category (doc p)] w
                      /\ IItem.category (doc p) = IItem.category cur
                      /\ category_ref p
                         = Item.lookup_category (categories w)
                             (IItem.category (doc p))
                | None => settled [] w
                end)); [| |now split].
    { apply hoare_casting; [|now intros w [Hw _]]. intros oid _.
      apply (hoare_weaken _ _ _ _ _ _ _
               (update_settles oid
                  (Item.Relaxed.mkUpdate None None None None status None)
                  (items w0))); [auto| |auto].
      intros [p|] w; [|auto].
      intros (cur & new & _ & Ec & Hs & Hcat & Hlook).
      cbn in Ec. injection Ec as <-. exists cur. auto. }
    intros [p|]; [|now apply hoare_ret].
    destruct (category_ref p) as [c|].
    + apply (hoare_bind _ _ (fun _ => settled [])); [|intros _;
        now apply hoare_ret].
      intros w (cur & Hs & Hcat & Hlook).
      symmetry in Hlook. pose proof (lookup_category_id _ _ _ Hlook) as Eref.
      unfold no_recount_faults. apply recount_fixes_stored.
      apply (settled_incl [IItem.category cur; IItem.category (doc p)]);
        [|exact Hs].
      rewrite Eref, <- Hcat. intros x [<-|[<-|[]]]; now left.
    + apply hoare_throw. intros w (cur & Hs & Hcat & Hlook).
      symmetry in Hlook. rename Hlook into Eref.
      rewrite Hcat in Eref, Hs.
      apply (settled_absent (IItem.category cur)); [|exact Eref].
      apply (settled_absent (IItem.category cur)); [exact Hs|exact Eref].
  - intros e. apply hoare_internal_error; [apply settled_log|auto].
Qed.

(** The request either names another category, by a string that the
    update has cast, or leaves the item in its category. *)
Lemma category_changes_cases c new old :
  Item.Relaxed.cast_category c = Some new ->
  (Relaxed.category_changes c old = true
   /\ exists s n, c = Some s /\ castObjectId s = Some n /\ new = Some n)
  \/ (Relaxed.category_changes c old = false
      /\ Item.Relaxed.or_keep new old = old).
Proof.
  unfold Item.Relaxed.cast_category, Relaxed.category_changes.
  destruct c as [s|]; [|intros [= <-]; now right].
  destruct (castObjectId s) as [n|] eqn:Ec; [|discriminate].
  intros [= <-].
  destruct s as [|a s]; [discriminate Ec|].
  change (Text.truthy (Some (String a s))) with true.
  cbn [Category.or_default Item.Relaxed.or_keep andb].
  destruct (String.eqb_spec (String a s) (toString old)) as [E|E].
  - right. split; [reflexivity|].
    rewrite E, castObjectId_toString in Ec. now injection Ec.
  - left. split; [reflexivity|]. now exists (String a s), n.
Qed.

Lemma updateItem_settles id body :
  hoare (settled []) (Relaxed.updateItem no_recount_faults id body)
    (fun _ => settled []) (settled []).
Proof.
  intros w0 Hw0.
  assert (Hreads : forall w, settled [] w /\ items w = items w0 ->
                             faults w = [])
    by (intros w [Hs _]; now apply (settled_faults [])).
  assert (Hdone : forall (r : Response) w,
             settled [] w /\ items w = items w0 -> settled [] w)
    by (now intros r w [Hs _]).
  assert (Hgoal : hoare (fun w => settled [] w /\ items w = items w0)
                    (Relaxed.updateItem no_recount_faults id body)
                    (fun _ => settled []) (settled []));
    [|now apply Hgoal].
  unfold Relaxed.updateItem. apply hoare_try_catch;
    [|intros e; apply hoare_internal_error; [apply settled_log|auto]].
  destruct (check_characters _);
    [apply hoare_throw; now intros w [Hs _]
    |apply hoare_ret; now intros w [Hs _]|].
  unfold casting. destruct (castObjectId id) as [oid|] eqn:Eid;
    [|apply (hoare_bind _ _ (fun _ _ => False));
      [apply hoare_throw; now intros w [Hs _]|intros a w []]].
  apply (hoare_bind _ _ _ _ _ _
           (hoare_weaken _ _ _ _ _ _ (settled [])
              (hoare_read _ _ (fun w => settled [] w /\ items w = items w0)
                 Hreads)
              (fun w Hw => Hw) (fun a w Hw => Hw)
              (fun w Hw => proj1 Hw))).
  intros [cur|]; [|apply hoare_ret; now intros w [[Hs _] _]].
  apply (hoare_pre
           (fun w => (settled [] w /\ items w = items w0)
                     /\ find (Item.by_id oid) (items w0) = Some cur));
    [|intros w [[Hs Hits] Hcur]; rewrite Hits in Hcur; auto].
  apply hoare_pure. intros Hcur. cbv zeta.
  apply (hoare_bind _ _ (fun _ w => settled [] w /\ items w = items w0)).
  { destruct (Relaxed.category_changes _ _).
    - apply (hoare_bind _ _
               (fun _ w => settled [] w /\ items w = items w0)).
      + destruct (castObjectId (Category.or_default "" (category body)));
          [|apply hoare_throw; now intros w [Hs _]].
        unfold Category.findById. apply (hoare_pre _ _ _ _ _
          (hoare_weaken _ _ _ _ _ _ _
             (hoare_read_keeps _ _ (fun w => settled [] w
                                             /\ items w = items w0) Hreads)
             (fun w Hw => Hw) (fun a w Hw => Hw) (fun w Hw => proj1 Hw))).
        auto.
      + intros found. apply hoare_ret. auto.
    - apply hoare_ret. auto. }
  intros categoryExists. destruct (negb categoryExists);
    [apply hoare_ret; now intros w [Hs _]|].
  apply (hoare_bind _ _ (fun _ w => settled [] w /\ items w = items w0)).
  { match goal with |- hoare _ (if ?b then _ else _) _ _ => destruct b end.
    - apply (hoare_bind _ _
               (fun _ w => settled [] w /\ items w = items w0)).
      + unfold Item.findOne. apply (hoare_pre _ _ _ _ _
          (hoare_weaken _ _ _ _ _ _ _
             (hoare_read_keeps _ _ (fun w => settled [] w
                                             /\ items w = items w0) Hreads)
             (fun w Hw => Hw) (fun a w Hw => Hw) (fun w Hw => proj1 Hw))).
        auto.
      + intros found. apply hoare_ret. auto.
    - apply hoare_ret. auto. }
  intros existingItem. destruct existingItem;
    [apply hoare_ret; now intros w [Hs _]|].
  apply (hoare_bind _ _ _ _ _ _ (update_settles oid _ (items w0))).
  intros [p|]; [|now apply hoare_ret].
  apply (hoare_bind _ _ (fun _ => settled [])); [|intros _;
    now apply hoare_ret].
  intros w (cur' & new & Hcur' & Ec & Hs & Hcat & _).
  rewrite Hcur in Hcur'. injection Hcur' as <-.
  cbn [Item.Relaxed.u_category] in Ec. rewrite Hcat in Hs.
  unfold no_recount_faults.
  destruct (category_changes_cases (category body) new (IItem.category cur)
              Ec) as [[-> (s & n & Hbody & Hn & ->)]|[-> Hkeep]].
  - rewrite Hbody. cbn [Category.or_default Item.Relaxed.or_keep] in *.
    refine (hoare_bind (settled [IItem.category cur; n]) _
              (fun _ => settled [n]) _ (fun _ => settled []) (settled [])
              _ _ w Hs).
    + apply recount_fixes_stored.
    + intros _. now apply recount_fixes.
  - apply (recount_fixes_stored (IItem.category cur) [] (settled []) w).
    revert Hs. apply settled_incl.
    intros x [<-|[<-|[]]]; left; [reflexivity|symmetry; exact Hkeep].
Qed.

(** X15: With distinct category identifiers and no failing call of the
    handler, the relaxed [deleteItem] and [createItem] leave every
    category with the number of its active items if it had it before,
    even when the recount that the handler itself asks for fails: the
    hooks of the model have counted already. *)
Theorem hooks_keep_counters fuel rf id body w :
  faults w = [] -> unique_ids w -> counters_right w ->
  counters_right (world (Relaxed.deleteItem rf id w))
  /\ counters_right (world (Relaxed.createItem fuel rf body w)).
Proof.
  intros Hf Hu Hc. pose proof (counters_settled w Hf Hu Hc) as Hs.
  split; apply settled_counters.
  - pose proof (deleteItem_settles rf id w Hs) as H. unfold world.
    now destruct (Relaxed.deleteItem rf id w) as [[r| e|] w'].
  - pose proof (createItem_settles fuel rf body w Hs) as H. unfold world.
    now destruct (Relaxed.createItem fuel rf body w) as [[r| e|] w'].
Qed.

(** X16: With distinct category identifiers and no failing call of the
    handler, the relaxed [updateItemStatus] leaves every category with
    the number of its active items if it had it before, provided that
    the recount it asks for is answered: no hook runs on an update. *)
Theorem updateItemStatus_keeps_counters id status w :
  faults w = [] -> unique_ids w -> counters_right w ->
  counters_right
    (world (Relaxed.updateItemStatus no_recount_faults id status w)).
Proof.
  intros Hf Hu Hc. pose proof (counters_settled w Hf Hu Hc) as Hs.
  apply settled_counters.
  pose proof (updateItemStatus_settles id status w Hs) as H. unfold world.
  now destruct (Relaxed.updateItemStatus no_recount_faults id status w)
    as [[r| e|] w'].
Qed.

Lemma insert_settles_in validate id fields :
  hoare (settled []) (Item.insert validate id fields)
    (fun i w =>
       exists cat,
         castObjectId (Item.category fields) = Some cat
         /\ settled [cat] w)
    (settled []).
Proof.
  unfold Item.insert. apply hoare_await; [apply settled_faults|].
  intros w Hw. cbv zeta.
  destruct (castObjectId (Item.category (Item.cast fields))) as [cat|] eqn:Ec;
    [|exact Hw].
  destruct (validate (Item.cast fields)); [|exact Hw].
  destruct (existsb _ (items w)); [exact Hw|].
  exists cat. split; [exact Ec|].
  apply (settled_items _ []); [exact Hw| |intros x []].
  intros c Hn. rewrite active_items_app, active_items_other; [lia|].
  intros E. apply Hn. now left.
Qed.

Lemma createItem_typed_settles admin body :
  hoare (settled []) (Typed.createItem no_recount_faults admin body)
    (fun _ => settled []) (settled []).
Proof.
  unfold Typed.createItem. apply hoare_try_catch.
  - apply (hoare_bind _ _ (fun _ => settled [])).
    { unfold Typed.find_category, Category.findById.
      destruct (category body).
      - apply hoare_casting; [|auto]. intros oid _.
        apply hoare_read_keeps, settled_faults.
      - apply hoare_await; [apply settled_faults|]. now apply hoare_ret. }
    intros [found|]; [|now apply hoare_ret].
    destruct (category body) as [cat|]; [|now apply hoare_ret].
    apply (hoare_bind _ _ (fun _ => settled [])).
    { unfold Item.findOne. apply hoare_read_keeps, settled_faults. }
    intros existing. destruct (is_some existing); [now apply hoare_ret|].
    apply (hoare_bind _ _
             (fun _ w =>
                exists oid, castObjectId cat = Some oid /\ settled [oid] w)).
    { unfold Item.Typed.create.
      apply (hoare_bind _ _ (fun _ => settled []));
        [apply hoare_new_ObjectId|].
      intros id. apply insert_settles_in. }
    intros item. apply (hoare_bind _ _ (fun _ => settled [])).
    { unfold no_recount_faults. intros w (oid & Ec & Hs).
      now apply (recount_fixes cat oid [] (settled []) Ec w). }
    intros _. apply (hoare_bind _ _ (fun _ => settled [])).
    { unfold Item.populate_category. apply hoare_read_keeps, settled_faults. }
    intros p. apply (hoare_bind _ _ (fun _ => settled [])).
    { unfold Item.populate_createdBy.
      apply hoare_read_keeps, settled_faults. }
    intros q. now apply hoare_ret.
  - intros e. apply hoare_internal_error; [apply settled_log|auto].
Qed.

(** X18: With distinct category identifiers and no failing call of the
    handler, the typed [createItem], whose model has no hook, leaves
    every category with the number of its active items if it had it
    before, provided that the recount it asks for is answered. *)
Theorem createItem_typed_keeps_counters admin body w :
  faults w = [] -> unique_ids w -> counters_right w ->
  counters_right (world (Typed.createItem no_recount_faults admin body w)).
Proof.
  intros Hf Hu Hc. pose proof (counters_settled w Hf Hu Hc) as Hs.
  apply settled_counters.
  pose proof (createItem_typed_settles admin body w Hs) as H. unfold world.
  now destruct (Typed.createItem no_recount_faults admin body w)
    as [[r| e|] w'].
Qed.

(** X17: With distinct category identifiers, no failing call of the
    handler and answered recounts, the relaxed [updateItem], which may
    change status and category at once, leaves every category with the
    number of its active items if it had it before, for a request whose
    category is not the empty string. *)
Theorem updateItem_keeps_counters id body w :
  category body <> Some "" ->
  faults w = [] -> unique_ids w -> counters_right w ->
  counters_right (world (Relaxed.updateItem no_recount_faults id body w)).
Proof.
  intros Hb Hf Hu Hc. pose proof (counters_settled w Hf Hu Hc) as Hs.
  apply settled_counters.
  pose proof (updateItem_settles id body w Hs) as H. unfold world.
  now destruct (Relaxed.updateItem no_recount_faults id body w)
    as [[r| e|] w'].
Qed.

Lemma counted_world_right :
  faults counted_world = [] /\ unique_ids counted_world
  /\ counters_right counted_world.
Proof.
  split; [reflexivity|]. split.
  - unfold unique_ids. cbn. repeat constructor; cbn; intuition discriminate.
  - intros c [<-|[<-|[]]]; reflexivity.
Qed.

Lemma hooks_keep_counters_counted_world :
  counters_right
    (world (Relaxed.deleteItem (fun _ => [true]) (toString alien_id)
              counted_world)).
Proof.
  destruct counted_world_right as (Hf & Hu & Hc).
  apply (hooks_keep_counters 0 (fun _ => [true]) (toString alien_id) untitled
           counted_world Hf Hu Hc).
Defined.

Lemma updateItemStatus_keeps_counters_counted_world :
  counters_right
    (world (Relaxed.updateItemStatus no_recount_faults (toString brazil_id)
              (Some "active") counted_world)).
Proof.
  destruct counted_world_right as (Hf & Hu & Hc).
  apply (updateItemStatus_keeps_counters (toString brazil_id) (Some "active")
           counted_world Hf Hu Hc).
Defined.

Lemma createItem_typed_keeps_counters_counted_world :
  counters_right
    (world (Typed.createItem no_recount_faults (Some root)
              (mkBody (Some "Heat") (Some "heat") (Some "Cops and robbers")
                 (Some movies_id_in_capitals) (Some "active") None)
              counted_world)).
Proof.
  destruct counted_world_right as (Hf & Hu & Hc).
  apply (createItem_typed_keeps_counters (Some root)
           (mkBody (Some "Heat") (Some "heat") (Some "Cops and robbers")
              (Some movies_id_in_capitals) (Some "active") None)
           counted_world Hf Hu Hc).
Defined.

Lemma updateItem_keeps_counters_counted_world :
  counters_right
    (world (Relaxed.updateItem no_recount_faults (toString alien_id)
              (mkBody None None None (Some (toString games_id)) None None)
              counted_world)).
Proof.
  destruct counted_world_right as (Hf & Hu & Hc).
  apply (updateItem_keeps_counters (toString alien_id)
           (mkBody None None None (Some (toString games_id)) None None)
           counted_world);
    [discriminate|exact Hf|exact Hu|exact Hc].
Defined.

End CounterFacts.

(** ** Slugs: the chain of the controllers and the chain of the hooks *)

Module SlugMoreFacts.
Import Text Store Http Models CategoryController PreSave Spec TextFacts
  SlugFacts.

(** X19: What the controllers derive from a name or a title is the empty
    string or a clean slug (so the schema's pattern accepts it), and
    deriving again from the result changes nothing. *)
Theorem slugify_normal_form s :
  (slugify s = "" \/ is_clean_slug (slugify s) = true)
  /\ slugify (slugify s) = slugify s.
Proof.
  split; [apply slugify_shape|].
  destruct (slugify_shape s) as [E|H]; [now rewrite E|].
  now apply slugify_fixes_clean.
Qed.

Lemma hyphenate_slug_char c : is_slug_char (hyphenate c) = true.
Proof. by_cases_on_char c. Qed.

Lemma hyphenate_fixed c : is_slug_char c = true -> hyphenate c = c.
Proof. by_cases_on_char c. Qed.

Lemma map_hyphenate_chars s :
  all_chars is_slug_char (map_chars hyphenate s) = true.
Proof.
  induction s as [|c s IH]; [reflexivity|]. cbn.
  now rewrite hyphenate_slug_char, IH.
Qed.

Lemma map_hyphenate_slug s :
  all_chars is_slug_char s = true -> map_chars hyphenate s = s.
Proof.
  induction s as [|c s IH]; [reflexivity|]. intros H.
  apply all_chars_cons in H as [Hc Hs]. cbn.
  now rewrite (hyphenate_fixed c Hc), IH.
Qed.

Lemma hook_slug_chars s : all_chars is_slug_char (hook_slug s) = true.
Proof.
  unfold hook_slug, strip_edge_hyphens, squeeze_hyphens.
  apply strip_trailing_hyphen_chars, strip_leading_hyphen_chars,
    squeeze_hyphens_chars, map_hyphenate_chars.
Qed.

Lemma hook_slug_shape s :
  hook_slug s = "" \/ is_clean_slug (hook_slug s) = true.
Proof.
  destruct (hook_slug s) as [|c t] eqn:E; [now left|right].
  rewrite <- E. unfold is_clean_slug, matches_slug_pattern.
  rewrite hook_slug_chars. rewrite E at 1. cbn [is_empty negb andb].
  unfold hook_slug, strip_edge_hyphens, squeeze_hyphens.
  destruct (squeeze_hyphens_shape false (map_chars hyphenate (toLowerCase s)))
    as [Hrun _].
  destruct (strip_leading_hyphen_shape _ Hrun) as [Hrun' Hstart].
  destruct (strip_trailing_hyphen_shape _ Hrun') as [Hrun'' Hend].
  now rewrite (strip_trailing_hyphen_start _ Hstart), Hend, Hrun''.
Qed.

Lemma hook_slug_fixes_clean s : is_clean_slug s = true -> hook_slug s = s.
Proof.
  unfold is_clean_slug, matches_slug_pattern. intros H.
  repeat (apply andb_true_iff in H as [H ?]).
  repeat match goal with
         | E : negb _ = true |- _ => apply negb_true_iff in E
         end.
  unfold hook_slug, strip_edge_hyphens, squeeze_hyphens.
  rewrite toLowerCase_slug, map_hyphenate_slug by assumption.
  rewrite squeeze_hyphens_no_run by (try assumption; discriminate).
  rewrite strip_leading_hyphen_none by assumption.
  now apply strip_trailing_hyphen_none.
Qed.

(** X20: The chain of the two pre-save hooks, which turns every other
    character into a hyphen instead of dropping it, also ends in the
    empty string or a clean slug and is idempotent; and it leaves alone
    every slug that the chain of the controllers has made. *)
Theorem hook_slug_normal_form s :
  (hook_slug s = "" \/ is_clean_slug (hook_slug s) = true)
  /\ hook_slug (hook_slug s) = hook_slug s
  /\ hook_slug (slugify s) = slugify s.
Proof.
  split; [apply hook_slug_shape|]. split.
  - destruct (hook_slug_shape s) as [E|H]; [now rewrite E|].
    now apply hook_slug_fixes_clean.
  - destruct (slugify_shape s) as [E|H]; [now rewrite E|].
    now apply hook_slug_fixes_clean.
Qed.

Lemma create_returns fields w :
  faults w = [] -> outcome (Category.create fields w) <> OutOfFuel.
Proof.
  intros Hf. unfold Category.create, bind, new_ObjectId, await, outcome.
  cbn. rewrite Hf.
  destruct (Category.validate (Category.cast fields)); [|discriminate].
  destruct (existsb _ (categories w)); discriminate.
Qed.

(** X7: The loop of the relaxed [createCategory] ends: when no store call
    fails, a bound on the probes that exceeds the number of stored
    categories is never reached, and the request is answered. *)
Theorem createCategory_terminates fuel body w :
  faults w = [] ->
  length (categories w) < fuel ->
  exists res, outcome (createCategory fuel body w) = Done res.
Proof.
  intros Hf Hfuel. unfold createCategory. rewrite KeepFacts.try_catch_run.
  match goal with |- context [if ?b then ret _ else _] => destruct b end.
  - eexists. reflexivity.
  - rewrite KeepFacts.bind_run.
    match goal with |- context [make_unique _ fuel ?b ?b 1 w] =>
      destruct (make_unique_terminates b w fuel Hf Hfuel)
        as (n & _ & -> & _)
    end.
    rewrite KeepFacts.bind_run.
    match goal with |- context [Category.create ?f w] =>
      pose proof (create_returns f w Hf) as Hc;
      destruct (Category.create f w) as [[c| e|] w2]
    end.
    + eexists. reflexivity.
    + eexists. reflexivity.
    + now contradiction Hc.
Qed.

Lemma createCategory_terminates_small_world :
  exists res, outcome (createCategory 3 science_fiction small_world) = Done res.
Proof.
  apply (createCategory_terminates 3 science_fiction small_world eq_refl).
  cbn. lia.
Defined.

End SlugMoreFacts.

(** ** Accounts: [register] and [changePassword] *)

Module AccountFacts.
Import Store Http Models CategoryController Auth Account Spec Invariants
  Examples KeepFacts ListFacts.

Lemma find_app_new {D} (p : D -> bool) l d :
  existsb p l = false -> p d = true -> find p (l ++ [d]) = Some d.
Proof.
  intros Hl Hd. induction l as [|x r IH].
  - cbn. now rewrite Hd.
  - cbn in Hl. apply orb_false_iff in Hl as [Hx Hr]. cbn. rewrite Hx.
    now apply IH.
Qed.

Lemma not_in_map_existsb {D} (g : D -> string) v l :
  existsb (fun b => String.eqb (g b) v) l = false -> ~ In v (map g l).
Proof.
  intros E Hin. apply in_map_iff in Hin as (b & Hb & Hin).
  assert (existsb (fun b => String.eqb (g b) v) l = true); [|congruence].
  apply existsb_exists. exists b. split; [exact Hin|].
  rewrite Hb. apply String.eqb_refl.
Qed.

Section WithLibraries.
Context `{BcryptHash} `{Jwt}.

(** What [new Admin(fields).save()] leaves behind. *)
Lemma admin_create_result salt fields w :
  match Account.create salt fields w with
  | (Done a, w') =>
      admins w' = admins w ++ [a]
      /\ Account.validate (Account.cast fields) = []
      /\ IAdmin.email a
         = Category.or_default "" (Account.email (Account.cast fields))
      /\ IAdmin.password a
         = bcrypt_hash salt
             (Category.or_default "" (Account.password fields))
      /\ IAdmin.isActive a = true
      /\ existsb (fun b => String.eqb (IAdmin.email b) (IAdmin.email a))
           (admins w) = false
      /\ existsb (fun b => String.eqb (IAdmin.username b) (IAdmin.username a))
           (admins w) = false
      /\ (faults w = [] ->
          w' = set_admins (admins w ++ [a]) (set_next_oid (S (next_oid w)) w))
  | (_, w') => admins w' = admins w
  end.
Proof.
  unfold Account.create, bind, new_ObjectId, await.
  cbn [faults set_next_oid].
  destruct (faults w) as [|[|] fs]; [|reflexivity|];
    cbv beta zeta; cbn [admins set_next_oid set_faults faults tl];
    (destruct (Account.validate (Account.cast fields)) eqn:Ev;
       [|cbv beta iota; reflexivity]);
    match goal with |- context [Done ?x] => set (a := x) end;
    (destruct (existsb (fun b => String.eqb (IAdmin.email b) (IAdmin.email a))
                 (admins w)) eqn:Ex1; [cbv beta iota; reflexivity|]);
    (destruct (existsb
                 (fun b => String.eqb (IAdmin.username b) (IAdmin.username a))
                 (admins w)) eqn:Ex2; [cbv beta iota; reflexivity|]);
    cbv beta iota;
    (split; [reflexivity|]); (split; [reflexivity|]);
    (split; [reflexivity|]); (split; [reflexivity|]);
    (split; [reflexivity|]); (split; [exact Ex1|]); (split; [exact Ex2|]);
    intros Hf; first [discriminate Hf|reflexivity].
Qed.

Lemma findOne_admin_run q w :
  exists w1,
    admins w1 = admins w
    /\ (Admin.findOne q w = (Done (find q (admins w)), w1)
        \/ Admin.findOne q w = (Thrown MongoError, w1)).
Proof.
  unfold Admin.findOne, await.
  destruct (faults w) as [|[|] fs].
  - exists w. split; [reflexivity|now left].
  - exists (set_faults fs w). split; [reflexivity|now right].
  - exists (set_faults fs w). split; [reflexivity|now left].
Qed.

(** X21: [register] changes the admins only when it answers 201, whatever
    store calls fail, and then by adding one admin: the one that the
    answer describes, active, whose email and user name no stored admin
    had, and whose stored password is the hash of the password of the
    request, which [bcrypt.compare] accepts for it.  So emails and user
    names stay pairwise distinct. *)
Theorem register_effect salt body w :
  let r := register salt body w in
  (unique_admins w -> unique_admins (world r))
  /\ match outcome r with
     | Done (res, described) =>
         (Http.status res = 201
          /\ exists a,
               admins (world r) = admins w ++ [a]
               /\ described = Some (summary a)
               /\ IAdmin.isActive a = true
               /\ ~ In (IAdmin.email a) (map IAdmin.email (admins w))
               /\ ~ In (IAdmin.username a) (map IAdmin.username (admins w))
               /\ IAdmin.password a
                  = bcrypt_hash salt
                      (Category.or_default "" (Account.password body))
               /\ bcrypt_compare
                    (Category.or_default "" (Account.password body))
                    (IAdmin.password a) = true)
         \/ (Http.status res <> 201 /\ described = None
             /\ admins (world r) = admins w)
     | _ => admins (world r) = admins w
     end.
Proof.
  cbv zeta. unfold register. rewrite try_catch_run, bind_run.
  destruct (findOne_admin_run
              (email_or_username (Account.email body) (Account.username body))
              w) as (w1 & Hw1 & [E|E]); rewrite E.
  - destruct (is_some _).
    + unfold unique_admins. cbn. rewrite Hw1. split; [auto|].
      right. split; [discriminate|now split].
    + rewrite bind_run.
      match goal with |- context [Account.create salt ?f w1] =>
        pose proof (admin_create_result salt f w1) as Hc;
        destruct (Account.create salt f w1) as [[a| e|] w2]
      end.
      * destruct Hc as (Ha & _ & _ & Hp & Hact & Hemail & Huser & _).
        cbn [Account.password] in Hp. unfold world, outcome.
        cbn [fst snd ret]. cbv beta iota.
        apply not_in_map_existsb in Hemail, Huser.
        rewrite Hw1 in Hemail, Huser.
        split.
        -- intros [Hue Huu]. unfold unique_admins. rewrite Ha, Hw1.
           rewrite !map_app.
           split; now apply NoDup_snoc.
        -- left. split; [reflexivity|]. exists a. rewrite Ha, Hw1.
           repeat (split; [first [reflexivity|assumption]|]).
           rewrite Hp. apply bcrypt_hash_compare.
      * unfold unique_admins. cbn. rewrite Hc, Hw1. split; [auto|].
        right. split; [discriminate|now split].
      * unfold unique_admins. cbn. rewrite Hc, Hw1. now split.
  - unfold unique_admins. cbn. rewrite Hw1. split; [auto|].
    right. split; [discriminate|now split].
Qed.

Lemma existsb_active_with_email e l :
  Text.toLowerCase (Text.trim e) = e ->
  existsb (fun b => String.eqb (IAdmin.email b) e) l = false ->
  existsb (Admin.active_with_email e) l = false.
Proof.
  intros He.
  induction l as [|b r IH]; [reflexivity|]. cbn. intros Hl.
  apply orb_false_iff in Hl as [Hb Hr]. unfold Admin.active_with_email at 1.
  rewrite He, Hb. cbn. now apply IH.
Qed.

(** The email of a new admin is as the setters of the schema make it. *)
Lemma cast_email_stable fields :
  Text.toLowerCase
    (Text.trim (Category.or_default "" (Account.email (Account.cast fields))))
  = Category.or_default "" (Account.email (Account.cast fields)).
Proof.
  unfold Account.cast. cbn. destruct (Account.email fields) as [e|]; cbn.
  - apply TextFacts.lower_trim_idem.
  - reflexivity.
Qed.

(** X22: An admin who has just registered can log in: after a 201 of
    [register] in a run without failing store calls, [login] with the
    email of the answer and the password of the request answers 200,
    describes the new admin and hands out a token for it. *)
Theorem register_then_login salt body w res described password :
  faults w = [] ->
  outcome (register salt body w) = Done (res, Some described) ->
  Account.password body = Some password ->
  exists res',
    outcome (login (sum_email described) password
               (world (register salt body w))) = Done res'
    /\ Http.status res' = 200
    /\ data res'
       = LoginData
           (mkAdminSummary (sum_id described) (sum_username described)
              (sum_email described) (sum_role described) (Some (now w)))
           (generateToken (sum_id described)).
Proof.
  intros Hf Hreg Hpw. revert Hreg.
  unfold register. rewrite try_catch_run, bind_run.
  unfold Admin.findOne, await. rewrite Hf.
  destruct (is_some _); [discriminate|].
  rewrite bind_run.
  match goal with |- context [Account.create salt ?f w] =>
    pose proof (admin_create_result salt f w) as Hc;
    destruct (Account.create salt f w) as [[a| e|] w2]
  end; [|discriminate|discriminate].
  destruct Hc as (_ & _ & He & Hp & Hact & Hemail & _ & Hw2).
  specialize (Hw2 Hf). subst w2.
  cbn [Account.password] in Hp. rewrite Hpw in Hp. cbn in Hp.
  unfold outcome, world, ret. cbn [fst snd]. intros [= <- <-].
  assert (Hstable : Text.toLowerCase (Text.trim (IAdmin.email a))
                    = IAdmin.email a).
  { rewrite He. apply cast_email_stable. }
  assert (Hfind : find (Admin.active_with_email (IAdmin.email a))
                    (admins w ++ [a]) = Some a).
  { apply find_app_new; [now apply existsb_active_with_email|].
    unfold Admin.active_with_email.
    now rewrite Hstable, String.eqb_refl, Hact. }
  unfold login, try_catch, bind, Admin.findOne, Admin.comparePassword,
    Admin.save, Date_now, await, ret.
  cbn [faults set_admins set_next_oid admins now summary sum_email sum_id
       sum_username sum_role].
  rewrite Hf, Hfind, Hp, bcrypt_hash_compare.
  repeat (progress (cbn [negb faults set_admins set_next_oid admins now];
                    rewrite ?Hf)).
  eexists. split; [reflexivity|]. split; reflexivity.
Qed.

Lemma authenticate_next_password req w a :
  outcome (authenticate req w) = Done (Next a) -> IAdmin.password a = "".
Proof.
  rewrite MiddlewareFacts.authenticate_cases.
  destruct (negb (Text.truthy (request_token req))); [discriminate|].
  destruct (jwt_check _); try discriminate.
  destruct (faults w) as [|[] fs]; try discriminate;
    (destruct (find (Admin.by_id id) (admins w)) as [a0|]; [|discriminate]);
    (destruct (IAdmin.isActive a0); [|discriminate]);
    now intros [= <-].
Qed.

(** X24: Behind [authenticate], [changePassword] cannot succeed: the admin
    that [authenticate] attaches was loaded without its password, the
    comparison of the current password rejects, and the request is
    answered 500 with every admin as before, whatever passwords it
    carries. *)
Theorem changePassword_behind_authenticate req w a salt current new w' :
  outcome (authenticate req w) = Done (Next a) ->
  outcome (changePassword salt (Some a) current new w')
  = Done (failure 500 "Internal server error")
  /\ admins (world (changePassword salt (Some a) current new w')) = admins w'.
Proof.
  intros Hauth. apply authenticate_next_password in Hauth.
  unfold changePassword, try_catch, bind, comparePassword_loaded.
  rewrite Hauth. now split.
Qed.

End WithLibraries.

Lemma register_effect_ann :
  unique_admins
    (world (@register toy_bcrypt toy_hash "salt" ann small_world)).
Proof.
  destruct (@register_effect toy_bcrypt toy_hash "salt" ann small_world)
    as [Hkeep _].
  apply Hkeep. unfold unique_admins. cbn.
  split; repeat constructor; intros [].
Defined.

(** The email of the request is cast in the filter as it is in a new
    document: an email of a stored admin, written in capitals, is
    taken. *)
Example register_email_in_capitals :
  outcome (@register toy_bcrypt toy_hash "salt"
             (Account.mkFields (Some "ann") (Some " ROOT@Example.com")
                (Some "opensesame") None) small_world)
  = Done (failure 400 "Admin with this email or username already exists",
          None).
Proof. reflexivity. Qed.

Lemma register_then_login_ann :
  exists res',
    outcome (@login toy_bcrypt toy_jwt "ann@example.com" "opensesame"
               (world (@register toy_bcrypt toy_hash "salt" ann small_world)))
    = Done res'
    /\ Http.status res' = 200.
Proof.
  destruct (@register_then_login toy_bcrypt toy_hash toy_jwt "salt" ann
              small_world
              (ok 201 (Some "Admin created successfully") NoData)
              (mkAdminSummary (numbered_ObjectId 7) "ann" "ann@example.com"
                 "admin" None)
              "opensesame" eq_refl eq_refl eq_refl)
    as (res' & Hrun & Hst & _).
  exists res'. split; [exact Hrun|exact Hst].
Defined.

Lemma changePassword_behind_authenticate_root :
  outcome (@changePassword toy_bcrypt toy_hash "salt"
             (Some (Admin.without_password root)) "secret" "opensesame"
             small_world)
  = Done (failure 500 "Internal server error").
Proof.
  apply (@changePassword_behind_authenticate toy_bcrypt toy_hash toy_jwt
           (mkAuthRequest (Some "Bearer signed:65a1f0c2d3e4f5a6b7c8db01") None)
           small_world (Admin.without_password root) "salt" "secret"
           "opensesame" small_world eq_refl).
Defined.

End AccountFacts.

(** ** [extractPublicId] *)

Module CloudinaryFacts.
Import Text Cloudinary.

Lemma match_items_eq s :
  match_items s
  = match
      (if String.prefix folder s
       then
         let captured := until_dot (drop (String.length folder) s) in
         if is_empty captured then None else Some captured
       else None)
    with
    | Some captured => Some captured
    | None =>
        match s with
        | EmptyString => None
        | String _ r => match_items r
        end
    end.
Proof. destruct s; reflexivity. Qed.

Lemma prefix_split p s :
  String.prefix p s = true -> s = (p ++ drop (String.length p) s)%string.
Proof.
  revert s. induction p as [|a p IH]; intros s; [reflexivity|].
  destruct s as [|b s]; [discriminate|]. cbn.
  destruct (ascii_dec a b) as [->|]; [|discriminate].
  intros Hp. now rewrite <- (IH s Hp).
Qed.

Lemma prefix_append_l p s : String.prefix p (p ++ s) = true.
Proof.
  induction p as [|a p IH]; [now destruct s|]. cbn.
  now destruct (ascii_dec a a).
Qed.

Lemma drop_append p s : drop (String.length p) (p ++ s) = s.
Proof. induction p as [|a p IH]; [now destruct s|exact IH]. Qed.

(** The capture stops at the first dot, or at the end. *)
Lemma until_dot_split t :
  exists after,
    t = (until_dot t ++ after)%string
    /\ (after = "" \/ exists r, after = String "." r).
Proof.
  induction t as [|c t (after & Ht & Hafter)].
  - exists "". now split; [|left].
  - cbn. destruct (Ascii.eqb_spec c ".") as [->|Hc].
    + exists (String "." t). split; [reflexivity|right; now exists t].
    + exists after. cbn. now rewrite <- Ht.
Qed.

Lemma until_dot_no_dot t :
  all_chars (fun c => negb (Ascii.eqb c ".")) (until_dot t) = true.
Proof.
  induction t as [|c t IH]; [reflexivity|]. cbn.
  destruct (Ascii.eqb c ".") eqn:Ec; [reflexivity|]. cbn. now rewrite Ec.
Qed.

Lemma until_dot_append name after :
  all_chars (fun c => negb (Ascii.eqb c ".")) name = true ->
  (after = "" \/ exists r, after = String "." r) ->
  until_dot (name ++ after) = name.
Proof.
  intros Hname Hafter. induction name as [|c name IH].
  - destruct Hafter as [->|(r & ->)]; reflexivity.
  - cbn in Hname |- *. apply andb_true_iff in Hname as [Hc Hname].
    apply negb_true_iff in Hc. rewrite Hc. now rewrite IH.
Qed.

Lemma match_items_sound s captured :
  match_items s = Some captured ->
  exists before after,
    s = (before ++ folder ++ captured ++ after)%string
    /\ is_empty captured = false
    /\ all_chars (fun c => negb (Ascii.eqb c ".")) captured = true
    /\ (after = "" \/ exists r, after = String "." r).
Proof.
  revert captured. induction s as [|a s IH]; intros captured;
    rewrite match_items_eq.
  - discriminate.
  - remember (drop (String.length folder) (String a s)) as d eqn:Ed.
    destruct (String.prefix folder (String a s)) eqn:Hp.
    + cbv zeta. destruct (is_empty (until_dot d)) eqn:He.
      * intros H. destruct (IH _ H) as (before & after & -> & Hrest).
        exists (String a before), after. now split.
      * intros H. injection H as <-.
        destruct (until_dot_split d) as (after & Hsplit & Hafter).
        exists "", after. split.
        -- cbn [append]. rewrite <- Hsplit, Ed. now apply prefix_split.
        -- split; [exact He|]. split; [apply until_dot_no_dot|exact Hafter].
    + intros H. destruct (IH _ H) as (before & after & -> & Hrest).
      exists (String a before), after. now split.
Qed.

(** X25: An identifier that [extractPublicId] returns is cut out of the url:
    the url mentions cloudinary.com and holds the identifier behind a
    slash; the identifier is the folder, a slash and a name that is not
    empty and has no dot, and what follows it in the url is nothing or
    begins with a dot. *)
Theorem extractPublicId_sound url id :
  extractPublicId url = Some id ->
  exists u before name after,
    url = Some u
    /\ includes "cloudinary.com" u = true
    /\ u = (before ++ "/" ++ id ++ after)%string
    /\ id = ("doingSomething/items/" ++ name)%string
    /\ is_empty name = false
    /\ all_chars (fun c => negb (Ascii.eqb c ".")) name = true
    /\ (after = "" \/ exists r, after = String "." r).
Proof.
  unfold extractPublicId. destruct url as [u|]; [|discriminate].
  destruct (is_empty u); [discriminate|]. cbn [orb].
  destruct (includes "cloudinary.com" u) eqn:Hc; [|discriminate].
  cbn [negb]. destruct (match_items u) as [name|] eqn:Hm; [|discriminate].
  intros [= <-].
  destruct (match_items_sound u name Hm)
    as (before & after & -> & Hne & Hdot & Hafter).
  exists (before ++ folder ++ name ++ after)%string, before, name, after.
  split; [reflexivity|]. split; [exact Hc|]. split.
  - unfold folder. cbn [append]. reflexivity.
  - now repeat split.
Qed.

Lemma extractPublicId_sound_upload :
  exists name,
    extractPublicId
      (Some "https://res.cloudinary.com/demo/image/upload/v1/doingSomething/items/abc123.jpg")
    = Some ("doingSomething/items/" ++ name)%string
    /\ is_empty name = false.
Proof.
  destruct (extractPublicId_sound
              (Some "https://res.cloudinary.com/demo/image/upload/v1/doingSomething/items/abc123.jpg")
              "doingSomething/items/abc123" eq_refl)
    as (u & before & name & after & _ & _ & _ & Hid & Hne & _).
  exists name. split; [|exact Hne]. now rewrite <- Hid.
Defined.

Lemma prefix_append_more p s t :
  String.prefix p s = true -> String.prefix p (s ++ t) = true.
Proof.
  revert s. induction p as [|a p IH]; intros s; [now destruct (s ++ t)%string|].
  destruct s as [|b s]; [discriminate|]. cbn.
  destruct (ascii_dec a b); [apply IH|discriminate].
Qed.

Lemma includes_append_more needle s t :
  includes needle s = true -> includes needle (s ++ t) = true.
Proof.
  induction s as [|a s IH].
  - cbn. rewrite orb_false_r. intros H.
    destruct needle; [now destruct t|discriminate].
  - cbn [append includes]. intros H. apply orb_true_iff in H as [H|H].
    + apply orb_true_iff. left. exact (prefix_append_more _ (String a s) t H).
    + apply orb_true_iff. right. exact (IH H).
Qed.

(** The folder does not begin inside what precedes it, unless what
    precedes holds the folder's path itself. *)
Lemma no_early_match b t :
  is_empty b = false ->
  String.prefix "/doingSomething/items" b = false ->
  String.prefix folder (b ++ folder ++ t) = false.
Proof.
  unfold folder. intros Hb Hp.
  destruct b as [|x b]; [discriminate|]. clear Hb. revert Hp.
  do 21 (cbn [append String.prefix];
         match goal with
         | |- context [ascii_dec ?a x] =>
             destruct (ascii_dec a x) as [<-|]; [|reflexivity]
         end;
         destruct b as [|x b]; [first [reflexivity|cbn; discriminate]|]).
  cbn. discriminate.
Qed.

Lemma match_items_upload before name after :
  includes "/doingSomething/items" before = false ->
  is_empty name = false ->
  all_chars (fun c => negb (Ascii.eqb c ".")) name = true ->
  (after = "" \/ exists r, after = String "." r) ->
  match_items (before ++ folder ++ name ++ after) = Some name.
Proof.
  intros Hfree Hne Hdot Hafter. induction before as [|a before IH];
    rewrite match_items_eq.
  - cbn [append]. rewrite prefix_append_l. cbv zeta.
    rewrite drop_append, (until_dot_append _ _ Hdot Hafter). now rewrite Hne.
  - cbn [includes] in Hfree. apply orb_false_iff in Hfree as [Hhere Hrest].
    rewrite (no_early_match (String a before) _ eq_refl Hhere).
    cbn [append]. now apply IH.
Qed.

(** X26: The identifier of an upload is read back: from a url that mentions
    cloudinary.com before the folder and does not hold the folder's
    path before it, [extractPublicId] returns the folder and the name,
    where the name is what stands between the folder and the first dot
    (or the end). *)
Theorem extractPublicId_upload before name after :
  includes "cloudinary.com" before = true ->
  includes "/doingSomething/items" before = false ->
  is_empty name = false ->
  all_chars (fun c => negb (Ascii.eqb c ".")) name = true ->
  (after = "" \/ exists r, after = String "." r) ->
  extractPublicId (Some (before ++ folder ++ name ++ after)%string)
  = Some ("doingSomething/items/" ++ name)%string.
Proof.
  intros Hhost Hfree Hne Hdot Hafter. unfold extractPublicId.
  rewrite (includes_append_more _ _ _ Hhost).
  rewrite (match_items_upload _ _ _ Hfree Hne Hdot Hafter).
  destruct before as [|a before]; [discriminate Hhost|reflexivity].
Qed.

Lemma extractPublicId_upload_jpg :
  extractPublicId
    (Some "https://res.cloudinary.com/demo/image/upload/v1/doingSomething/items/abc123.jpg")
  = Some "doingSomething/items/abc123".
Proof.
  apply (extractPublicId_upload
           "https://res.cloudinary.com/demo/image/upload/v1" "abc123" ".jpg");
    try reflexivity.
  right. now exists "jpg".
Defined.

End CloudinaryFacts.

(** ** The email of an admin *)

Module EmailFacts.
Import Store Http Models CategoryController Account Regex Invariants
  Examples KeepFacts.

Lemma nullable_matches r : nullable r = true -> matches r "".
Proof.
  induction r as [| |p|r1 IH1 r2 IH2|r1 IH1 r2 IH2|r IH]; cbn;
    try discriminate; intros H.
  - constructor.
  - apply andb_true_iff in H as [H1 H2].
    exact (matches_seq r1 r2 "" "" (IH1 H1) (IH2 H2)).
  - apply orb_true_iff in H as [H|H]; [apply matches_alt_l|apply matches_alt_r];
      auto.
  - constructor.
Qed.

Lemma derive_matches c r s : matches (derive c r) s -> matches r (String c s).
Proof.
  revert s. induction r as [| |p|r1 IH1 r2 IH2|r1 IH1 r2 IH2|r IH];
    intros s; cbn.
  - intros H. inversion H.
  - intros H. inversion H.
  - destruct (p c) eqn:Hp; intros H; inversion H; subst. now constructor.
  - destruct (nullable r1) eqn:Hn; intros H.
    + inversion H as [| | | ? ? ? Hl | ? ? ? Hr | |]; subst.
      * inversion Hl as [| |? ? s1 s2 H1 H2| | | |]; subst.
        exact (matches_seq r1 r2 (String c s1) s2 (IH1 _ H1) H2).
      * exact (matches_seq r1 r2 "" (String c s) (nullable_matches _ Hn)
                 (IH2 _ Hr)).
    + inversion H as [| |? ? s1 s2 H1 H2| | | |]; subst.
      exact (matches_seq r1 r2 (String c s1) s2 (IH1 _ H1) H2).
  - intros H. inversion H; subst;
      [apply matches_alt_l|apply matches_alt_r]; auto.
  - intros H. inversion H as [| |? ? s1 s2 H1 H2| | | |]; subst.
    exact (matches_star_cons r (String c s1) s2 (IH _ H1) H2).
Qed.

Lemma test_matches r s : test r s = true -> matches r s.
Proof.
  revert r. induction s as [|c s IH]; intros r; cbn.
  - apply nullable_matches.
  - intros H. apply derive_matches, IH, H.
Qed.

(** A string of [\.\w{2,3}]: a dot and two or three word characters. *)
Lemma label_shape s :
  matches (Seq (Chars dot)
             (Seq (Chars word_char)
                (Seq (Chars word_char) (opt (Chars word_char))))) s ->
  exists tld,
    s = String "." tld
    /\ (String.length tld = 2 \/ String.length tld = 3)
    /\ Text.all_chars word_char tld = true.
Proof.
  intros H.
  inversion H as [| |? ? s1 s2 H1 H2| | | |]; subst.
  inversion H1 as [|? c1 Hc1| | | | |]; subst.
  inversion H2 as [| |? ? s3 s4 H3 H4| | | |]; subst.
  inversion H3 as [|? c3 Hc3| | | | |]; subst.
  inversion H4 as [| |? ? s5 s6 H5 H6| | | |]; subst.
  inversion H5 as [|? c5 Hc5| | | | |]; subst.
  assert (c1 = "."%char) as ->.
  { unfold dot in Hc1. apply N.eqb_eq in Hc1.
    rewrite <- (ascii_N_embedding c1). unfold Text.code in Hc1.
    now rewrite Hc1. }
  inversion H6 as [| | |? ? ? Hl|? ? ? Hr| |]; subst.
  - inversion Hl; subst. exists (String c3 (String c5 "")). cbn.
    rewrite Hc3, Hc5. now split; [|split; [left|]].
  - inversion Hr as [|? c7 Hc7| | | | |]; subst.
    exists (String c3 (String c5 (String c7 ""))). cbn.
    rewrite Hc3, Hc5, Hc7. now split; [|split; [right|]].
Qed.

Lemma append_assoc (a b c : string) :
  ((a ++ b) ++ c)%string = (a ++ (b ++ c))%string.
Proof. induction a as [|x a IH]; [reflexivity|]. cbn. now rewrite IH. Qed.

Lemma append_nil_r (a : string) : (a ++ "")%string = a.
Proof. induction a as [|x a IH]; [reflexivity|]. cbn. now rewrite IH. Qed.

(** A non-empty run of labels ends with a label. *)
Lemma labels_end r s :
  (forall x, matches r x ->
     exists tld, x = String "." tld
                 /\ (String.length tld = 2 \/ String.length tld = 3)
                 /\ Text.all_chars word_char tld = true) ->
  matches (Star r) s ->
  s = ""
  \/ exists before tld,
       s = (before ++ String "." tld)%string
       /\ (String.length tld = 2 \/ String.length tld = 3)
       /\ Text.all_chars word_char tld = true.
Proof.
  intros Hr H. remember (Star r) as q eqn:Eq.
  induction H as [| | | | | |r' s1 s2 H1 _ H2 IH2]; try discriminate.
  - now left.
  - injection Eq as ->. right.
    destruct (IH2 eq_refl) as [->|(before & tld & -> & Hlen & Hw)].
    + destruct (Hr _ H1) as (tld & -> & Hlen & Hw).
      exists "", tld. rewrite append_nil_r. now split.
    + exists (s1 ++ before)%string, tld. rewrite append_assoc. now split.
Qed.

(** What the pattern of the schema accepts holds an at sign after a
    first part that is not empty, and ends with a dot and two or three
    word characters. *)
Lemma email_shape s :
  test email s = true ->
  exists name rest tld,
    s = (name ++ "@" ++ rest ++ String "." tld)%string
    /\ Text.is_empty name = false
    /\ (String.length tld = 2 \/ String.length tld = 3)
    /\ Text.all_chars word_char tld = true.
Proof.
  intros H. apply test_matches in H. unfold email in H. cbv zeta in H.
  inversion H as [| |? ? name s2 Hname H2| | | |]; subst.
  inversion H2 as [| |? ? s3 s4 Hat H4| | | |]; subst.
  inversion Hat as [|? c Hc| | | | |]; subst.
  assert (c = "@"%char) as ->.
  { unfold at_sign in Hc. apply N.eqb_eq in Hc.
    rewrite <- (ascii_N_embedding c). unfold Text.code in Hc.
    now rewrite Hc. }
  inversion H4 as [| |? ? domain s6 Hdomain H6| | | |]; subst.
  unfold plus in H6.
  inversion H6 as [| |? ? first others Hfirst Hothers| | | |]; subst.
  assert (Hne : Text.is_empty name = false).
  { unfold plus in Hname.
    inversion Hname as [| |? ? w ws Hw _| | | |]; subst.
    inversion Hw as [| |? ? w1 w2 Hw1 _| | | |]; subst.
    inversion Hw1; subst. reflexivity. }
  destruct (labels_end _ _ label_shape Hothers)
    as [->|(before & tld & -> & Hlen & Hw)].
  - destruct (label_shape _ Hfirst) as (tld & -> & Hlen & Hw).
    exists name, domain, tld. rewrite append_nil_r. now split.
  - exists name, (domain ++ first ++ before)%string, tld.
    split; [|now split].
    cbn [append]. now rewrite !append_assoc.
Qed.

Section WithLibraries.
Context `{BcryptHash}.

(** X23: [register] stores no admin whose email the pattern of the schema
    rejects: the email of every admin it describes in a 201 holds an at
    sign after a first part that is not empty and ends with a dot and
    two or three word characters, whatever the request was. *)
Theorem registered_email_shape salt body w res described :
  outcome (register salt body w) = Done (res, Some described) ->
  exists name rest tld,
    sum_email described = (name ++ "@" ++ rest ++ String "." tld)%string
    /\ Text.is_empty name = false
    /\ (String.length tld = 2 \/ String.length tld = 3)
    /\ Text.all_chars word_char tld = true.
Proof.
  unfold register. rewrite try_catch_run, bind_run.
  destruct (Admin.findOne _ w) as [[found| e|] w1]; [|discriminate|discriminate].
  destruct (is_some found); [discriminate|].
  rewrite bind_run.
  match goal with |- context [Account.create salt ?f w1] =>
    pose proof (AccountFacts.admin_create_result salt f w1) as Hc;
    destruct (Account.create salt f w1) as [[a| e|] w2]
  end; [|discriminate|discriminate].
  destruct Hc as (_ & Hv & He & _).
  unfold outcome. cbn [fst ret]. intros [= _ <-]. cbn [summary sum_email].
  rewrite He. apply email_shape.
  unfold Account.validate in Hv.
  apply app_nil_both in Hv as [_ Hv]. apply app_nil_both in Hv as [_ Hv].
  apply app_nil_both in Hv as [_ Hv]. apply app_nil_both in Hv as [Hreq Hv].
  apply app_nil_both in Hv as [Hmatch _].
  destruct (Account.email (Account.cast _)) as [e|]; cbn in *;
    [|discriminate Hreq].
  destruct (Text.is_empty e); cbn in *; [discriminate Hreq|].
  now destruct (test email e).
Qed.

End WithLibraries.

Lemma registered_email_shape_ann :
  exists name rest tld,
    "ann@example.com" = (name ++ "@" ++ rest ++ String "." tld)%string
    /\ Text.is_empty name = false.
Proof.
  destruct (@registered_email_shape Spec.toy_bcrypt toy_hash "salt" ann
              Spec.small_world
              (ok 201 (Some "Admin created successfully") NoData)
              (mkAdminSummary (numbered_ObjectId 7) "ann" "ann@example.com"
                 "admin" None)
              eq_refl)
    as (name & rest & tld & Hs & Hne & _).
  exists name, rest, tld. split; [exact Hs|exact Hne].
Defined.

End EmailFacts.

(** ** The initialization script *)

Module SeedFacts.
Import Store Http Models CategoryController CategoryMore Account Seed Spec
  Invariants Examples KeepFacts ListFacts.

Lemma extends_refl w : extends w w.
Proof. split; exists []; now rewrite app_nil_r. Qed.

Lemma same_store_extends w' w : same_store w' w -> extends w' w.
Proof. intros [Hc Ha]. split; exists []; now rewrite app_nil_r. Qed.

Lemma extends_trans w2 w1 w0 : extends w2 w1 -> extends w1 w0 -> extends w2 w0.
Proof.
  intros [[cs2 Hc2] [as2 Ha2]] [[cs1 Hc1] [as1 Ha1]].
  split; [exists (cs1 ++ cs2)|exists (as1 ++ as2)];
    rewrite app_assoc; congruence.
Qed.

Lemma same_store_trans w2 w1 w0 :
  same_store w2 w1 -> same_store w1 w0 -> same_store w2 w0.
Proof. intros [Hc2 Ha2] [Hc1 Ha1]. split; congruence. Qed.

Lemma extends_same w2 w1 w0 : extends w2 w1 -> same_store w1 w0 -> extends w2 w0.
Proof.
  intros [[cs Hc] [ads Ha]] [Hc1 Ha1]. split; [exists cs|exists ads];
    congruence.
Qed.

Lemma same_extends w2 w1 w0 : same_store w2 w1 -> extends w1 w0 -> extends w2 w0.
Proof.
  intros [Hc1 Ha1] [[cs Hc] [ads Ha]]. split; [exists cs|exists ads];
    congruence.
Qed.

(** *** Sequencing *)

Lemma grows_ret {A} (a : A) : grows (ret a).
Proof.
  intros w Hf. split; [exact Hf|]. split; [apply extends_refl|discriminate].
Qed.

Lemma idem_ret {A} (a : A) : idem (ret a).
Proof. intros w w' _ _ H. split; reflexivity. Qed.

Lemma grows_seq {A} (m1 : M unit) (m2 : M A) :
  grows m1 -> grows m2 -> grows (m1 ;;; m2).
Proof.
  intros G1 G2 w Hf. destruct (G1 w Hf) as (Hf1 & He1 & Ho1).
  rewrite bind_run. unfold world, outcome in *.
  destruct (m1 w) as [[[]| e|] wa]; cbn [fst snd] in *.
  - destruct (G2 wa Hf1) as (Hf2 & He2 & Ho2).
    unfold world, outcome in *.
    destruct (m2 wa) as [o2 w2]; cbn [fst snd] in *.
    split; [exact Hf2|]. split; [now apply (extends_trans _ wa)|exact Ho2].
  - split; [exact Hf1|]. split; [exact He1|discriminate].
  - now contradiction Ho1.
Qed.

Lemma idem_seq {A} (m1 : M unit) (m2 : M A) :
  grows m1 -> repeats m1 -> grows m2 -> idem m2 -> idem (m1 ;;; m2).
Proof.
  intros G1 R1 G2 I2 w w' Hf Hf'. rewrite !bind_run.
  destruct (G1 w Hf) as (Hf1 & He1 & Ho1).
  destruct (G1 w' Hf') as (Hf1' & _ & _).
  specialize (R1 w w' Hf Hf'). unfold world, outcome in *.
  destruct (m1 w) as [[[]| e|] wa]; cbn [fst snd] in *.
  - destruct (G2 wa Hf1) as (_ & He2 & _). unfold world in *.
    intros Hsame.
    destruct (R1 (same_extends _ _ _ Hsame He2)) as [Hnoop _].
    destruct (m1 w') as [[[]| e'|] wa']; cbn [fst snd] in *;
      [|exact Hnoop|exact Hnoop].
    apply (same_store_trans _ wa'); [|exact Hnoop].
    apply (I2 wa wa' Hf1 Hf1').
    now apply (same_store_trans _ w').
  - intros Hsame.
    destruct (R1 (same_store_extends _ _ Hsame)) as [Hnoop Hthrow].
    destruct (Hthrow e eq_refl Hsame) as (e' & He').
    destruct (m1 w') as [o' wa']; cbn [fst snd] in *. now subst o'.
  - now contradiction Ho1.
Qed.

(** *** The awaited connection *)

Lemma grows_connect : grows (await (ret tt)).
Proof.
  intros w Hf. unfold await. rewrite Hf.
  split; [exact Hf|]. split; [apply extends_refl|discriminate].
Qed.

Lemma repeats_connect : repeats (await (ret tt)).
Proof.
  intros w w' Hf Hf' _. unfold await. rewrite Hf, Hf'.
  split; [now split|intros e He; discriminate He].
Qed.

(** *** One default category *)

Lemma seed_category_calm d w :
  faults w = [] ->
  seed_category d w
  = if is_some (find (by_body_slug (Category.slug d)) (categories w))
    then (Done tt, w)
    else
      match Category.validate (Category.cast d) with
      | e :: es =>
          (Thrown (ValidationError (e :: es)),
           set_next_oid (S (next_oid w)) w)
      | [] =>
          if existsb
               (Category.has_slug
                  (Category.or_default "" (Category.slug (Category.cast d))))
               (categories w)
          then (Thrown (DuplicateKey "slug"), set_next_oid (S (next_oid w)) w)
          else (Done tt,
                set_categories
                  (categories w
                   ++ [typed_document (numbered_ObjectId (next_oid w))
                         (Category.cast d)])
                  (set_next_oid (S (next_oid w)) w))
      end.
Proof.
  intros Hf. unfold seed_category, Category.findOne, create_typed,
    new_ObjectId. unfold bind, await, ret.
  rewrite Hf. destruct (is_some _); [reflexivity|].
  cbv beta iota. cbn [faults set_next_oid]. rewrite Hf. cbv beta zeta.
  destruct (Category.validate (Category.cast d)); [|reflexivity].
  cbn [categories set_next_oid ICategory.slug typed_document].
  now destruct (existsb _ (categories w)).
Qed.

Lemma is_some_find_app {D} (p : D -> bool) l l' :
  is_some (find p l) = true -> is_some (find p (l ++ l')) = true.
Proof.
  induction l as [|x l IH]; [discriminate|]. cbn.
  destruct (p x); [reflexivity|exact IH].
Qed.

Lemma existsb_app_l {D} (p : D -> bool) l l' :
  existsb p l = true -> existsb p (l ++ l') = true.
Proof. intros H. rewrite existsb_app, H. reflexivity. Qed.

Lemma grows_seed_category d : grows (seed_category d).
Proof.
  intros w Hf. rewrite (seed_category_calm d w Hf).
  destruct (is_some _).
  - split; [exact Hf|]. split; [apply same_store_extends; now split|discriminate].
  - destruct (Category.validate (Category.cast d)).
    + destruct (existsb _ (categories w)).
      * split; [exact Hf|]. split; [apply same_store_extends; now split|discriminate].
      * split; [exact Hf|]. split; [|discriminate].
        split; [eexists; reflexivity|exists []; cbn; now rewrite app_nil_r].
    + split; [exact Hf|]. split; [apply same_store_extends; now split|discriminate].
Qed.

Ltac not_thrown :=
  let e := fresh "e" in
  let He := fresh "He" in
  intros e He; unfold outcome in He; cbn in He; discriminate He.

Lemma repeats_seed_category d : repeats (seed_category d).
Proof.
  intros w w' Hf Hf'.
  rewrite (seed_category_calm d w Hf), (seed_category_calm d w' Hf').
  destruct (is_some (find _ (categories w))) eqn:F1.
  - intros [[cs Hcs] _]. unfold world in Hcs. cbn [snd] in Hcs.
    rewrite Hcs, (is_some_find_app _ _ cs F1).
    split; [now split|not_thrown].
  - destruct (Category.validate (Category.cast d)) as [|e es] eqn:V.
    + destruct (existsb _ (categories w)) eqn:X1.
      * intros [[cs Hcs] _]. unfold world in Hcs.
        cbn [snd categories set_next_oid] in Hcs. split.
        -- destruct (is_some (find _ (categories w'))); [now split|].
           rewrite Hcs, (existsb_app_l _ _ cs X1). now split.
        -- intros e0 _ [Hsame _]. unfold world in Hsame.
           cbn [snd categories set_next_oid] in Hsame.
           rewrite Hsame, F1, X1. now eexists.
      * intros [[cs Hcs] _]. unfold world in Hcs.
        cbn [snd categories set_categories set_next_oid] in Hcs.
        split; [|not_thrown].
        destruct (is_some (find _ (categories w'))); [now split|].
        assert (X : existsb
                      (Category.has_slug
                         (Category.or_default ""
                            (Category.slug (Category.cast d))))
                      (categories w') = true).
        { rewrite Hcs, <- app_assoc, existsb_app. apply orb_true_iff. right.
          cbn. unfold Category.has_slug at 1. cbn [ICategory.slug].
          now rewrite String.eqb_refl. }
        rewrite X. now split.
    + intros [[cs Hcs] _]. unfold world in Hcs.
      cbn [snd categories set_next_oid] in Hcs. split.
      * destruct (is_some (find _ (categories w'))); now split.
      * intros e0 _ [Hsame _]. unfold world in Hsame.
        cbn [snd categories set_next_oid] in Hsame.
        rewrite Hsame, F1. now eexists.
Qed.

Lemma seed_categories_twice l :
  grows (seed_categories l) /\ idem (seed_categories l).
Proof.
  induction l as [|d l [G I]]; cbn [seed_categories].
  - split; [apply grows_ret|apply idem_ret].
  - split.
    + apply grows_seq; [apply grows_seed_category|exact G].
    + apply idem_seq; [apply grows_seed_category|apply repeats_seed_category|
                        exact G|exact I].
Qed.

(** *** The default admin *)

Section WithLibraries.
Context `{BcryptHash}.

Lemma seed_admin_calm salt env w :
  faults w = [] ->
  let f := Account.cast
             (Account.mkFields (Some (adminUsername env))
                (Some (adminEmail env)) (Some (adminPassword env))
                (Some "super_admin")) in
  let E := Category.or_default "" (Account.email f) in
  let U := Category.or_default "" (Account.username f) in
  seed_admin salt env w
  = if is_some (find (Admin.by_email (adminEmail env)) (admins w))
    then (Done tt, w)
    else
      match Account.validate f with
      | e :: es =>
          (Thrown (ValidationError (e :: es)),
           set_next_oid (S (next_oid w)) w)
      | [] =>
          if existsb (fun b => String.eqb (IAdmin.email b) E) (admins w)
          then (Thrown (DuplicateKey "email"),
                set_next_oid (S (next_oid w)) w)
          else if existsb (fun b => String.eqb (IAdmin.username b) U)
                    (admins w)
          then (Thrown (DuplicateKey "username"),
                set_next_oid (S (next_oid w)) w)
          else (Done tt,
                set_admins
                  (admins w
                   ++ [IAdmin.mk (numbered_ObjectId (next_oid w)) U E
                         (bcrypt_hash salt
                            (Category.or_default "" (Account.password f)))
                         (Category.or_default "admin" (Account.role f))
                         true None])
                  (set_next_oid (S (next_oid w)) w))
      end.
Proof.
  intros Hf. cbv zeta. unfold seed_admin, Admin.findOne, Account.create,
    new_ObjectId. unfold bind, await, ret.
  rewrite Hf. destruct (is_some _); [reflexivity|].
  cbv beta iota. cbn [faults set_next_oid]. rewrite Hf. cbv beta zeta.
  destruct (Account.validate _); [|reflexivity].
  cbn [admins set_next_oid IAdmin.email IAdmin.username].
  destruct (existsb _ (admins w)); [reflexivity|].
  now destruct (existsb _ (admins w)).
Qed.

Lemma grows_seed_admin salt env : grows (seed_admin salt env).
Proof.
  intros w Hf. rewrite (seed_admin_calm salt env w Hf). cbv zeta.
  destruct (is_some _).
  - split; [exact Hf|]. split; [apply extends_refl|discriminate].
  - destruct (Account.validate _).
    + destruct (existsb _ (admins w)).
      * split; [exact Hf|].
        split; [apply same_store_extends; now split|discriminate].
      * destruct (existsb _ (admins w)).
        -- split; [exact Hf|].
           split; [apply same_store_extends; now split|discriminate].
        -- split; [exact Hf|]. split; [|discriminate].
           split; [exists []; cbn; now rewrite app_nil_r|
                    eexists; reflexivity].
    + split; [exact Hf|].
      split; [apply same_store_extends; now split|discriminate].
Qed.

Lemma repeats_seed_admin salt env : repeats (seed_admin salt env).
Proof.
  intros w w' Hf Hf'.
  rewrite (seed_admin_calm salt env w Hf), (seed_admin_calm salt env w' Hf').
  cbv zeta.
  set (f := Account.cast _).
  set (E := Category.or_default "" (Account.email f)).
  set (U := Category.or_default "" (Account.username f)).
  destruct (is_some (find _ (admins w))) eqn:F1.
  - intros [_ [ads Hads]]. unfold world in Hads. cbn [snd] in Hads.
    rewrite Hads, (is_some_find_app _ _ ads F1).
    split; [now split|not_thrown].
  - destruct (Account.validate f) as [|e es] eqn:V.
    + destruct (existsb (fun b => String.eqb (IAdmin.email b) E) (admins w))
        eqn:X1.
      * intros [_ [ads Hads]]. unfold world in Hads.
        cbn [snd admins set_next_oid] in Hads. split.
        -- destruct (is_some (find _ (admins w'))); [now split|].
           rewrite Hads, (existsb_app_l _ _ ads X1). now split.
        -- intros e0 _ [_ Hsame]. unfold world in Hsame.
           cbn [snd admins set_next_oid] in Hsame.
           rewrite Hsame, F1, X1. now eexists.
      * destruct (existsb (fun b => String.eqb (IAdmin.username b) U)
                    (admins w)) eqn:X2.
        -- intros [_ [ads Hads]]. unfold world in Hads.
           cbn [snd admins set_next_oid] in Hads. split.
           ++ destruct (is_some (find _ (admins w'))); [now split|].
              destruct (existsb (fun b => String.eqb (IAdmin.email b) E)
                          (admins w')); [now split|].
              rewrite Hads, (existsb_app_l _ _ ads X2). now split.
           ++ intros e0 _ [_ Hsame]. unfold world in Hsame.
              cbn [snd admins set_next_oid] in Hsame.
              rewrite Hsame, F1, X1, X2. now eexists.
        -- intros [_ [ads Hads]]. unfold world in Hads.
           cbn [snd admins set_admins set_next_oid] in Hads.
           split; [|not_thrown].
           destruct (is_some (find _ (admins w'))); [now split|].
           assert (X : existsb (fun b => String.eqb (IAdmin.email b) E)
                         (admins w') = true).
           { rewrite Hads, <- app_assoc, existsb_app. apply orb_true_iff.
             right. cbn. now rewrite String.eqb_refl. }
           rewrite X. now split.
    + intros [_ [ads Hads]]. unfold world in Hads.
      cbn [snd admins set_next_oid] in Hads. split.
      * destruct (is_some (find _ (admins w'))); now split.
      * intros e0 _ [_ Hsame]. unfold world in Hsame.
        cbn [snd admins set_next_oid] in Hsame.
        rewrite Hsame, F1. now eexists.
Qed.

Lemma initialization_twice salt env :
  grows (seed_admin salt env ;;; seed_categories defaultCategories ;;; ret 0)
  /\ idem (await (ret tt) ;;;
           seed_admin salt env ;;;
           seed_categories defaultCategories ;;;
           ret 0).
Proof.
  destruct (seed_categories_twice defaultCategories) as [G I].
  assert (G0 : grows (seed_categories defaultCategories ;;; ret 0))
    by (apply grows_seq; [exact G|apply grows_ret]).
  assert (I0 : idem (seed_categories defaultCategories ;;; ret 0)).
  { intros w w' Hf Hf' Hsame. rewrite bind_run in Hsame |- *.
    specialize (I w w' Hf Hf'). unfold world in *.
    destruct (seed_categories defaultCategories w) as [[[]| e|] w1],
      (seed_categories defaultCategories w') as [[[]| e'|] w1'];
      cbn [snd ret] in *; now apply I. }
  assert (G1 : grows (seed_admin salt env ;;;
                      seed_categories defaultCategories ;;; ret 0))
    by (apply grows_seq; [apply grows_seed_admin|exact G0]).
  split; [exact G1|].
  apply idem_seq; [apply grows_connect|apply repeats_connect|exact G1|].
  apply idem_seq; [apply grows_seed_admin|apply repeats_seed_admin|exact G0|
                    exact I0].
Qed.

(** X27: The initialization can be run again: when the store calls are
    answered, a second run of [initializeDatabase] after a first adds
    no admin and no category and changes none, whatever the environment
    holds and whether the first run ended with 0 or 1. *)
Theorem initializeDatabase_twice salt env w :
  faults w = [] ->
  let w1 := world (initializeDatabase salt env w) in
  categories (world (initializeDatabase salt env w1)) = categories w1
  /\ admins (world (initializeDatabase salt env w1)) = admins w1.
Proof.
  intros Hf. cbv zeta.
  destruct (initialization_twice salt env) as [G1 I].
  assert (G : grows (await (ret tt) ;;;
                     seed_admin salt env ;;;
                     seed_categories defaultCategories ;;; ret 0))
    by (apply grows_seq; [apply grows_connect|exact G1]).
  unfold initializeDatabase. rewrite !try_catch_run.
  destruct (G w Hf) as (Hf1 & _ & _). specialize (I w).
  unfold world in *.
  destruct ((await (ret tt) ;;;
             seed_admin salt env ;;;
             seed_categories defaultCategories ;;; ret 0) w)
    as [[code| e|] w1]; cbn [snd] in *.
  - specialize (I w1 Hf Hf1 (conj eq_refl eq_refl)).
    destruct ((await (ret tt) ;;;
               seed_admin salt env ;;;
               seed_categories defaultCategories ;;; ret 0) w1)
      as [[code'| e'|] w2]; cbn [snd] in *; exact I.
  - specialize (I (set_log (log w1 ++ ["Database initialization failed:"]) w1)
                  Hf Hf1 (conj eq_refl eq_refl)).
    cbn [snd logger_error bind ret].
    destruct ((await (ret tt) ;;;
               seed_admin salt env ;;;
               seed_categories defaultCategories ;;; ret 0)
                (set_log (log w1 ++ ["Database initialization failed:"]) w1))
      as [[code'| e'|] w2]; cbn [snd] in *; exact I.
  - specialize (I w1 Hf Hf1 (conj eq_refl eq_refl)).
    destruct ((await (ret tt) ;;;
               seed_admin salt env ;;;
               seed_categories defaultCategories ;;; ret 0) w1)
      as [[code'| e'|] w2]; cbn [snd] in *; exact I.
Qed.

End WithLibraries.

Lemma initializeDatabase_twice_small_world :
  let w1 := world (@initializeDatabase toy_bcrypt toy_hash "salt"
                     (mkEnv None None None) small_world) in
  categories (world (@initializeDatabase toy_bcrypt toy_hash "salt"
                       (mkEnv None None None) w1))
  = categories w1.
Proof.
  apply (@initializeDatabase_twice toy_bcrypt toy_hash "salt"
           (mkEnv None None None) small_world eq_refl).
Defined.

End SeedFacts.
